(** * SmoothHeightMesh: windowed-maximum terrain smoothing

    A shallow embedding of [rts/Sim/Misc/SmoothHeightMesh.cpp] (Spring
    engine) and the properties of its build and query paths.

    Conventions of the embedding.
    - [float] values are exact rationals ([Q]): no rounding, no NaN, no
      infinities.  Comparisons, [std::max], [std::min] and [std::clamp]
      are written out as the C++ library defines them, so which of two
      numerically equal operands is returned is preserved.
    - [int] values are [Z]; the conversion float -> int truncates toward
      zero, [int / int] is [Z.quot].
    - [std::vector] is [list]; an index is a [Z].  The build passes use
      the unchecked [operator[]] of the source ([vget]/[vset]); the query
      and edit entry points use checked accesses ([vread]), where [None]
      stands for the undefined behaviour of an access out of bounds.
    - The embedding is that of a release build: every [assert] is
      compiled out ([NDEBUG]).  A query on an object without storage
      reads through [&mesh[0]] of an empty vector, which is undefined
      behaviour ([None]); [MakeSmoothMesh] on an object that still has
      a mesh rebuilds it in place.  The conditions the [assert]s of the
      build loops state, and those of [CheckInvariants], are given as
      boolean functions or as statements and proved apart, so that it
      is known when a build with assertions runs through.
    - [int] is unbounded, and the quotients [mx / res] and
      [smoothRadius / resolution] are divided exactly before they are
      truncated: where the float quotient rounds up to the next integer
      the source has one more column, row or window cell than the
      embedding.
    - [for_mt] runs its body for every index of the half-open range; the
      bodies write disjoint cells, so the embedding runs them in order. *)

From Stdlib Require Import ZArith QArith Qround Qminmax List Lia Lqa Bool.
Import ListNotations.

Local Open Scope Z_scope.

(** ** Numbers *)

Definition of_int (n : Z) : Q := inject_Z n.

(** float -> int conversion: truncation toward zero. *)
Definition to_int (q : Q) : Z := Z.quot (Qnum q) (Zpos (Qden q)).

(** [std::max(a, b)] is [(a < b) ? b : a]. *)
Definition std_max (a b : Q) : Q := if Qlt_le_dec a b then b else a.

(** [std::min(a, b)] is [(b < a) ? b : a]. *)
Definition std_min (a b : Q) : Q := if Qlt_le_dec b a then b else a.

(** [std::clamp(v, lo, hi)] is [(v < lo) ? lo : (hi < v) ? hi : v]. *)
Definition std_clamp (v lo hi : Q) : Q :=
  if Qlt_le_dec v lo then lo else if Qlt_le_dec hi v then hi else v.

(** [std::numeric_limits<float>::max()]. *)
Definition FLT_MAX : Q := 340282346638528859811704183484516925440 # 1.

(** [-std::numeric_limits<float>::max()], the seed of every maximum. *)
Definition lowest : Q := (- FLT_MAX)%Q.

(** Modelled from the spec: [Clamp] of System/SpringMath.h, which is not
    among the sources; it clamps [v] into [[vmin, vmax]]. *)
Definition Clamp (v vmin vmax : Q) : Q := std_min vmax (std_max vmin v).

(** Modelled from the spec: [mix] of System/SpringMath.h, which is not
    among the sources; linear interpolation from [v1] to [v2]. *)
Definition mix (v1 v2 a : Q) : Q := (v1 + (v2 - v1) * a)%Q.

(** ** Vectors *)

Section Vectors.
Context {A : Type}.

(** Unchecked read [v[i]]. *)
Definition vget (d : A) (v : list A) (i : Z) : A :=
  if i <? 0 then d else nth (Z.to_nat i) v d.

Fixpoint upd (v : list A) (n : nat) (a : A) : list A :=
  match v, n with
  | [], _ => []
  | _ :: t, O => a :: t
  | h :: t, S n' => h :: upd t n' a
  end.

(** Unchecked write [v[i] = a]. *)
Definition vset (v : list A) (i : Z) (a : A) : list A :=
  if i <? 0 then v else upd v (Z.to_nat i) a.

(** Checked read. *)
Definition vread (v : list A) (i : Z) : option A :=
  if i <? 0 then None else nth_error v (Z.to_nat i).

Definition vsize (v : list A) : Z := Z.of_nat (length v).

(** [v.resize(n, a)]; a negative [n] converts to a [size_t] beyond
    [max_size()] and the call throws. *)
Definition resize (v : list A) (n : Z) (a : A) : option (list A) :=
  if n <? 0 then None
  else Some (firstn (Z.to_nat n) v ++ repeat a (Z.to_nat n - length v)).
End Vectors.

(** ** Loops *)

Section Loops.
Context {S : Type}.

Fixpoint for_up (n : nat) (i : Z) (body : Z -> S -> S) (s : S) : S :=
  match n with
  | O => s
  | Datatypes.S n' => for_up n' (i + 1) body (body i s)
  end.

(** [for (int i = lo; i <= hi; ++i) body] *)
Definition for_le (lo hi : Z) (body : Z -> S -> S) (s : S) : S :=
  for_up (Z.to_nat (hi - lo + 1)) lo body s.

(** [for (int i = lo; i < hi; ++i) body] *)
Definition for_lt (lo hi : Z) (body : Z -> S -> S) (s : S) : S :=
  for_up (Z.to_nat (hi - lo)) lo body s.

(** Modelled from the spec: [for_mt] of System/Threading/ThreadPool.h,
    which is not among the sources; a parallel-for that runs [body] for
    every index of [[lo, hi)] and joins.  The bodies of the blur passes
    write disjoint cells and read another buffer, so they are run here
    in index order. *)
Definition for_mt (lo hi : Z) (body : Z -> S -> S) (s : S) : S :=
  for_lt lo hi body s.
End Loops.

(** ** The mesh object, its queries and its edits *)

(** Modelled from the spec: the class declaration (SmoothHeightMesh.h)
    is not among the sources; the fields are the data members that the
    member functions of SmoothHeightMesh.cpp read and write. *)
Record SmoothHeightMesh := mkSmoothHeightMesh {
  maxx : Z;
  maxy : Z;
  fmaxx : Q;
  fmaxy : Q;
  resolution : Q;
  smoothRadius : Q;
  mesh : list Q;
  origMesh : list Q;
  colsMaxima : list Q;
  maximaRows : list Z
}.

Definition set_mesh (s : SmoothHeightMesh) (m : list Q) : SmoothHeightMesh :=
  mkSmoothHeightMesh (maxx s) (maxy s) (fmaxx s) (fmaxy s) (resolution s)
    (smoothRadius s) m (origMesh s) (colsMaxima s) (maximaRows s).

(** The object before [Init] (and after [Kill]): no storage. *)
Definition emptyMesh : SmoothHeightMesh :=
  mkSmoothHeightMesh 0 0 0 0 0 0 [] [] [] [].

Definition bind {A B : Type} (o : option A) (f : A -> option B) : option B :=
  match o with
  | Some a => f a
  | None => None
  end.

Notation "x <- e ;; k" := (bind e (fun x => k))
  (at level 61, e at next level, right associativity).

(** The clamped grid position of a query and the cell it falls in. *)
Definition gridPos (x : Q) (maxx : Z) (res : Q) : Q :=
  Clamp (x / res) 0 (of_int maxx - 1).

(** [Interpolate], lines 19-39.  [heightmap] is [&mesh[0]]: a read is
    in bounds when its index is below the size of [mesh]. *)
Definition Interpolate (x y : Q) (maxx maxy : Z) (res : Q)
    (heightmap : list Q) : option Q :=
  let x := Clamp (x / res) 0 (of_int maxx - 1) in
  let y := Clamp (y / res) 0 (of_int maxy - 1) in
  let sx := to_int x in
  let sy := to_int y in
  let dx := (x - of_int sx)%Q in
  let dy := (y - of_int sy)%Q in
  let sxp1 := Z.min (sx + 1) (maxx - 1) in
  let syp1 := Z.min (sy + 1) (maxy - 1) in
  h1 <- vread heightmap (sx + sy * maxx) ;;
  h2 <- vread heightmap (sxp1 + sy * maxx) ;;
  h3 <- vread heightmap (sx + syp1 * maxx) ;;
  h4 <- vread heightmap (sxp1 + syp1 * maxx) ;;
  let hi1 := mix h1 h2 dx in
  let hi2 := mix h3 h4 dx in
  Some (mix hi1 hi2 dy).

(** The four flat indices [Interpolate] reads. *)
Definition InterpolateReads (x y : Q) (maxx maxy : Z) (res : Q) : list Z :=
  let sx := to_int (gridPos x maxx res) in
  let sy := to_int (gridPos y maxy res) in
  let sxp1 := Z.min (sx + 1) (maxx - 1) in
  let syp1 := Z.min (sy + 1) (maxy - 1) in
  [sx + sy * maxx; sxp1 + sy * maxx; sx + syp1 * maxx; sxp1 + syp1 * maxx].

Definition isEmpty {A : Type} (v : list A) : bool :=
  match v with
  | [] => true
  | _ => false
  end.

(** [GetHeight], lines 61-65; on an object without storage
    [assert(!mesh.empty())] fails, and without the assertion the read
    through [&mesh[0]] is undefined. *)
Definition GetHeight (s : SmoothHeightMesh) (x y : Q) : option Q :=
  if isEmpty (mesh s) then None
  else Interpolate x y (maxx s) (maxy s) (resolution s) (mesh s).

(** [GetHeightAboveWater], lines 67-71. *)
Definition GetHeightAboveWater (s : SmoothHeightMesh) (x y : Q) : option Q :=
  if isEmpty (mesh s) then None
  else h <- Interpolate x y (maxx s) (maxy s) (resolution s) (mesh s) ;;
       Some (std_max 0 h).

(** [SetHeight], [AddHeight] and [SetMaxHeight], lines 75-88: each
    returns the new value of the cell and the updated object. *)
Definition SetHeight (s : SmoothHeightMesh) (index : Z) (h : Q)
    : option (Q * SmoothHeightMesh) :=
  _ <- vread (mesh s) index ;;
  let m := vset (mesh s) index h in
  Some (vget 0%Q m index, set_mesh s m).

Definition AddHeight (s : SmoothHeightMesh) (index : Z) (h : Q)
    : option (Q * SmoothHeightMesh) :=
  old <- vread (mesh s) index ;;
  let m := vset (mesh s) index (old + h)%Q in
  Some (vget 0%Q m index, set_mesh s m).

Definition SetMaxHeight (s : SmoothHeightMesh) (index : Z) (h : Q)
    : option (Q * SmoothHeightMesh) :=
  old <- vread (mesh s) index ;;
  let m := vset (mesh s) index (std_max h old) in
  Some (vget 0%Q m index, set_mesh s m).

(** [Kill], lines 53-57. *)
Definition Kill (s : SmoothHeightMesh) : SmoothHeightMesh :=
  mkSmoothHeightMesh (maxx s) (maxy s) (fmaxx s) (fmaxy s) (resolution s)
    (smoothRadius s) [] [] (colsMaxima s) (maximaRows s).

(** The point of the grid range nearest to a world coordinate. *)
Definition nearestInRange (x : Q) (maxx : Z) (res : Q) : Q :=
  Clamp x 0 ((of_int maxx - 1) * res).


(** The value [Interpolate] computes from a clamped grid position, by
    unchecked reads. *)
Definition interpolateAt (gx gy : Q) (maxx maxy : Z) (heightmap : list Q) : Q :=
  let sx := to_int gx in
  let sy := to_int gy in
  let dx := (gx - of_int sx)%Q in
  let dy := (gy - of_int sy)%Q in
  let sxp1 := Z.min (sx + 1) (maxx - 1) in
  let syp1 := Z.min (sy + 1) (maxy - 1) in
  mix (mix (vget 0%Q heightmap (sx + sy * maxx))
           (vget 0%Q heightmap (sxp1 + sy * maxx)) dx)
      (mix (vget 0%Q heightmap (sx + syp1 * maxx))
           (vget 0%Q heightmap (sxp1 + syp1 * maxx)) dx) dy.

(** ** Sample inputs *)

(** The Pade approximant of order (2, 2) of the exponential; positive
    everywhere. *)
Definition expfSample (q : Q) : Q :=
  ((1 + (1 # 2) * q + (1 # 12) * q * q)
   / (1 - (1 # 2) * q + (1 # 12) * q * q))%Q.

(** A terrain that is flat at height 0. *)
Definition flatField (x y : Q) : Q := 0%Q.

(** A terrain with a single spike of height 50 at the world point
    [(1, 1)]. *)
Definition spikeField (x y : Q) : Q :=
  if Qeq_bool x 1 && Qeq_bool y 1 then 50%Q else 0%Q.

(** A terrain with a single spike of height 50 at the world point
    [(2, 1)], the grid point of column [maxx] and row 1 when
    [maxx = 2] and the resolution is 1. *)
Definition edgeSpikeField (x y : Q) : Q :=
  if Qeq_bool x 2 && Qeq_bool y 1 then 50%Q else 0%Q.

(** A terrain that is flat at height 7. *)
Definition flatSeven (x y : Q) : Q := 7%Q.

(** The column buffers and the mesh as [MakeSmoothMesh] allocates them
    for [maxx = maxy = 2]. *)
Definition freshBuffers : list Q * list Z * list Q :=
  ([lowest; lowest; lowest], [-1; -1; -1], repeat 0%Q 9).

(** A built mesh of a world with [maxx = maxy = 2] and resolution 1,
    holding nine distinct values. *)
Definition sampleMesh : SmoothHeightMesh :=
  mkSmoothHeightMesh 2 2 1 1 1 1
    [10; 11; 12; 13; 14; 15; 16; 17; 18]%Q (repeat 0%Q 9) [] [].

(** An object without storage, configured for [maxx = maxy = 2],
    resolution 1 and radius 2. *)
Definition sampleConfig : SmoothHeightMesh :=
  mkSmoothHeightMesh 2 2 1 1 1 2 [] [] [] [].

(** ** The height source and the build passes *)

Section Build.
(** [CGround::GetHeightReal], [readMap->GetCurrMinHeight()] and
    [readMap->GetCurrMaxHeight()]: the external height source. *)
Variable GetHeightReal : Q -> Q -> Q.
Variable GetCurrMinHeight : Q.
Variable GetCurrMaxHeight : Q.
(** [math::expf], of System/SpringMath.h. *)
Variable expf : Q -> Q.

(** [FindMaximumColumnHeights], lines 92-114. *)
Definition FindMaximumColumnHeights (maxx maxy winSize : Z) (resolution : Q)
    (cm : list Q * list Z) : list Q * list Z :=
  for_le 0 (Z.min maxy winSize) (fun y =>
    for_le 0 maxx (fun x '(colsMaxima, maximaRows) =>
      let curx := (of_int x * resolution)%Q in
      let cury := (of_int y * resolution)%Q in
      let curh := GetHeightReal curx cury in
      if Qlt_le_dec (vget 0%Q colsMaxima x) curh
      then (vset colsMaxima x curh, vset maximaRows x y)
      else (colsMaxima, maximaRows))) cm.

(** [AdvanceMaximaRows], lines 116-138. *)
Definition AdvanceMaximaRows (y maxx : Z) (resolution : Q)
    (colsMaxima : list Q) (maximaRows : list Z) : list Z :=
  let cury := (of_int y * resolution)%Q in
  for_le 0 maxx (fun x maximaRows =>
    if vget 0 maximaRows x =? y - 1 then
      let curx := (of_int x * resolution)%Q in
      let curh := GetHeightReal curx cury in
      if Qeq_bool curh (vget 0%Q colsMaxima x)
      then vset maximaRows x y
      else maximaRows
    else maximaRows) maximaRows.

(** [FindRadialMaximum], lines 142-189. *)
Definition FindRadialMaximum (y maxx winSize : Z) (resolution : Q)
    (colsMaxima : list Q) (mesh : list Q) : list Q :=
  for_lt 0 maxx (fun x mesh =>
    let maxRowHeight := lowest in
    let startx := Z.max (x - winSize) 0 in
    let endx := Z.min (maxx - 1) (x + winSize) in
    let maxRowHeight :=
      for_le startx endx (fun i maxRowHeight =>
        std_max (vget 0%Q colsMaxima i) maxRowHeight) maxRowHeight in
    vset mesh (x + y * maxx) maxRowHeight) mesh.

(** [FixRemainingMaxima], lines 193-248. *)
Definition FixRemainingMaxima (y maxx maxy winSize : Z) (resolution : Q)
    (cm : list Q * list Z) : list Q * list Z :=
  let nextrow := y + winSize + 1 in
  let nextrowy := (of_int nextrow * resolution)%Q in
  for_le 0 maxx (fun x '(colsMaxima, maximaRows) =>
    let curx := (of_int x * resolution)%Q in
    if vget 0 maximaRows x <=? y - winSize then
      let colsMaxima := vset colsMaxima x lowest in
      for_le (Z.max 0 (y - winSize + 1)) (Z.min maxy nextrow)
        (fun y1 '(colsMaxima, maximaRows) =>
          let h := GetHeightReal curx (of_int y1 * resolution)%Q in
          if Qlt_le_dec (vget 0%Q colsMaxima x) h
          then (vset colsMaxima x h, vset maximaRows x y1)
          else if Qeq_bool (vget 0%Q colsMaxima x) h
          then (colsMaxima, vset maximaRows x y1)
          else (colsMaxima, maximaRows))
        (colsMaxima, maximaRows)
    else if nextrow <=? maxy then
      let h := GetHeightReal curx nextrowy in
      if Qlt_le_dec (vget 0%Q colsMaxima x) h
      then (vset colsMaxima x h, vset maximaRows x nextrow)
      else (colsMaxima, maximaRows)
    else (colsMaxima, maximaRows)) cm.

(** One iteration of the row loop of [MakeSmoothMesh], lines 410-418. *)
Definition rowStep (maxx maxy winSize : Z) (resolution : Q) (y : Z)
    (st : list Q * list Z * list Q) : list Q * list Z * list Q :=
  let '(colsMaxima, maximaRows, mesh) := st in
  let maximaRows := AdvanceMaximaRows y maxx resolution colsMaxima maximaRows in
  let mesh := FindRadialMaximum y maxx winSize resolution colsMaxima mesh in
  let '(colsMaxima, maximaRows) :=
    FixRemainingMaxima y maxx maxy winSize resolution (colsMaxima, maximaRows) in
  (colsMaxima, maximaRows, mesh).

(** The sliding-window pass of [MakeSmoothMesh], lines 408-418, up to
    and including row [ylast]: the bootstrap followed by the row loop.
    [MakeSmoothMesh] runs it with [ylast = maxy]. *)
Definition slidingWindowRows (maxx maxy winSize : Z) (resolution : Q)
    (ylast : Z) (st : list Q * list Z * list Q) : list Q * list Z * list Q :=
  let '(colsMaxima, maximaRows, mesh) := st in
  let '(colsMaxima, maximaRows) :=
    FindMaximumColumnHeights maxx maxy winSize resolution (colsMaxima, maximaRows) in
  for_le 0 ylast (rowStep maxx maxy winSize resolution)
    (colsMaxima, maximaRows, mesh).

(** [BlurHorizontal], lines 252-286. *)
Definition BlurHorizontal (maxx maxy blurSize : Z) (resolution : Q)
    (kernel mesh smoothed : list Q) : list Q :=
  let lineSize := maxx in
  for_mt 0 maxy (fun y =>
    for_lt 0 maxx (fun x smoothed =>
      let avg :=
        for_le (x - blurSize) (x + blurSize) (fun x1 avg =>
          (avg + vget 0 kernel (Z.abs (x1 - x))
                 * vget 0 mesh (Z.max 0 (Z.min (maxx - 1) x1) + y * lineSize))%Q)
          0%Q in
      let ghaw := GetHeightReal (of_int x * resolution)%Q (of_int y * resolution)%Q in
      let smoothed := vset smoothed (x + y * lineSize) (std_max ghaw avg) in
      vset smoothed (x + y * lineSize)
        (std_clamp (vget 0%Q smoothed (x + y * lineSize))
           GetCurrMinHeight GetCurrMaxHeight))) smoothed.

(** [BlurVertical], lines 288-322. *)
Definition BlurVertical (maxx maxy blurSize : Z) (resolution : Q)
    (kernel mesh smoothed : list Q) : list Q :=
  let lineSize := maxx in
  for_mt 0 maxx (fun x =>
    for_lt 0 maxy (fun y smoothed =>
      let avg :=
        for_le (y - blurSize) (y + blurSize) (fun y1 avg =>
          (avg + vget 0 kernel (Z.abs (y1 - y))
                 * vget 0 mesh (x + Z.max 0 (Z.min (maxy - 1) y1) * lineSize))%Q)
          0%Q in
      let ghaw := GetHeightReal (of_int x * resolution)%Q (of_int y * resolution)%Q in
      let smoothed := vset smoothed (x + y * lineSize) (std_max ghaw avg) in
      vset smoothed (x + y * lineSize)
        (std_clamp (vget 0%Q smoothed (x + y * lineSize))
           GetCurrMinHeight GetCurrMaxHeight))) smoothed.

(** The lambda [gaussianG] of [MakeSmoothMesh], lines 379-382;
    [0.3989422804f] is [1 / sqrt (2 pi)]. *)
Definition gaussianG (x : Z) (sigma : Q) : Q :=
  ((3989422804 # 10000000000)
   * expf (- (1 # 2) * of_int x * of_int x / (sigma * sigma)) / sigma)%Q.

(** The lambda [fillGaussianKernelFunc] of [MakeSmoothMesh], lines
    376-393; it returns the filled kernel. *)
Definition fillGaussianKernelFunc (blurSize : Z) (gaussianKernel : list Q)
    (sigma : Q) : option (list Q) :=
  gaussianKernel <- resize gaussianKernel (blurSize + 1) 0%Q ;;
  let g0 := gaussianG 0 sigma in
  let gaussianKernel := vset gaussianKernel 0 g0 in
  let sum := g0 in
  let '(gaussianKernel, sum) :=
    for_lt 1 (blurSize + 1) (fun i '(gaussianKernel, sum) =>
      let g := gaussianG i sigma in
      (vset gaussianKernel i g, (sum + 2 * g)%Q)) (gaussianKernel, sum) in
  Some (map (fun gk => (gk / sum)%Q) gaussianKernel).

(** [constexpr float gSigma = 5.0f]. *)
Definition gSigma : Q := 5.

(** [winSize] and [blurSize] of [MakeSmoothMesh], lines 372-373. *)
Definition winSizeOf (s : SmoothHeightMesh) : Z :=
  to_int (smoothRadius s / resolution s).

Definition blurSizeOf (s : SmoothHeightMesh) : Z :=
  Z.max 1 (Z.quot (winSizeOf s) 2).

(** The blur loop of [MakeSmoothMesh]: each round blurs [mesh] into
    [origMesh] and swaps the two, horizontally and then vertically. *)
Fixpoint blurPasses (numBlurs : nat) (maxx maxy blurSize : Z) (resolution : Q)
    (kernel : list Q) (bufs : list Q * list Q) : list Q * list Q :=
  match numBlurs with
  | O => bufs
  | S n =>
      let '(mesh, origMesh) := bufs in
      let origMesh := BlurHorizontal maxx maxy blurSize resolution kernel mesh origMesh in
      let '(mesh, origMesh) := (origMesh, mesh) in
      let origMesh := BlurVertical maxx maxy blurSize resolution kernel mesh origMesh in
      let '(mesh, origMesh) := (origMesh, mesh) in
      blurPasses n maxx maxy blurSize resolution kernel (mesh, origMesh)
  end.

(** [std::copy(src.begin(), src.end(), dst.begin())]. *)
Definition std_copy (src dst : list Q) : list Q :=
  src ++ skipn (length src) dst.

(** [MakeSmoothMesh], lines 353-428, with the number of blur rounds as
    a parameter.  [assert(mesh.empty())] of line 399 is compiled out
    like the other assertions: [resize] keeps what a mesh already
    holds. *)
Definition MakeSmoothMeshWith (blurPassesCount : nat) (s : SmoothHeightMesh)
    : option SmoothHeightMesh :=
  let winSize := winSizeOf s in
  let blurSize := blurSizeOf s in
  gaussianKernel <- fillGaussianKernelFunc blurSize [] gSigma ;;
  mesh <- resize (mesh s) ((maxx s + 1) * (maxy s + 1)) 0%Q ;;
  origMesh <- resize (origMesh s) ((maxx s + 1) * (maxy s + 1)) 0%Q ;;
  colsMaxima <- resize [] (maxx s + 1) lowest ;;
  maximaRows <- resize [] (maxx s + 1) (-1) ;;
  let '(colsMaxima, maximaRows, mesh) :=
    slidingWindowRows (maxx s) (maxy s) winSize (resolution s) (maxy s)
      (colsMaxima, maximaRows, mesh) in
  let '(mesh, origMesh) :=
    blurPasses blurPassesCount (maxx s) (maxy s) blurSize (resolution s)
      gaussianKernel (mesh, origMesh) in
  let origMesh := std_copy mesh origMesh in
  Some (mkSmoothHeightMesh (maxx s) (maxy s) (fmaxx s) (fmaxy s)
          (resolution s) (smoothRadius s) mesh origMesh colsMaxima maximaRows).

(** [constexpr int blurPassesCount = 2]. *)
Definition MakeSmoothMesh : SmoothHeightMesh -> option SmoothHeightMesh :=
  MakeSmoothMeshWith 2.

(** [Init], lines 42-51. *)
Definition Init (mx my res smoothRad : Q) (s : SmoothHeightMesh)
    : option SmoothHeightMesh :=
  MakeSmoothMesh
    (mkSmoothHeightMesh (to_int (mx / res + 1)) (to_int (my / res + 1)) mx my
       res (std_max 1 smoothRad)
       (mesh s) (origMesh s) (colsMaxima s) (maximaRows s)).

(** ** Reference notions for the sliding-window pass *)

(** The terrain height at grid point [(x, y)], as every pass samples it. *)
Definition gridHeight (resolution : Q) (x y : Z) : Q :=
  GetHeightReal (of_int x * resolution)%Q (of_int y * resolution)%Q.

(** Maximum of [f] over [[lo, hi]], seeded like the naive check of
    [FindRadialMaximum] with the lowest float. *)
Definition maxOver (lo hi : Z) (f : Z -> Q) : Q :=
  for_le lo hi (fun i m => Qmax m (f i)) lowest.

(** True maximum of column [x] over the rows [[ylo, yhi]]. *)
Definition trueColumnMax (resolution : Q) (x ylo yhi : Z) : Q :=
  maxOver ylo yhi (fun y1 => gridHeight resolution x y1).

(** True maximum over the rectangle [[xlo, xhi] x [ylo, yhi]], row by
    row as the naive check scans it. *)
Definition trueWindowMax (resolution : Q) (xlo xhi ylo yhi : Z) : Q :=
  maxOver ylo yhi (fun y1 =>
    maxOver xlo xhi (fun x1 => gridHeight resolution x1 y1)).

(** [c], recorded at row [r], is the maximum of column [x] over the
    rows [[lo, hi]]. *)
Definition ColInv (resolution : Q) (x lo hi : Z) (c : Q) (r : Z) : Prop :=
  lo <= r <= hi /\
  (c == gridHeight resolution x r)%Q /\
  (forall j, lo <= j <= hi -> (gridHeight resolution x j <= c)%Q) /\
  exists j, c = gridHeight resolution x j.

(** The state of column [x] after scanning the rows [[lo, k)]. *)
Definition ColPartial (resolution : Q) (x lo k : Z) (c : Q) (r : Z) : Prop :=
  (k <= lo /\ c = lowest) \/ (lo < k /\ ColInv resolution x lo (k - 1) c r).

(** The state of column [x] once row [y] has been processed: its window
    is [[y - winSize + 1, y + winSize + 1]] cut to the rows [[0, maxy]]. *)
Definition ColPost (resolution : Q) (maxy winSize x y : Z) (c : Q) (r : Z) : Prop :=
  let lo := Z.max 0 (y - winSize + 1) in
  let hi := Z.min maxy (y + winSize + 1) in
  (lo <= hi -> ColInv resolution x lo hi c r) /\ (hi < lo -> c = lowest).

Definition okCols (maxx : Z) (cm : list Q * list Z) : Prop :=
  vsize (fst cm) = maxx + 1 /\ vsize (snd cm) = maxx + 1.

(** The window of cell [(x, y)]: the columns [[x - winSize, x + winSize]]
    cut to [[0, maxx - 1]] and the rows [[y - winSize, y + winSize]] cut
    to [[0, maxy]]. *)
Definition cellWindowMax (maxx maxy winSize : Z) (resolution : Q) (x y : Z) : Q :=
  trueWindowMax resolution
    (Z.max 0 (x - winSize)) (Z.min (maxx - 1) (x + winSize))
    (Z.max 0 (y - winSize)) (Z.min maxy (y + winSize)).

(** The window of cell [(x, y)] as the specification words it, both
    ranges cut to the grid: the columns to [[0, maxx]] and the rows to
    [[0, maxy]]. *)
Definition specWindowMax (maxx maxy winSize : Z) (resolution : Q) (x y : Z) : Q :=
  trueWindowMax resolution
    (Z.max 0 (x - winSize)) (Z.min maxx (x + winSize))
    (Z.max 0 (y - winSize)) (Z.min maxy (y + winSize)).

(** The entry of column [x]: its running maximum and the row recorded
    for it. *)
Definition col (cm : list Q * list Z) (x : Z) : Q * Z :=
  (vget 0%Q (fst cm) x, vget 0 (snd cm) x).

(** The value stored for cell [(x, y)] by the sliding-window pass: the
    true maximum over the window of the cell, and one of the sampled
    heights. *)
Definition CellOk (maxx maxy winSize : Z) (resolution : Q) (x y : Z) (v : Q) : Prop :=
  (v == cellWindowMax maxx maxy winSize resolution x y)%Q /\
  exists i j, v = gridHeight resolution i j.

(** The state of the sliding-window pass when row [k] is about to be
    processed. *)
Definition SweepInv (maxx maxy winSize : Z) (resolution : Q) (k : Z)
    (st : list Q * list Z * list Q) : Prop :=
  let '(cm, mr, mesh) := st in
  okCols maxx (cm, mr) /\
  vsize mesh = (maxx + 1) * (maxy + 1) /\
  (forall x, 0 <= x <= maxx ->
     ColPost resolution maxy winSize x (k - 1) (vget 0%Q cm x) (vget 0 mr x)) /\
  (forall x y, 0 <= x < maxx -> 0 <= y < k ->
     CellOk maxx maxy winSize resolution x y (vget 0%Q mesh (x + y * maxx))).

(** The blurred average at cell [(x, y)]: the innermost loop of
    [BlurHorizontal] and of [BlurVertical]. *)
Definition blurAvgH (maxx blurSize : Z) (kernel mesh : list Q) (x y : Z) : Q :=
  for_le (x - blurSize) (x + blurSize) (fun x1 avg =>
    (avg + vget 0 kernel (Z.abs (x1 - x))
           * vget 0 mesh (Z.max 0 (Z.min (maxx - 1) x1) + y * maxx))%Q) 0%Q.

Definition blurAvgV (maxx maxy blurSize : Z) (kernel mesh : list Q) (x y : Z) : Q :=
  for_le (y - blurSize) (y + blurSize) (fun y1 avg =>
    (avg + vget 0 kernel (Z.abs (y1 - y))
           * vget 0 mesh (x + Z.max 0 (Z.min (maxy - 1) y1) * maxx))%Q) 0%Q.

(** The value a blur pass stores for cell [(x, y)], given the blurred
    average there. *)
Definition blurValue (resolution : Q) (avg : Q) (x y : Z) : Q :=
  std_clamp (std_max (gridHeight resolution x y) avg)
    GetCurrMinHeight GetCurrMaxHeight.

(** The sum [gaussianG 1 + ... + gaussianG n]. *)
Definition gaussSum (sigma : Q) (n : Z) : Q :=
  for_le 1 n (fun i acc => (acc + gaussianG i sigma)%Q) 0%Q.

(** The sum of the full symmetric kernel: tap 0 once and the taps
    [1 .. blurSize] twice each. *)
Definition kernelTotal (kernel : list Q) (blurSize : Z) : Q :=
  (vget 0 kernel 0
   + 2 * for_le 1 blurSize (fun i acc => (acc + vget 0 kernel i)%Q) 0)%Q.

(** [CheckInvariants], lines 326-349, called after every row in a
    [_DEBUG] build: [true] when every one of its assertions holds. *)
Definition CheckInvariants (y maxx maxy winSize : Z) (resolution : Q)
    (colsMaxima : list Q) (maximaRows : list Z) : bool :=
  (if y <? maxy then
     for_le 0 maxx (fun x ok =>
       ok && (y - winSize <? vget 0 maximaRows x)
          && (vget 0 maximaRows x <=? maxy)
          && Qle_bool (vget 0%Q colsMaxima x) GetCurrMaxHeight
          && Qle_bool GetCurrMinHeight (vget 0%Q colsMaxima x)) true
   else true)
  && for_le (Z.max 0 (y - winSize + 1)) (Z.min maxy (y + winSize + 1))
       (fun y1 =>
          for_le 0 maxx (fun x1 ok =>
            ok && Qle_bool
                    (GetHeightReal (of_int x1 * resolution)%Q
                       (of_int y1 * resolution)%Q)
                    (vget 0%Q colsMaxima x1))) true.

(** The two conditions [FixRemainingMaxima] asserts for a column once
    it has repaired it, lines 239-240. *)
Definition rowWithinNextWindow (y winSize : Z) (maximaRows : list Z) (x : Z) : bool :=
  (vget 0 maximaRows x <=? y + winSize + 1)
  && (y - winSize + 1 <=? vget 0 maximaRows x).

(** ** Vectors and loops: basic facts *)

Lemma upd_length {A} (v : list A) n a : length (upd v n a) = length v.
Proof.
  revert n; induction v as [|h t IH]; intros [|n]; simpl; auto.
Qed.

Lemma nth_upd_same {A} (v : list A) n a d :
  (n < length v)%nat -> nth n (upd v n a) d = a.
Proof.
  revert n; induction v as [|h t IH]; intros [|n] H; simpl in *; try lia; auto.
  apply IH; lia.
Qed.

Lemma nth_upd_other {A} (v : list A) n m a d :
  n <> m -> nth m (upd v n a) d = nth m v d.
Proof.
  revert n m; induction v as [|h t IH]; intros [|n] [|m] H; simpl; auto; try lia.
Qed.

Lemma vsize_vset {A} (v : list A) i a : vsize (vset v i a) = vsize v.
Proof.
  unfold vsize, vset. destruct (i <? 0); auto. now rewrite upd_length.
Qed.

Lemma vget_vset_same {A} (d : A) v i a :
  0 <= i < vsize v -> vget d (vset v i a) i = a.
Proof.
  unfold vget, vset, vsize. intros H.
  destruct (Z.ltb_spec i 0); [lia|]. apply nth_upd_same. lia.
Qed.

Lemma vget_vset_other {A} (d : A) v i j a :
  i <> j -> vget d (vset v i a) j = vget d v j.
Proof.
  unfold vget, vset. intros H.
  destruct (Z.ltb_spec j 0); auto.
  destruct (Z.ltb_spec i 0); auto.
  apply nth_upd_other. lia.
Qed.

Lemma vread_vget {A} (d : A) v i :
  0 <= i < vsize v -> vread v i = Some (vget d v i).
Proof.
  unfold vread, vget, vsize. intros H.
  destruct (Z.ltb_spec i 0); [lia|].
  apply nth_error_nth'. lia.
Qed.

Lemma vsize_resize {A} (v w : list A) n a :
  resize v n a = Some w -> vsize w = n.
Proof.
  unfold resize, vsize. destruct (Z.ltb_spec n 0); [discriminate|].
  intros [= <-]. rewrite length_app, length_firstn, repeat_length. lia.
Qed.

Lemma vget_resize_nil {A} (d a : A) n w i :
  resize [] n a = Some w -> 0 <= i < n -> vget d w i = a.
Proof.
  unfold resize, vget. destruct (Z.ltb_spec n 0); [discriminate|].
  intros [= <-] Hi. destruct (Z.ltb_spec i 0); [lia|].
  rewrite firstn_nil. simpl. apply nth_repeat_lt. lia.
Qed.

(** Invariant rule for the counted loop. *)
Lemma for_up_inv {S} (P : Z -> S -> Prop) (body : Z -> S -> S) n :
  forall lo s,
    P lo s ->
    (forall i t, lo <= i < lo + Z.of_nat n -> P i t -> P (i + 1) (body i t)) ->
    P (lo + Z.of_nat n) (for_up n lo body s).
Proof.
  induction n as [|n IH]; intros lo s H0 Hstep.
  - simpl. now rewrite Z.add_0_r.
  - cbn [for_up].
    replace (lo + Z.of_nat (Datatypes.S n)) with ((lo + 1) + Z.of_nat n) by lia.
    apply IH.
    + apply Hstep; [lia | exact H0].
    + intros i t Hi. apply Hstep. lia.
Qed.

Lemma for_le_inv {S} (P : Z -> S -> Prop) (body : Z -> S -> S) lo hi s :
  lo <= hi + 1 ->
  P lo s ->
  (forall i t, lo <= i <= hi -> P i t -> P (i + 1) (body i t)) ->
  P (hi + 1) (for_le lo hi body s).
Proof.
  intros Hle H0 Hstep. unfold for_le.
  pose proof (for_up_inv P body (Z.to_nat (hi - lo + 1)) lo s H0) as X.
  replace (lo + Z.of_nat (Z.to_nat (hi - lo + 1))) with (hi + 1) in X by lia.
  apply X. intros i t Hi. apply Hstep. lia.
Qed.

Lemma for_lt_inv {S} (P : Z -> S -> Prop) (body : Z -> S -> S) lo hi s :
  lo <= hi ->
  P lo s ->
  (forall i t, lo <= i < hi -> P i t -> P (i + 1) (body i t)) ->
  P hi (for_lt lo hi body s).
Proof.
  intros Hle H0 Hstep. unfold for_lt.
  pose proof (for_up_inv P body (Z.to_nat (hi - lo)) lo s H0) as X.
  replace (lo + Z.of_nat (Z.to_nat (hi - lo))) with hi in X by lia.
  apply X. intros i t Hi. apply Hstep. lia.
Qed.

Lemma for_le_empty {S} (body : Z -> S -> S) lo hi s :
  hi < lo -> for_le lo hi body s = s.
Proof.
  intros H. unfold for_le. now replace (Z.to_nat (hi - lo + 1)) with O by lia.
Qed.

Lemma for_up_snoc {S} (body : Z -> S -> S) n :
  forall lo s,
    for_up (Datatypes.S n) lo body s
    = body (lo + Z.of_nat n) (for_up n lo body s).
Proof.
  induction n as [|n IH]; intros lo s.
  - simpl. now rewrite Z.add_0_r.
  - cbn [for_up] in *. rewrite IH. f_equal. lia.
Qed.

Lemma for_le_snoc {S} (body : Z -> S -> S) lo hi s :
  lo <= hi -> for_le lo hi body s = body hi (for_le lo (hi - 1) body s).
Proof.
  intros H. unfold for_le.
  replace (Z.to_nat (hi - lo + 1)) with (Datatypes.S (Z.to_nat (hi - 1 - lo + 1))) by lia.
  rewrite for_up_snoc. f_equal. lia.
Qed.

(** ** Comparisons *)

Lemma std_max_spec a b : (std_max a b == Qmax a b)%Q.
Proof.
  unfold std_max. destruct (Qlt_le_dec a b) as [H|H].
  - symmetry. apply Q.max_r. lra.
  - symmetry. apply Q.max_l. exact H.
Qed.

Lemma std_max_ge_l a b : (a <= std_max a b)%Q.
Proof. unfold std_max. destruct (Qlt_le_dec a b); lra. Qed.

Lemma std_max_ge_r a b : (b <= std_max a b)%Q.
Proof. unfold std_max. destruct (Qlt_le_dec a b); lra. Qed.

Lemma std_max_cases a b : std_max a b = a \/ std_max a b = b.
Proof. unfold std_max. destruct (Qlt_le_dec a b); auto. Qed.

Lemma std_clamp_range v lo hi :
  (lo <= hi)%Q -> (lo <= std_clamp v lo hi <= hi)%Q.
Proof.
  intros H. unfold std_clamp.
  destruct (Qlt_le_dec v lo); [lra|]. destruct (Qlt_le_dec hi v); lra.
Qed.

Lemma std_clamp_ge v lo hi g :
  (g <= v)%Q -> (g <= hi)%Q -> (g <= std_clamp v lo hi)%Q.
Proof.
  intros H1 H2. unfold std_clamp.
  destruct (Qlt_le_dec v lo); [lra|]. destruct (Qlt_le_dec hi v); lra.
Qed.

(** ** The reference maximum *)

Lemma maxOver_inv (f : Z -> Q) lo hi :
  (lowest <= maxOver lo hi f)%Q /\
  (forall i, lo <= i <= hi -> (f i <= maxOver lo hi f)%Q) /\
  (forall c, (lowest <= c)%Q -> (forall i, lo <= i <= hi -> (f i <= c)%Q) ->
             (maxOver lo hi f <= c)%Q).
Proof.
  destruct (Z_lt_le_dec hi lo) as [He|Hne].
  - unfold maxOver. rewrite for_le_empty by lia.
    repeat split; intros; try lra; try lia.
  - unfold maxOver.
    pose (P := fun (k : Z) (m : Q) =>
      (lowest <= m)%Q /\
      (forall i, lo <= i < k -> (f i <= m)%Q) /\
      (forall c, (lowest <= c)%Q -> (forall i, lo <= i <= hi -> (f i <= c)%Q) ->
                 (m <= c)%Q)).
    assert (HP : P (hi + 1) (for_le lo hi (fun i m => Qmax m (f i)) lowest)).
    { apply for_le_inv; [lia| |].
      - unfold P. repeat split; intros; try lra; try lia.
      - intros i m Hi (H1 & H2 & H3). unfold P. repeat split.
        + pose proof (Q.le_max_l m (f i)). lra.
        + intros j Hj. destruct (Z.eq_dec j i) as [->|Hji].
          * apply Q.le_max_r.
          * pose proof (Q.le_max_l m (f i)).
            assert (f j <= m)%Q by (apply H2; lia). lra.
        + intros c Hc Hall. apply Q.max_lub; auto. }
    destruct HP as (H1 & H2 & H3). repeat split; auto.
    intros i Hi. apply H2. lia.
Qed.

Lemma maxOver_ub (f : Z -> Q) lo hi i :
  lo <= i <= hi -> (f i <= maxOver lo hi f)%Q.
Proof. intros H. now apply maxOver_inv. Qed.

Lemma maxOver_lub (f : Z -> Q) lo hi c :
  (lowest <= c)%Q -> (forall i, lo <= i <= hi -> (f i <= c)%Q) ->
  (maxOver lo hi f <= c)%Q.
Proof. intros H1 H2. now apply maxOver_inv. Qed.

(** A value that bounds [f] on the range and is attained there is the
    reference maximum. *)
Lemma maxOver_unique (f : Z -> Q) lo hi c :
  (lowest <= c)%Q ->
  (forall i, lo <= i <= hi -> (f i <= c)%Q) ->
  (exists i, lo <= i <= hi /\ (c == f i)%Q) ->
  (c == maxOver lo hi f)%Q.
Proof.
  intros Hc Hub (i & Hi & Hci).
  apply Qle_antisym.
  - rewrite Hci. now apply maxOver_ub.
  - now apply maxOver_lub.
Qed.

(** The reference maximum of a non-empty range is attained in it. *)
Lemma maxOver_attained (f : Z -> Q) lo hi :
  lo <= hi -> (forall i, lo <= i <= hi -> (lowest < f i)%Q) ->
  exists i, lo <= i <= hi /\ (maxOver lo hi f == f i)%Q.
Proof.
  intros Hne Hlow. unfold maxOver.
  pose (P := fun (k : Z) (m : Q) =>
    (k = lo /\ m = lowest) \/ (exists i, lo <= i < k /\ (m == f i)%Q)).
  assert (HP : P (hi + 1) (for_le lo hi (fun i m => Qmax m (f i)) lowest)).
  { apply for_le_inv; [lia| |].
    - left. auto.
    - intros i m Hi [[-> ->]|(j & Hj & Hm)]; right.
      + exists lo. split; [lia|]. apply Q.max_r.
        assert (lowest < f lo)%Q by (apply Hlow; lia). lra.
      + destruct (Qlt_le_dec m (f i)) as [Hlt|Hge].
        * exists i. split; [lia|]. apply Q.max_r. lra.
        * exists j. split; [lia|]. rewrite <- Hm. now apply Q.max_l. }
  destruct HP as [[? _]|(i & Hi & Hm)]; [lia|].
  exists i. split; [lia|exact Hm].
Qed.

Lemma for_lt_le {S} (body : Z -> S -> S) lo hi s :
  for_lt lo hi body s = for_le lo (hi - 1) body s.
Proof.
  unfold for_lt, for_le. f_equal. lia.
Qed.

(** A loop over the columns whose body touches only its own column. *)
Lemma cols_loop {S C} (proj : S -> Z -> C) (ok : S -> Prop)
    (Rel : Z -> C -> C -> Prop) (body : Z -> S -> S) n :
  (forall i s, 0 <= i <= n -> ok s ->
     ok (body i s) /\
     (forall j, j <> i -> proj (body i s) j = proj s j) /\
     Rel i (proj s i) (proj (body i s) i)) ->
  forall s, ok s ->
    ok (for_le 0 n body s) /\
    (forall x, 0 <= x <= n -> Rel x (proj s x) (proj (for_le 0 n body s) x)) /\
    (forall x, ~ 0 <= x <= n -> proj (for_le 0 n body s) x = proj s x).
Proof.
  intros Hbody s Hok.
  destruct (Z_lt_le_dec n 0) as [Hneg|Hpos].
  - rewrite for_le_empty by lia. repeat split; auto. intros; lia.
  - pose (P := fun (k : Z) (t : S) =>
      ok t /\
      (forall x, 0 <= x < k -> Rel x (proj s x) (proj t x)) /\
      (forall x, ~ 0 <= x < k -> proj t x = proj s x)).
    assert (HP : P (n + 1) (for_le 0 n body s)).
    { apply for_le_inv; [lia| |].
      - unfold P. repeat split; auto. intros; lia.
      - intros i t Hi (Hokt & Hin & Hout).
        destruct (Hbody i t Hi Hokt) as (Hok' & Hfr & Hrel).
        unfold P. repeat split; auto.
        + intros x Hx. destruct (Z.eq_dec x i) as [->|Hxi].
          * rewrite <- (Hout i) by lia. exact Hrel.
          * rewrite Hfr by auto. apply Hin. lia.
        + intros x Hx. rewrite Hfr by lia. apply Hout. lia. }
    destruct HP as (H1 & H2 & H3). repeat split; auto.
    + intros x Hx. apply H2. lia.
    + intros x Hx. apply H3. lia.
Qed.

Lemma col_vset_same cm mr x c r maxx :
  okCols maxx (cm, mr) -> 0 <= x <= maxx ->
  col (vset cm x c, vset mr x r) x = (c, r).
Proof.
  intros [H1 H2] Hx. unfold col. simpl in *.
  rewrite !vget_vset_same by lia. reflexivity.
Qed.

Lemma col_vset_other cm mr x j c r :
  j <> x -> col (vset cm x c, vset mr x r) j = col (cm, mr) j.
Proof.
  intros Hj. unfold col. simpl.
  rewrite !vget_vset_other by auto. reflexivity.
Qed.

Lemma okCols_vset cm mr x y c r maxx :
  okCols maxx (cm, mr) -> okCols maxx (vset cm x c, vset mr y r).
Proof.
  intros [H1 H2]. split; simpl in *; now rewrite vsize_vset.
Qed.

Lemma okCols_vset_l cm mr x c maxx :
  okCols maxx (cm, mr) -> okCols maxx (vset cm x c, mr).
Proof.
  intros [H1 H2]. split; simpl in *; auto. now rewrite vsize_vset.
Qed.

Lemma okCols_vset_r cm mr x r maxx :
  okCols maxx (cm, mr) -> okCols maxx (cm, vset mr x r).
Proof.
  intros [H1 H2]. split; simpl in *; auto. now rewrite vsize_vset.
Qed.

Section SlidingWindow.
Variables (maxx maxy winSize : Z) (resolution : Q).
Hypothesis Hmaxx : 0 <= maxx.
Hypothesis Hmaxy : 0 <= maxy.
Hypothesis Hwin : 0 <= winSize.
Hypothesis Hlow : forall x y, 0 <= x <= maxx -> 0 <= y <= maxy ->
  (lowest < gridHeight resolution x y)%Q.

Local Abbreviation gh := (gridHeight resolution).

Lemma ColInv_weaken x lo hi lo' hi' c r :
  ColInv resolution x lo hi c r ->
  lo <= lo' -> hi' <= hi -> lo' <= r <= hi' ->
  ColInv resolution x lo' hi' c r.
Proof.
  intros (Hr & Hc & Hub & Hsel) H1 H2 H3. repeat split; auto; try lia.
  intros j Hj. apply Hub. lia.
Qed.

Lemma scan_take x lo k c r :
  ColPartial resolution x lo k c r -> lo <= k -> (c < gh x k)%Q ->
  ColPartial resolution x lo (k + 1) (gh x k) k.
Proof.
  intros HP Hk Hlt. right. split; [lia|].
  replace (k + 1 - 1) with k by lia.
  repeat split; try lia; try reflexivity.
  - intros j Hj. destruct (Z.eq_dec j k) as [->|Hjk]; [lra|].
    destruct HP as [[Hle _]|[_ (_ & _ & Hub & _)]]; [lia|].
    assert (gh x j <= c)%Q by (apply Hub; lia). lra.
  - now exists k.
Qed.

Lemma scan_keep x lo k c r :
  0 <= x <= maxx -> 0 <= k <= maxy ->
  ColPartial resolution x lo k c r -> lo <= k -> (gh x k <= c)%Q ->
  ColPartial resolution x lo (k + 1) c r.
Proof.
  intros Hx Hk0 HP Hk Hle. right. split; [lia|].
  replace (k + 1 - 1) with k by lia.
  destruct HP as [[Hkl ->]|[Hlt (Hr & Hc & Hub & Hsel)]].
  - pose proof (Hlow x k Hx Hk0). lra.
  - repeat split; auto; try lia.
    intros j Hj. destruct (Z.eq_dec j k) as [->|Hjk]; [exact Hle|].
    apply Hub. lia.
Qed.

Lemma scan_tie x lo k c r :
  0 <= x <= maxx -> 0 <= k <= maxy ->
  ColPartial resolution x lo k c r -> lo <= k -> (c == gh x k)%Q ->
  ColPartial resolution x lo (k + 1) c k.
Proof.
  intros Hx Hk0 HP Hk Heq.
  assert (HP' : ColPartial resolution x lo (k + 1) c r).
  { apply scan_keep; auto. lra. }
  destruct HP' as [[Hkl _]|[Hlt (Hr & Hc & Hub & Hsel)]]; [lia|].
  right. split; [lia|]. repeat split; auto; lia.
Qed.

(** *** Bootstrap *)

Lemma boot_row_spec y t :
  0 <= y <= maxy ->
  okCols maxx t ->
  (forall x, 0 <= x <= maxx ->
     ColPartial resolution x 0 y (fst (col t x)) (snd (col t x))) ->
  let t' :=
    for_le 0 maxx (fun x '(colsMaxima, maximaRows) =>
      let curx := (of_int x * resolution)%Q in
      let cury := (of_int y * resolution)%Q in
      let curh := GetHeightReal curx cury in
      if Qlt_le_dec (vget 0%Q colsMaxima x) curh
      then (vset colsMaxima x curh, vset maximaRows x y)
      else (colsMaxima, maximaRows)) t in
  okCols maxx t' /\
  forall x, 0 <= x <= maxx ->
    ColPartial resolution x 0 (y + 1) (fst (col t' x)) (snd (col t' x)).
Proof.
  intros Hy Hok Hcols t'.
  pose proof (cols_loop col (okCols maxx)
    (fun x p p' =>
       ColPartial resolution x 0 y (fst p) (snd p) ->
       ColPartial resolution x 0 (y + 1) (fst p') (snd p'))
    (fun x '(colsMaxima, maximaRows) =>
      let curx := (of_int x * resolution)%Q in
      let cury := (of_int y * resolution)%Q in
      let curh := GetHeightReal curx cury in
      if Qlt_le_dec (vget 0%Q colsMaxima x) curh
      then (vset colsMaxima x curh, vset maximaRows x y)
      else (colsMaxima, maximaRows)) maxx) as HL.
  fold t' in HL. destruct (HL) with (s := t) as (H1 & H2 & _).
  - intros i [cm mr] Hi Hokt. cbv zeta.
    change (GetHeightReal (of_int i * resolution) (of_int y * resolution))
      with (gh i y).
    destruct (Qlt_le_dec (vget 0%Q cm i) (gh i y)) as [Hlt|Hge].
    + split; [now apply okCols_vset|]. split.
      * intros j Hj. now apply col_vset_other.
      * rewrite (col_vset_same _ _ _ _ _ maxx) by auto. simpl.
        intros HP. eapply scan_take; eauto. lia.
    + split; [auto|]. split; [auto|]. simpl.
      intros HP. eapply scan_keep; eauto. lia.
  - exact Hok.
  - split; [exact H1|]. intros x Hx. apply H2; auto.
Qed.

Lemma FindMaximumColumnHeights_spec cm :
  okCols maxx cm ->
  (forall x, 0 <= x <= maxx -> fst (col cm x) = lowest) ->
  let cm' := FindMaximumColumnHeights maxx maxy winSize resolution cm in
  okCols maxx cm' /\
  forall x, 0 <= x <= maxx ->
    ColInv resolution x 0 (Z.min maxy winSize)
      (fst (col cm' x)) (snd (col cm' x)).
Proof.
  intros Hok Hinit cm'.
  pose (P := fun (k : Z) (t : list Q * list Z) =>
    okCols maxx t /\
    forall x, 0 <= x <= maxx ->
      ColPartial resolution x 0 k (fst (col t x)) (snd (col t x))).
  assert (HP : P (Z.min maxy winSize + 1) cm').
  { unfold cm', FindMaximumColumnHeights. apply for_le_inv; [lia| |].
    - split; auto. intros x Hx. left. split; [lia|auto].
    - intros y t Hy [Hokt Hcols]. apply boot_row_spec; auto. lia. }
  destruct HP as [H1 H2]. split; auto.
  intros x Hx. destruct (H2 x Hx) as [[Hk _]|[_ HI]]; [lia|].
  now replace (Z.min maxy winSize + 1 - 1) with (Z.min maxy winSize) in HI by lia.
Qed.

(** *** Advancing the recorded rows *)

Lemma AdvanceMaximaRows_spec y lo hi cm mr :
  lo <= y <= hi ->
  vsize mr = maxx + 1 ->
  (forall x, 0 <= x <= maxx ->
     ColInv resolution x lo hi (vget 0%Q cm x) (vget 0 mr x)) ->
  let mr' := AdvanceMaximaRows y maxx resolution cm mr in
  vsize mr' = maxx + 1 /\
  forall x, 0 <= x <= maxx ->
    ColInv resolution x lo hi (vget 0%Q cm x) (vget 0 mr' x).
Proof.
  intros Hy Hsz Hcols mr'.
  set (b := fun (x : Z) (maximaRows : list Z) =>
      if vget 0 maximaRows x =? y - 1 then
        let curx := (of_int x * resolution)%Q in
        let curh := GetHeightReal curx (of_int y * resolution)%Q in
        if Qeq_bool curh (vget 0%Q cm x)
        then vset maximaRows x y
        else maximaRows
      else maximaRows).
  assert (Hmr' : mr' = for_le 0 maxx b mr) by reflexivity.
  pose proof (cols_loop (fun (m : list Z) x => vget 0 m x)
    (fun m => vsize m = maxx + 1)
    (fun x r r' => r' = r \/ (r' = y /\ (gh x y == vget 0%Q cm x)%Q))
    b maxx) as HL.
  destruct HL with (s := mr) as (H1 & H2 & _).
  - intros i m Hi Hm. unfold b. cbv zeta.
    change (GetHeightReal (of_int i * resolution) (of_int y * resolution))
      with (gh i y).
    destruct (vget 0 m i =? y - 1); [|auto].
    destruct (Qeq_bool (gh i y) (vget 0%Q cm i)) eqn:He; [|auto].
    apply Qeq_bool_iff in He.
    split; [now rewrite vsize_vset|]. split.
    + intros j Hj. now apply vget_vset_other.
    + right. rewrite vget_vset_same by lia. auto.
  - exact Hsz.
  - rewrite Hmr'. split; [exact H1|]. intros x Hx.
    specialize (Hcols x Hx). destruct (H2 x Hx) as [E|[E Hq]].
    + now rewrite E.
    + rewrite E.
      destruct Hcols as (Hr & Hc & Hub & Hsel).
      repeat split; auto; try lia. now symmetry.
Qed.

(** *** Repairing the column maxima *)

Lemma rescan_spec x lo hi s :
  0 <= x <= maxx -> 0 <= lo -> hi <= maxy -> lo <= hi ->
  okCols maxx s -> fst (col s x) = lowest ->
  let s' :=
    for_le lo hi (fun y1 '(colsMaxima, maximaRows) =>
      let h := GetHeightReal (of_int x * resolution)%Q (of_int y1 * resolution)%Q in
      if Qlt_le_dec (vget 0%Q colsMaxima x) h
      then (vset colsMaxima x h, vset maximaRows x y1)
      else if Qeq_bool (vget 0%Q colsMaxima x) h
      then (colsMaxima, vset maximaRows x y1)
      else (colsMaxima, maximaRows)) s in
  okCols maxx s' /\
  (forall j, j <> x -> col s' j = col s j) /\
  ColInv resolution x lo hi (fst (col s' x)) (snd (col s' x)).
Proof.
  intros Hx Hlo Hhi Hne Hok Hinit s'.
  pose (P := fun (k : Z) (t : list Q * list Z) =>
    okCols maxx t /\
    (forall j, j <> x -> col t j = col s j) /\
    ColPartial resolution x lo k (fst (col t x)) (snd (col t x))).
  assert (HP : P (hi + 1) s').
  { unfold s'. apply for_le_inv; [lia| |].
    - split; auto. split; auto. left. split; [lia|auto].
    - intros y1 [cm mr] Hy1 (Hokt & Hfr & Hpart). cbv zeta.
      change (GetHeightReal (of_int x * resolution) (of_int y1 * resolution))
        with (gh x y1).
      unfold P.
      destruct (Qlt_le_dec (vget 0%Q cm x) (gh x y1)) as [Hlt|Hge].
      + split; [now apply okCols_vset|]. split.
        * intros j Hj. rewrite col_vset_other by auto. now apply Hfr.
        * rewrite (col_vset_same _ _ _ _ _ maxx) by auto. simpl.
          eapply scan_take; eauto. lia.
      + destruct (Qeq_bool (vget 0%Q cm x) (gh x y1)) eqn:He.
        * apply Qeq_bool_iff in He.
          split; [now apply okCols_vset_r|]. split.
          -- intros j Hj. rewrite <- Hfr by auto. unfold col. simpl.
             now rewrite vget_vset_other by auto.
          -- unfold col. simpl. destruct Hokt as [_ Hmr]. simpl in Hmr.
             rewrite vget_vset_same by lia.
             eapply scan_tie; eauto; lia.
        * split; [auto|]. split; [auto|].
          eapply scan_keep; eauto; lia. }
  destruct HP as (H1 & H2 & [[Hk _]|[_ HI]]); [lia|].
  replace (hi + 1 - 1) with hi in HI by lia. auto.
Qed.

Lemma FixRemainingMaxima_spec y cm :
  0 <= y <= maxy ->
  okCols maxx cm ->
  (forall x, 0 <= x <= maxx ->
     ColInv resolution x (Z.max 0 (y - winSize)) (Z.min maxy (y + winSize))
       (fst (col cm x)) (snd (col cm x))) ->
  let cm' := FixRemainingMaxima y maxx maxy winSize resolution cm in
  okCols maxx cm' /\
  forall x, 0 <= x <= maxx ->
    ColPost resolution maxy winSize x y (fst (col cm' x)) (snd (col cm' x)).
Proof.
  intros Hy Hok Hcols cm'.
  pose proof (cols_loop col (okCols maxx)
    (fun x p p' =>
       ColInv resolution x (Z.max 0 (y - winSize)) (Z.min maxy (y + winSize))
         (fst p) (snd p) ->
       ColPost resolution maxy winSize x y (fst p') (snd p'))) as HL.
  unfold cm', FixRemainingMaxima. cbv zeta.
  match goal with
  | |- context [for_le 0 maxx ?b cm] =>
      destruct (HL b maxx) with (s := cm) as (H1 & H2 & _)
  end.
  - clear HL. intros x [c m] Hx Hokt.
    destruct (Z.leb_spec (vget 0 m x) (y - winSize)) as [Hold|Hin].
    + (* the recorded maximum left the window: rescan *)
      destruct (Z_lt_le_dec (Z.min maxy (y + winSize + 1))
                  (Z.max 0 (y - winSize + 1))) as [Hempty|Hne].
      * rewrite for_le_empty by exact Hempty.
        split; [now apply okCols_vset_l|]. split.
        -- intros j Hj. unfold col. simpl. now rewrite vget_vset_other by auto.
        -- intros _. unfold ColPost, col. simpl. split; [lia|].
           intros _. destruct Hokt as [Hc _]. simpl in Hc.
           now rewrite vget_vset_same by lia.
      * destruct (rescan_spec x (Z.max 0 (y - winSize + 1))
                    (Z.min maxy (y + winSize + 1)) (vset c x lowest, m))
          as (R1 & R2 & R3); auto; try lia.
        -- now apply okCols_vset_l.
        -- unfold col. simpl. destruct Hokt as [Hc _]. simpl in Hc.
           now rewrite vget_vset_same by lia.
        -- split; [exact R1|]. split.
           ++ intros j Hj. rewrite R2 by auto. unfold col. simpl.
              now rewrite vget_vset_other by auto.
           ++ intros _. unfold ColPost. split; [auto|lia].
    + (* the recorded maximum is still inside *)
      destruct (Z.leb_spec (y + winSize + 1) maxy) as [Hnext|Hlast].
      * change (GetHeightReal (of_int x * resolution)
                  (of_int (y + winSize + 1) * resolution))
          with (gh x (y + winSize + 1)).
        destruct (Qlt_le_dec (vget 0%Q c x) (gh x (y + winSize + 1))) as [Hlt|Hge].
        -- split; [now apply okCols_vset|]. split.
           ++ intros j Hj. now apply col_vset_other.
           ++ rewrite (col_vset_same _ _ _ _ _ maxx) by auto.
              unfold col. simpl. intros (Hr & Hc & Hub & Hsel).
              unfold ColPost. split; [|lia]. intros _.
              repeat split; try lia; try reflexivity.
              ** intros j Hj.
                 destruct (Z.eq_dec j (y + winSize + 1)) as [->|Hj']; [lra|].
                 assert (gh x j <= vget 0%Q c x)%Q by (apply Hub; lia). lra.
              ** now exists (y + winSize + 1).
        -- split; [auto|]. split; [auto|].
           unfold col. simpl. intros (Hr & Hc & Hub & Hsel).
           unfold ColPost. split; [|lia]. intros _.
           repeat split; auto; try lia.
           intros j Hj.
           destruct (Z.eq_dec j (y + winSize + 1)) as [->|Hj']; [exact Hge|].
           apply Hub. lia.
      * split; [auto|]. split; [auto|].
        unfold col. simpl. intros HI. unfold ColPost.
        destruct HI as (Hr & Hc & Hub & Hsel).
        split; [|lia]. intros _. repeat split; auto; try lia.
        intros j Hj. apply Hub. lia.
  - exact Hok.
  - split; [exact H1|]. intros x Hx. apply H2; auto.
Qed.

(** *** The maximum along a row *)

Lemma radial_fold (cm : list Q) lo hi :
  lo <= hi ->
  let v := for_le lo hi (fun i m => std_max (vget 0%Q cm i) m) lowest in
  (forall i, lo <= i <= hi -> (vget 0%Q cm i <= v)%Q) /\
  (v = lowest \/ exists i, lo <= i <= hi /\ v = vget 0%Q cm i).
Proof.
  intros Hne v.
  pose (P := fun (k : Z) (m : Q) =>
    (forall i, lo <= i < k -> (vget 0%Q cm i <= m)%Q) /\
    (m = lowest \/ exists i, lo <= i < k /\ m = vget 0%Q cm i)).
  assert (HP : P (hi + 1) v).
  { unfold v. apply for_le_inv; [lia| |].
    - split; [intros; lia|now left].
    - intros i m Hi [Hub Hsel]. split.
      + intros j Hj. destruct (Z.eq_dec j i) as [->|Hji].
        * apply std_max_ge_l.
        * pose proof (std_max_ge_r (vget 0%Q cm i) m).
          assert (vget 0%Q cm j <= m)%Q by (apply Hub; lia). lra.
      + destruct (std_max_cases (vget 0%Q cm i) m) as [E|E]; rewrite E.
        * right. exists i. split; [lia|reflexivity].
        * destruct Hsel as [->|(j & Hj & ->)]; [now left|].
          right. exists j. split; [lia|reflexivity]. }
  destruct HP as [H1 H2]. split.
  - intros i Hi. apply H1. lia.
  - destruct H2 as [->|(i & Hi & E)]; [now left|].
    right. exists i. split; [lia|exact E].
Qed.

Lemma trueWindowMax_unique xlo xhi ylo yhi v :
  (lowest <= v)%Q ->
  (forall i j, xlo <= i <= xhi -> ylo <= j <= yhi -> (gh i j <= v)%Q) ->
  (exists i j, xlo <= i <= xhi /\ ylo <= j <= yhi /\ (v == gh i j)%Q) ->
  (v == trueWindowMax resolution xlo xhi ylo yhi)%Q.
Proof.
  intros Hv Hub (i & j & Hi & Hj & E). unfold trueWindowMax.
  apply Qle_antisym.
  - rewrite E.
    apply Qle_trans with (maxOver xlo xhi (fun x1 => gh x1 j)).
    + apply (maxOver_ub (fun x1 => gh x1 j)). exact Hi.
    + apply (maxOver_ub (fun y1 => maxOver xlo xhi (fun x1 => gh x1 y1))).
      exact Hj.
  - apply maxOver_lub; [exact Hv|]. intros j' Hj'.
    apply maxOver_lub; [exact Hv|]. intros i' Hi'. now apply Hub.
Qed.

Lemma FindRadialMaximum_spec y cm mr mesh :
  0 <= y <= maxy ->
  vsize mesh = (maxx + 1) * (maxy + 1) ->
  vsize cm = maxx + 1 ->
  (forall x, 0 <= x <= maxx ->
     ColInv resolution x (Z.max 0 (y - winSize)) (Z.min maxy (y + winSize))
       (vget 0%Q cm x) (vget 0 mr x)) ->
  let mesh' := FindRadialMaximum y maxx winSize resolution cm mesh in
  vsize mesh' = (maxx + 1) * (maxy + 1) /\
  (forall x, 0 <= x < maxx ->
     CellOk maxx maxy winSize resolution x y (vget 0%Q mesh' (x + y * maxx))) /\
  (forall i, ~ y * maxx <= i < y * maxx + maxx ->
     vget 0%Q mesh' i = vget 0%Q mesh i).
Proof.
  intros Hy Hsz Hcm Hcols mesh'.
  set (b := fun (x : Z) (mesh : list Q) =>
      let maxRowHeight := lowest in
      let startx := Z.max (x - winSize) 0 in
      let endx := Z.min (maxx - 1) (x + winSize) in
      let maxRowHeight :=
        for_le startx endx (fun i maxRowHeight =>
          std_max (vget 0%Q cm i) maxRowHeight) maxRowHeight in
      vset mesh (x + y * maxx) maxRowHeight).
  assert (Hm' : mesh' = for_le 0 (maxx - 1) b mesh).
  { unfold mesh', FindRadialMaximum. now rewrite for_lt_le. }
  pose proof (cols_loop (fun (m : list Q) x => vget 0%Q m (x + y * maxx))
    (fun m => vsize m = (maxx + 1) * (maxy + 1))
    (fun x _ v' => CellOk maxx maxy winSize resolution x y v')
    b (maxx - 1)) as HL.
  destruct HL with (s := mesh) as (H1 & H2 & H3).
  - intros x m Hx Hm. unfold b. cbv zeta.
    split; [now rewrite vsize_vset|]. split.
    + intros j Hj. apply vget_vset_other. lia.
    + rewrite vget_vset_same by nia.
      destruct (radial_fold cm (Z.max (x - winSize) 0)
                  (Z.min (maxx - 1) (x + winSize))) as [Hub Hsel]; [lia|].
      set (v := for_le (Z.max (x - winSize) 0) (Z.min (maxx - 1) (x + winSize))
                  (fun i m0 => std_max (vget 0%Q cm i) m0) lowest) in *.
      assert (Hcol_low : forall i, 0 <= i <= maxx -> (lowest < vget 0%Q cm i)%Q).
      { intros i Hi. destruct (Hcols i Hi) as (Hr & Hc & _).
        rewrite Hc. apply Hlow; lia. }
      assert (Hx0 : (lowest < v)%Q).
      { assert (vget 0%Q cm x <= v)%Q by (apply Hub; lia).
        assert (lowest < vget 0%Q cm x)%Q by (apply Hcol_low; lia). lra. }
      destruct Hsel as [E|(i & Hi & E)]; [rewrite E in Hx0; lra|].
      destruct (Hcols i) as (Hr & Hc & Hubc & (j & Hj)); [lia|].
      split.
      * unfold cellWindowMax. apply trueWindowMax_unique; [lra| |].
        -- intros i' j' Hi' Hj'.
           destruct (Hcols i') as (_ & _ & Hub' & _); [lia|].
           assert (gh i' j' <= vget 0%Q cm i')%Q by (apply Hub'; lia).
           assert (vget 0%Q cm i' <= v)%Q by (apply Hub; lia). lra.
        -- exists i, (vget 0 mr i). split; [lia|]. split; [lia|].
           rewrite E. exact Hc.
      * exists i, j. now rewrite E.
  - exact Hsz.
  - rewrite Hm'. split; [exact H1|]. split.
    + intros x Hx. apply H2 with (x := x). lia.
    + intros i Hi. specialize (H3 (i - y * maxx)).
      replace (i - y * maxx + y * maxx) with i in H3 by lia.
      apply H3. lia.
Qed.

(** *** The row loop *)

Lemma rowStep_spec k st :
  0 <= k <= maxy ->
  SweepInv maxx maxy winSize resolution k st ->
  SweepInv maxx maxy winSize resolution (k + 1)
    (rowStep maxx maxy winSize resolution k st).
Proof.
  intros Hk. destruct st as [[cm mr] mesh]. intros (Hok & Hsz & Hcols & Hcells).
  assert (Hwin_k : forall x, 0 <= x <= maxx ->
    ColInv resolution x (Z.max 0 (k - winSize)) (Z.min maxy (k + winSize))
      (vget 0%Q cm x) (vget 0 mr x)).
  { intros x Hx. destruct (Hcols x Hx) as [HI _].
    replace (k - 1 - winSize + 1) with (k - winSize) in HI by lia.
    replace (k - 1 + winSize + 1) with (k + winSize) in HI by lia.
    apply HI. lia. }
  unfold rowStep.
  destruct (AdvanceMaximaRows_spec k (Z.max 0 (k - winSize))
              (Z.min maxy (k + winSize)) cm mr) as (A1 & A2);
    [lia|apply Hok|exact Hwin_k|].
  destruct (FindRadialMaximum_spec k cm mr mesh Hk Hsz) as (R1 & R2 & R3);
    [apply Hok|exact Hwin_k|].
  destruct (FixRemainingMaxima_spec k
    (cm, AdvanceMaximaRows k maxx resolution cm mr) Hk) as (F1 & F2).
  { split; [apply Hok|exact A1]. }
  { exact A2. }
  destruct (FixRemainingMaxima k maxx maxy winSize resolution
              (cm, AdvanceMaximaRows k maxx resolution cm mr)) as [cm' mr'].
  unfold SweepInv. split; [exact F1|]. split; [exact R1|]. split.
  - intros x Hx. replace (k + 1 - 1) with k by lia. apply (F2 x Hx).
  - intros x y Hx Hyk. destruct (Z.eq_dec y k) as [->|Hne].
    + now apply R2.
    + rewrite R3 by nia. apply Hcells; lia.
Qed.

Lemma slidingWindowRows_inv ylast cm0 mr0 mesh0 :
  -1 <= ylast <= maxy ->
  okCols maxx (cm0, mr0) ->
  vsize mesh0 = (maxx + 1) * (maxy + 1) ->
  (forall x, 0 <= x <= maxx -> vget 0%Q cm0 x = lowest) ->
  SweepInv maxx maxy winSize resolution (ylast + 1)
    (slidingWindowRows maxx maxy winSize resolution ylast (cm0, mr0, mesh0)).
Proof.
  intros Hy Hok Hsz Hinit. unfold slidingWindowRows.
  destruct (FindMaximumColumnHeights_spec (cm0, mr0) Hok) as (B1 & B2).
  { intros x Hx. now apply Hinit. }
  destruct (FindMaximumColumnHeights maxx maxy winSize resolution (cm0, mr0))
    as [cm mr].
  apply for_le_inv; [lia| |].
  - split; [exact B1|]. split; [exact Hsz|]. split.
    + intros x Hx. unfold ColPost.
      replace (Z.max 0 (0 - 1 - winSize + 1)) with 0 by lia.
      replace (0 - 1 + winSize + 1) with winSize by lia.
      split; [|lia]. intros _. apply (B2 x Hx).
    + intros x y Hx Hy0. lia.
  - intros k t Hkr HI. apply rowStep_spec; [lia|exact HI].
Qed.

End SlidingWindow.

(** The reference maximum over a non-empty rectangle of heights above
    the lowest float bounds every height of the rectangle and is one of
    them. *)
Lemma trueWindowMax_is_max resolution xlo xhi ylo yhi :
  xlo <= xhi -> ylo <= yhi ->
  (forall i j, xlo <= i <= xhi -> ylo <= j <= yhi ->
     (lowest < gridHeight resolution i j)%Q) ->
  (forall i j, xlo <= i <= xhi -> ylo <= j <= yhi ->
     (gridHeight resolution i j <= trueWindowMax resolution xlo xhi ylo yhi)%Q) /\
  (exists i j, xlo <= i <= xhi /\ ylo <= j <= yhi /\
     (trueWindowMax resolution xlo xhi ylo yhi == gridHeight resolution i j)%Q).
Proof.
  intros Hx Hy Hlow. unfold trueWindowMax. split.
  - intros i j Hi Hj.
    apply Qle_trans with (maxOver xlo xhi (fun x1 => gridHeight resolution x1 j)).
    + apply (maxOver_ub (fun x1 => gridHeight resolution x1 j)). exact Hi.
    + apply (maxOver_ub
               (fun y1 => maxOver xlo xhi (fun x1 => gridHeight resolution x1 y1))).
      exact Hj.
  - destruct (maxOver_attained
                (fun y1 => maxOver xlo xhi (fun x1 => gridHeight resolution x1 y1))
                ylo yhi Hy) as (j & Hj & Ej).
    { intros j Hj.
      apply Qlt_le_trans with (gridHeight resolution xlo j).
      - apply Hlow; lia.
      - apply (maxOver_ub (fun x1 => gridHeight resolution x1 j)). lia. }
    destruct (maxOver_attained (fun x1 => gridHeight resolution x1 j) xlo xhi Hx)
      as (i & Hi & Ei).
    { intros i Hi. now apply Hlow. }
    exists i, j. split; [exact Hi|]. split; [exact Hj|].
    rewrite Ej. exact Ei.
Qed.

Lemma trueColumnMax_is_max resolution x ylo yhi :
  ylo <= yhi ->
  (forall j, ylo <= j <= yhi -> (lowest < gridHeight resolution x j)%Q) ->
  (forall j, ylo <= j <= yhi ->
     (gridHeight resolution x j <= trueColumnMax resolution x ylo yhi)%Q) /\
  (exists j, ylo <= j <= yhi /\
     (trueColumnMax resolution x ylo yhi == gridHeight resolution x j)%Q).
Proof.
  intros Hy Hlow. unfold trueColumnMax. split.
  - intros j Hj. apply (maxOver_ub (fun y1 => gridHeight resolution x y1)). exact Hj.
  - now apply maxOver_attained.
Qed.

(** X21.  The sliding-window pass computes exact maxima.  Let the pass run
    on fresh column buffers (every running maximum at the lowest float)
    over a height field above the lowest float, up to and including row
    [ylast].  Then [colsMaxima[x]] is, for every column [0 <= x <= maxx],
    the true maximum of the column over the rows
    [[ylast - winSize + 1, ylast + winSize + 1]] cut to [[0, maxy]]; and
    the value [FindRadialMaximum] stored for every cell [(x, y)] with
    [x < maxx] and [y <= ylast] is the true maximum of the terrain over
    the square window of half-width [winSize] centred at the cell, cut to
    the columns [[0, maxx - 1]] and the rows [[0, maxy]] of the pass. *)
Theorem sliding_window_maxima
    (maxx maxy winSize : Z) (resolution : Q) (ylast : Z)
    (cm0 : list Q) (mr0 : list Z) (mesh0 : list Q) :
  0 <= maxx -> 0 <= maxy -> 0 <= winSize ->
  (forall x y, 0 <= x <= maxx -> 0 <= y <= maxy ->
     (lowest < gridHeight resolution x y)%Q) ->
  vsize cm0 = maxx + 1 -> vsize mr0 = maxx + 1 ->
  vsize mesh0 = (maxx + 1) * (maxy + 1) ->
  (forall x, 0 <= x <= maxx -> vget 0%Q cm0 x = lowest) ->
  0 <= ylast <= maxy ->
  let st := slidingWindowRows maxx maxy winSize resolution ylast
              (cm0, mr0, mesh0) in
  (forall x, 0 <= x <= maxx ->
     (vget 0%Q (fst (fst st)) x
      == trueColumnMax resolution x
           (Z.max 0 (ylast - winSize + 1))
           (Z.min maxy (ylast + winSize + 1)))%Q) /\
  (forall x y, 0 <= x < maxx -> 0 <= y <= ylast ->
     (vget 0%Q (snd st) (x + y * maxx)
      == cellWindowMax maxx maxy winSize resolution x y)%Q).
Proof.
  intros Hmaxx Hmaxy Hwin Hlow Hcm Hmr Hmesh Hinit Hy st.
  assert (HI : SweepInv maxx maxy winSize resolution (ylast + 1) st).
  { apply slidingWindowRows_inv; auto; [lia|now split]. }
  destruct st as [[cm mr] mesh]. destruct HI as (Hok & Hsz & Hcols & Hcells).
  simpl. split.
  - intros x Hx. specialize (Hcols x Hx).
    replace (ylast + 1 - 1) with ylast in Hcols by lia.
    destruct Hcols as [Hne Hempty]. unfold trueColumnMax.
    destruct (Z_lt_le_dec (Z.min maxy (ylast + winSize + 1))
                (Z.max 0 (ylast - winSize + 1))) as [He|Hn].
    + rewrite (Hempty He). unfold maxOver. now rewrite for_le_empty.
    + destruct (Hne Hn) as (Hr & Hc & Hub & _).
      assert (lowest < gridHeight resolution x (vget 0%Z mr x))%Q
        by (apply Hlow; lia).
      apply maxOver_unique; [lra|exact Hub|].
      exists (vget 0 mr x). split; [exact Hr|exact Hc].
  - intros x y Hx Hyl. apply Hcells; lia.
Qed.

(** ** The blur passes *)

Lemma upd_upd {A} (v : list A) n a b : upd (upd v n a) n b = upd v n b.
Proof.
  revert n; induction v as [|h t IH]; intros [|n]; simpl; auto.
  now rewrite IH.
Qed.

Lemma vset_vset {A} (v : list A) i a b : vset (vset v i a) i b = vset v i b.
Proof.
  unfold vset. destruct (i <? 0); auto. apply upd_upd.
Qed.

Lemma flat_index_inj maxx x y x' y' :
  0 <= x < maxx -> 0 <= x' < maxx ->
  x + y * maxx = x' + y' * maxx -> x = x' /\ y = y'.
Proof.
  intros Hx Hx' E.
  assert (y = y') by nia. subst y'. split; lia.
Qed.

(** A loop that stores one value per index. *)
Lemma writes_loop1 n N (idx : Z -> Z) (val : Z -> Q)
    (body : Z -> list Q -> list Q) :
  (forall i m, 0 <= i < n -> vsize m = N -> body i m = vset m (idx i) (val i)) ->
  (forall i, 0 <= i < n -> 0 <= idx i < N) ->
  (forall i i', 0 <= i < n -> 0 <= i' < n -> idx i = idx i' -> i = i') ->
  forall m, vsize m = N ->
    vsize (for_lt 0 n body m) = N /\
    (forall i, 0 <= i < n -> vget 0%Q (for_lt 0 n body m) (idx i) = val i) /\
    (forall j, (forall i, 0 <= i < n -> j <> idx i) ->
               vget 0%Q (for_lt 0 n body m) j = vget 0%Q m j).
Proof.
  intros Hbody Hrange Hinj m Hm.
  destruct (Z_lt_le_dec n 0) as [Hneg|Hpos].
  - rewrite for_lt_le, for_le_empty by lia.
    repeat split; auto. intros; lia.
  - pose (P := fun (k : Z) (t : list Q) =>
      vsize t = N /\
      (forall i, 0 <= i < k -> vget 0%Q t (idx i) = val i) /\
      (forall j, (forall i, 0 <= i < k -> j <> idx i) ->
                 vget 0%Q t j = vget 0%Q m j)).
    assert (HP : P n (for_lt 0 n body m)).
    { apply for_lt_inv; [lia| |].
      - unfold P. repeat split; auto. intros; lia.
      - intros i t Hi (Hsz & Hin & Hout).
        rewrite Hbody by auto. unfold P. split; [now rewrite vsize_vset|].
        split.
        + intros i' Hi'. destruct (Z.eq_dec i' i) as [->|Hne].
          * apply vget_vset_same. rewrite Hsz. now apply Hrange.
          * rewrite vget_vset_other.
            -- apply Hin. lia.
            -- intros E. apply Hne. symmetry. apply Hinj; auto; lia.
        + intros j Hj. rewrite vget_vset_other.
          * apply Hout. intros i' Hi'. apply Hj. lia.
          * intros E. apply (Hj i); [lia|now symmetry]. }
    exact HP.
Qed.

(** Two nested loops that store one value per pair of indices. *)
Lemma writes_loop2 na nb N (idx : Z -> Z -> Z) (val : Z -> Z -> Q)
    (inner : Z -> Z -> list Q -> list Q) :
  (forall a b m, 0 <= a < na -> 0 <= b < nb -> vsize m = N ->
     inner a b m = vset m (idx a b) (val a b)) ->
  (forall a b, 0 <= a < na -> 0 <= b < nb -> 0 <= idx a b < N) ->
  (forall a b a' b', 0 <= a < na -> 0 <= b < nb -> 0 <= a' < na -> 0 <= b' < nb ->
     idx a b = idx a' b' -> a = a' /\ b = b') ->
  forall m, vsize m = N ->
    let m' := for_lt 0 na (fun a => for_lt 0 nb (inner a)) m in
    vsize m' = N /\
    (forall a b, 0 <= a < na -> 0 <= b < nb -> vget 0%Q m' (idx a b) = val a b) /\
    (forall j, (forall a b, 0 <= a < na -> 0 <= b < nb -> j <> idx a b) ->
               vget 0%Q m' j = vget 0%Q m j).
Proof.
  intros Hbody Hrange Hinj m Hm m'.
  destruct (Z_lt_le_dec na 0) as [Hneg|Hpos].
  - unfold m'. rewrite for_lt_le, for_le_empty by lia.
    repeat split; auto. intros; lia.
  - pose (P := fun (k : Z) (t : list Q) =>
      vsize t = N /\
      (forall a b, 0 <= a < k -> 0 <= b < nb -> vget 0%Q t (idx a b) = val a b) /\
      (forall j, (forall a b, 0 <= a < k -> 0 <= b < nb -> j <> idx a b) ->
                 vget 0%Q t j = vget 0%Q m j)).
    assert (HP : P na m').
    { unfold m'. apply for_lt_inv; [lia| |].
      - unfold P. repeat split; auto. intros; lia.
      - intros a t Ha (Hsz & Hin & Hout).
        destruct (writes_loop1 nb N (idx a) (val a) (inner a)) with (m := t)
          as (W1 & W2 & W3); auto.
        + intros b b' Hb Hb' E. now apply (Hinj a b a b').
        + unfold P. split; [exact W1|]. split.
          * intros a' b Ha' Hb. destruct (Z.eq_dec a' a) as [->|Hne].
            -- now apply W2.
            -- rewrite W3.
               ++ apply Hin; auto. lia.
               ++ intros b' Hb' E. apply Hne.
                  apply (Hinj a' b a b'); auto; lia.
          * intros j Hj. rewrite W3.
            -- apply Hout. intros a' b Ha' Hb. apply Hj; auto. lia.
            -- intros b Hb. apply Hj; auto. lia. }
    exact HP.
Qed.

Section Blur.
Variables (maxx maxy blurSize : Z) (resolution : Q) (kernel mesh : list Q).

Lemma BlurHorizontal_spec smoothed :
  maxx * maxy <= vsize smoothed ->
  let sm := BlurHorizontal maxx maxy blurSize resolution kernel mesh smoothed in
  vsize sm = vsize smoothed /\
  (forall x y, 0 <= x < maxx -> 0 <= y < maxy ->
     vget 0%Q sm (x + y * maxx)
     = blurValue resolution (blurAvgH maxx blurSize kernel mesh x y) x y) /\
  (forall j, ~ 0 <= j < maxx * maxy -> vget 0%Q sm j = vget 0%Q smoothed j).
Proof.
  intros Hsz sm.
  destruct (writes_loop2 maxy maxx (vsize smoothed)
    (fun y x => x + y * maxx)
    (fun y x => blurValue resolution (blurAvgH maxx blurSize kernel mesh x y) x y)
    (fun y x smoothed =>
      let avg :=
        for_le (x - blurSize) (x + blurSize) (fun x1 avg =>
          (avg + vget 0 kernel (Z.abs (x1 - x))
                 * vget 0 mesh (Z.max 0 (Z.min (maxx - 1) x1) + y * maxx))%Q)
          0%Q in
      let ghaw := GetHeightReal (of_int x * resolution)%Q (of_int y * resolution)%Q in
      let smoothed := vset smoothed (x + y * maxx) (std_max ghaw avg) in
      vset smoothed (x + y * maxx)
        (std_clamp (vget 0%Q smoothed (x + y * maxx))
           GetCurrMinHeight GetCurrMaxHeight))) with (m := smoothed)
    as (W1 & W2 & W3); auto.
  - intros y x m Hy Hx Hm. cbv zeta.
    rewrite vget_vset_same by nia. now rewrite vset_vset.
  - intros y x Hy Hx. nia.
  - intros y x y' x' Hy Hx Hy' Hx' E.
    destruct (flat_index_inj maxx x y x' y'); auto.
  - split; [exact W1|]. split.
    + intros x y Hx Hy. now apply W2.
    + intros j Hj. apply W3. intros y x Hy Hx. nia.
Qed.

Lemma BlurVertical_spec smoothed :
  maxx * maxy <= vsize smoothed ->
  let sm := BlurVertical maxx maxy blurSize resolution kernel mesh smoothed in
  vsize sm = vsize smoothed /\
  (forall x y, 0 <= x < maxx -> 0 <= y < maxy ->
     vget 0%Q sm (x + y * maxx)
     = blurValue resolution (blurAvgV maxx maxy blurSize kernel mesh x y) x y) /\
  (forall j, ~ 0 <= j < maxx * maxy -> vget 0%Q sm j = vget 0%Q smoothed j).
Proof.
  intros Hsz sm.
  destruct (writes_loop2 maxx maxy (vsize smoothed)
    (fun x y => x + y * maxx)
    (fun x y => blurValue resolution (blurAvgV maxx maxy blurSize kernel mesh x y) x y)
    (fun x y smoothed =>
      let avg :=
        for_le (y - blurSize) (y + blurSize) (fun y1 avg =>
          (avg + vget 0 kernel (Z.abs (y1 - y))
                 * vget 0 mesh (x + Z.max 0 (Z.min (maxy - 1) y1) * maxx))%Q)
          0%Q in
      let ghaw := GetHeightReal (of_int x * resolution)%Q (of_int y * resolution)%Q in
      let smoothed := vset smoothed (x + y * maxx) (std_max ghaw avg) in
      vset smoothed (x + y * maxx)
        (std_clamp (vget 0%Q smoothed (x + y * maxx))
           GetCurrMinHeight GetCurrMaxHeight))) with (m := smoothed)
    as (W1 & W2 & W3); auto.
  - intros x y m Hx Hy Hm. cbv zeta.
    rewrite vget_vset_same by nia. now rewrite vset_vset.
  - intros x y Hx Hy. nia.
  - intros x y x' y' Hx Hy Hx' Hy' E.
    destruct (flat_index_inj maxx x y x' y'); auto.
  - split; [exact W1|]. split.
    + intros x y Hx Hy. now apply W2.
    + intros j Hj. apply W3. intros x y Hx Hy. nia.
Qed.

Lemma blurValue_bounds avg x y :
  (GetCurrMinHeight <= gridHeight resolution x y)%Q ->
  (gridHeight resolution x y <= GetCurrMaxHeight)%Q ->
  (gridHeight resolution x y <= blurValue resolution avg x y)%Q /\
  (GetCurrMinHeight <= blurValue resolution avg x y <= GetCurrMaxHeight)%Q.
Proof.
  intros Hlo Hhi. unfold blurValue. split.
  - apply std_clamp_ge; [apply std_max_ge_l|exact Hhi].
  - apply std_clamp_range. lra.
Qed.

End Blur.

(** X22.  After a horizontal and after a vertical blur convolution, on
    whatever mesh it reads (so in every pass), the value stored for a
    cell [(x, y)] with [x < maxx] and [y < maxy] is the maximum of the blurred average and
    the true terrain height at the cell, clamped to
    [[minHeight, maxHeight]]; hence, for a terrain height within these
    bounds, the stored value is at least the true terrain height and
    lies within [[minHeight, maxHeight]]. *)
Theorem blur_stores_clamped_maximum
    (maxx maxy blurSize : Z) (resolution : Q) (kernel mesh smoothed : list Q)
    (x y : Z) :
  maxx * maxy <= vsize smoothed ->
  0 <= x < maxx -> 0 <= y < maxy ->
  (GetCurrMinHeight <= gridHeight resolution x y)%Q ->
  (gridHeight resolution x y <= GetCurrMaxHeight)%Q ->
  let h := vget 0%Q
             (BlurHorizontal maxx maxy blurSize resolution kernel mesh smoothed)
             (x + y * maxx) in
  let v := vget 0%Q
             (BlurVertical maxx maxy blurSize resolution kernel mesh smoothed)
             (x + y * maxx) in
  (h = std_clamp
         (std_max (gridHeight resolution x y)
            (blurAvgH maxx blurSize kernel mesh x y))
         GetCurrMinHeight GetCurrMaxHeight /\
   (gridHeight resolution x y <= h)%Q /\
   (GetCurrMinHeight <= h <= GetCurrMaxHeight)%Q) /\
  (v = std_clamp
         (std_max (gridHeight resolution x y)
            (blurAvgV maxx maxy blurSize kernel mesh x y))
         GetCurrMinHeight GetCurrMaxHeight /\
   (gridHeight resolution x y <= v)%Q /\
   (GetCurrMinHeight <= v <= GetCurrMaxHeight)%Q).
Proof.
  intros Hsz Hx Hy Hlo Hhi h v.
  destruct (BlurHorizontal_spec maxx maxy blurSize resolution kernel mesh
              smoothed Hsz) as (_ & HH & _).
  destruct (BlurVertical_spec maxx maxy blurSize resolution kernel mesh
              smoothed Hsz) as (_ & HV & _).
  unfold h, v. rewrite HH, HV by auto.
  split; (split; [reflexivity|]); now apply blurValue_bounds.
Qed.

(** ** The Gaussian kernel *)

Lemma to_int_nonneg q : (0 <= q)%Q -> to_int q = Qfloor q.
Proof.
  destruct q as [n d]. unfold to_int, Qfloor, Qle. simpl.
  intros H. apply Z.quot_div_nonneg; lia.
Qed.

Lemma vget_map (f : Q -> Q) (v : list Q) i :
  0 <= i < vsize v -> vget 0%Q (map f v) i = f (vget 0%Q v i).
Proof.
  unfold vget, vsize. intros H. destruct (Z.ltb_spec i 0); [lia|].
  rewrite (nth_indep _ 0%Q (f 0%Q)) by (rewrite length_map; lia).
  apply map_nth.
Qed.

Section Kernel.
Variable sigma : Q.
Hypothesis Hsigma : (0 < sigma)%Q.
Hypothesis Hexp : forall q, (0 < expf q)%Q.

Lemma gaussianG_pos i : (0 < gaussianG i sigma)%Q.
Proof.
  unfold gaussianG. apply Qlt_shift_div_l; [exact Hsigma|].
  rewrite Qmult_0_l. apply Qmult_lt_0_compat; [reflexivity|apply Hexp].
Qed.

Lemma gaussSum_step n :
  1 <= n -> gaussSum sigma n = (gaussSum sigma (n - 1) + gaussianG n sigma)%Q.
Proof.
  intros H. unfold gaussSum. now rewrite for_le_snoc by lia.
Qed.

Lemma gaussSum_nonneg n : (0 <= gaussSum sigma n)%Q.
Proof.
  destruct (Z_lt_le_dec n 1) as [H|H].
  - unfold gaussSum. rewrite for_le_empty by lia. lra.
  - unfold gaussSum.
    apply (for_le_inv (fun _ acc => (0 <= acc)%Q)); [lia|lra|].
    intros i t _ Ht. pose proof (gaussianG_pos i). lra.
Qed.

Lemma fillGaussianKernelFunc_spec blurSize :
  0 <= blurSize ->
  let total := (gaussianG 0 sigma + 2 * gaussSum sigma blurSize)%Q in
  exists kernel,
    fillGaussianKernelFunc blurSize [] sigma = Some kernel /\
    vsize kernel = blurSize + 1 /\
    (0 < total)%Q /\
    (forall i, 0 <= i <= blurSize ->
       (vget 0 kernel i == gaussianG i sigma / total)%Q).
Proof.
  intros Hb total. unfold fillGaussianKernelFunc.
  destruct (resize [] (blurSize + 1) 0%Q) as [k0|] eqn:Hr.
  2:{ unfold resize in Hr. destruct (Z.ltb_spec (blurSize + 1) 0); [lia|discriminate]. }
  simpl bind. cbv zeta.
  pose proof (vsize_resize _ _ _ _ Hr) as Hk0.
  pose (P := fun (i : Z) (st : list Q * Q) =>
    vsize (fst st) = blurSize + 1 /\
    (forall j, 0 <= j < i -> vget 0%Q (fst st) j = gaussianG j sigma) /\
    (snd st == gaussianG 0 sigma + 2 * gaussSum sigma (i - 1))%Q).
  match goal with
  | |- context [for_lt 1 (blurSize + 1) ?b ?init] =>
      assert (HP : P (blurSize + 1) (for_lt 1 (blurSize + 1) b init));
      [|destruct (for_lt 1 (blurSize + 1) b init) as [k sum]]
  end.
  { apply for_lt_inv; [lia| |].
    - unfold P. simpl. split; [now rewrite vsize_vset|]. split.
      + intros j Hj. assert (j = 0) by lia. subst j.
        apply vget_vset_same. lia.
      + unfold gaussSum. rewrite for_le_empty by lia. lra.
    - intros i [k sum] Hi (Hsz & Hin & Hsum). unfold P. simpl in *.
      split; [now rewrite vsize_vset|]. split.
      + intros j Hj. destruct (Z.eq_dec j i) as [->|Hne].
        * apply vget_vset_same. lia.
        * rewrite vget_vset_other by auto. apply Hin. lia.
      + replace (i + 1 - 1) with i by lia.
        rewrite (gaussSum_step i) by lia. rewrite Hsum. ring. }
  destruct HP as (Hsz & Hin & Hsum). simpl in *.
  replace (blurSize + 1 - 1) with blurSize in Hsum by lia.
  assert (Htot : (0 < total)%Q).
  { unfold total. pose proof (gaussianG_pos 0). pose proof (gaussSum_nonneg blurSize). lra. }
  eexists. split; [reflexivity|]. split.
  - unfold vsize in *. now rewrite length_map.
  - split; [exact Htot|]. intros i Hi.
    rewrite vget_map by lia. rewrite Hin by lia.
    fold total in Hsum. now rewrite Hsum.
Qed.

Lemma kernelTotal_normalised (kernel : list Q) blurSize total :
  0 <= blurSize ->
  (total == gaussianG 0 sigma + 2 * gaussSum sigma blurSize)%Q ->
  (0 < total)%Q ->
  (forall i, 0 <= i <= blurSize ->
     (vget 0 kernel i == gaussianG i sigma / total)%Q) ->
  (kernelTotal kernel blurSize == 1)%Q.
Proof.
  intros Hb Htot Hpos Hk. unfold kernelTotal.
  assert (Hs : (for_le 1 blurSize (fun i acc => (acc + vget 0 kernel i)%Q) 0
                == gaussSum sigma blurSize / total)%Q).
  { destruct (Z_lt_le_dec blurSize 1) as [H|H].
    - unfold gaussSum. rewrite !for_le_empty by lia. field. lra.
    - pose (P := fun (k : Z) (acc : Q) =>
        (acc == gaussSum sigma (k - 1) / total)%Q).
      assert (HP : P (blurSize + 1)
                (for_le 1 blurSize (fun i acc => (acc + vget 0 kernel i)%Q) 0%Q)).
      { apply for_le_inv; [lia| |].
        - unfold P, gaussSum. rewrite for_le_empty by lia. field. lra.
        - intros i acc Hi Hacc. unfold P in *.
          replace (i + 1 - 1) with i by lia.
          rewrite (gaussSum_step i) by lia.
          rewrite Hacc, Hk by lia. field. lra. }
      unfold P in HP. now replace (blurSize + 1 - 1) with blurSize in HP by lia. }
  rewrite Hs, Hk by lia. rewrite Htot. field.
  rewrite <- Htot. lra.
Qed.

End Kernel.

Lemma gSigma_pos : (0 < gSigma)%Q.
Proof. reflexivity. Qed.

Lemma winSizeOf_floor s :
  (0 < resolution s)%Q -> (0 <= smoothRadius s)%Q ->
  winSizeOf s = Qfloor (smoothRadius s / resolution s) /\ 0 <= winSizeOf s.
Proof.
  intros Hres Hrad.
  assert (Hq : (0 <= smoothRadius s / resolution s)%Q).
  { apply Qle_shift_div_l; [exact Hres|lra]. }
  unfold winSizeOf. rewrite to_int_nonneg by exact Hq. split; [reflexivity|].
  change 0 with (Qfloor 0). now apply Qfloor_resp_le.
Qed.

Lemma blurSizeOf_pos s : 1 <= blurSizeOf s.
Proof. unfold blurSizeOf. lia. Qed.

(** X24.  The kernel [MakeSmoothMesh] fills, over exact arithmetic and
    for a positive [math::expf]: for a blur size [blurSize >= 0] and a
    [sigma > 0] it has exactly [blurSize + 1] weights; weight [i] is the
    Gaussian sample
    [0.3989422804 * expf (-0.5 * i * i / (sigma * sigma)) / sigma]
    divided by one common positive total, so every weight is positive;
    and the full symmetric kernel, tap 0 once and the taps
    [1 .. blurSize] twice each, sums to 1. *)
Theorem gaussian_kernel_normalised (blurSize : Z) (sigma : Q) :
  (forall q, (0 < expf q)%Q) -> (0 < sigma)%Q -> 0 <= blurSize ->
  exists kernel total,
    fillGaussianKernelFunc blurSize [] sigma = Some kernel /\
    vsize kernel = blurSize + 1 /\
    (0 < total)%Q /\
    (forall i, 0 <= i <= blurSize ->
       (vget 0 kernel i * total
        == (3989422804 # 10000000000)
           * expf (- (1 # 2) * of_int i * of_int i / (sigma * sigma))
           / sigma)%Q /\
       (0 < vget 0 kernel i)%Q) /\
    (kernelTotal kernel blurSize == 1)%Q.
Proof.
  intros Hexp Hsigma Hb.
  destruct (fillGaussianKernelFunc_spec sigma Hsigma Hexp blurSize Hb)
    as (kernel & Hk & Hsz & Hpos & Hall).
  exists kernel, (gaussianG 0 sigma + 2 * gaussSum sigma blurSize)%Q.
  split; [exact Hk|]. split; [exact Hsz|]. split; [exact Hpos|]. split.
  - intros i Hi. pose proof (gaussianG_pos sigma Hsigma Hexp i) as Hg.
    split.
    + rewrite (Hall i Hi). unfold gaussianG at 1. field. split; lra.
    + rewrite (Hall i Hi). apply Qlt_shift_div_l; [exact Hpos|]. lra.
  - apply kernelTotal_normalised
      with (sigma := sigma)
           (total := (gaussianG 0 sigma + 2 * gaussSum sigma blurSize)%Q);
      auto. reflexivity.
Qed.

(** ** The whole build *)

Lemma resize_ok {A} (v : list A) n a :
  0 <= n -> exists w, resize v n a = Some w.
Proof.
  intros H. unfold resize. destruct (Z.ltb_spec n 0); [lia|]. eauto.
Qed.

Lemma fillGaussianKernelFunc_ok blurSize sigma :
  0 <= blurSize + 1 ->
  exists kernel, fillGaussianKernelFunc blurSize [] sigma = Some kernel.
Proof.
  intros H. unfold fillGaussianKernelFunc.
  destruct (resize_ok (@nil Q) (blurSize + 1) 0%Q H) as [k0 ->].
  simpl bind. cbv zeta.
  match goal with
  | |- context [for_lt 1 (blurSize + 1) ?b ?init] =>
      destruct (for_lt 1 (blurSize + 1) b init) as [k sum]
  end.
  eauto.
Qed.

Lemma blurPasses_S n maxx maxy blurSize resolution kernel mesh origMesh :
  blurPasses (S n) maxx maxy blurSize resolution kernel (mesh, origMesh)
  = blurPasses n maxx maxy blurSize resolution kernel
      (BlurVertical maxx maxy blurSize resolution kernel
         (BlurHorizontal maxx maxy blurSize resolution kernel mesh origMesh)
         mesh,
       BlurHorizontal maxx maxy blurSize resolution kernel mesh origMesh).
Proof. reflexivity. Qed.

(** What every blur stage establishes for the cells holds after any
    number of rounds; the rounds leave the rest of [mesh] alone. *)
Lemma blurPasses_inv (Qc : Z -> Z -> Q -> Prop)
    maxx maxy blurSize resolution kernel N :
  maxx * maxy <= N ->
  (forall x y avg, 0 <= x < maxx -> 0 <= y < maxy ->
     Qc x y (blurValue resolution avg x y)) ->
  forall n mesh origMesh,
    vsize mesh = N -> vsize origMesh = N ->
    (forall x y, 0 <= x < maxx -> 0 <= y < maxy ->
       Qc x y (vget 0%Q mesh (x + y * maxx))) ->
    let r := blurPasses n maxx maxy blurSize resolution kernel (mesh, origMesh) in
    vsize (fst r) = N /\ vsize (snd r) = N /\
    (forall x y, 0 <= x < maxx -> 0 <= y < maxy ->
       Qc x y (vget 0%Q (fst r) (x + y * maxx))) /\
    (forall j, ~ 0 <= j < maxx * maxy -> vget 0%Q (fst r) j = vget 0%Q mesh j).
Proof.
  intros HN Hblur. induction n as [|n IH]; intros mesh origMesh Hm Ho Hcells r.
  - unfold r. simpl. auto.
  - unfold r. rewrite blurPasses_S.
    destruct (BlurHorizontal_spec maxx maxy blurSize resolution kernel mesh origMesh)
      as (H1 & H2 & H3); [lia|].
    set (hm := BlurHorizontal maxx maxy blurSize resolution kernel mesh origMesh) in *.
    destruct (BlurVertical_spec maxx maxy blurSize resolution kernel hm mesh)
      as (V1 & V2 & V3); [lia|].
    set (vm := BlurVertical maxx maxy blurSize resolution kernel hm mesh) in *.
    destruct (IH vm hm) as (R1 & R2 & R3 & R4); try lia.
    + intros x y Hx Hy. rewrite V2 by auto. now apply Hblur.
    + split; [exact R1|]. split; [exact R2|]. split; [exact R3|].
      intros j Hj. rewrite R4 by auto. now apply V3.
Qed.

Lemma blurValue_flat H resolution avg x y :
  (forall a b, GetHeightReal a b = H) ->
  GetCurrMinHeight = H -> GetCurrMaxHeight = H ->
  blurValue resolution avg x y = H.
Proof.
  intros Hflat Hmin Hmax. unfold blurValue, gridHeight.
  rewrite Hflat, Hmin, Hmax. unfold std_clamp, std_max.
  destruct (Qlt_le_dec H avg) as [Hlt|Hge].
  - destruct (Qlt_le_dec avg H); [reflexivity|].
    destruct (Qlt_le_dec H avg); [reflexivity|lra].
  - destruct (Qlt_le_dec H H); [reflexivity|]. reflexivity.
Qed.

(** The result of a build on an object without storage. *)
Lemma MakeSmoothMeshWith_result n s :
  mesh s = [] -> 0 <= maxx s + 1 -> 0 <= maxy s + 1 ->
  exists kernel mesh0 orig0 cm0 mr0,
    fillGaussianKernelFunc (blurSizeOf s) [] gSigma = Some kernel /\
    resize (@nil Q) ((maxx s + 1) * (maxy s + 1)) 0%Q = Some mesh0 /\
    resize (origMesh s) ((maxx s + 1) * (maxy s + 1)) 0%Q = Some orig0 /\
    resize (@nil Q) (maxx s + 1) lowest = Some cm0 /\
    resize (@nil Z) (maxx s + 1) (-1) = Some mr0 /\
    let st := slidingWindowRows (maxx s) (maxy s) (winSizeOf s) (resolution s)
                (maxy s) (cm0, mr0, mesh0) in
    let bufs := blurPasses n (maxx s) (maxy s) (blurSizeOf s) (resolution s)
                  kernel (snd st, orig0) in
    MakeSmoothMeshWith n s
    = Some (mkSmoothHeightMesh (maxx s) (maxy s) (fmaxx s) (fmaxy s)
              (resolution s) (smoothRadius s)
              (fst bufs) (std_copy (fst bufs) (snd bufs))
              (fst (fst st)) (snd (fst st))).
Proof.
  intros Hempty Hx Hy.
  pose proof (blurSizeOf_pos s) as Hb.
  destruct (fillGaussianKernelFunc_ok (blurSizeOf s) gSigma) as [kernel Hk]; [lia|].
  destruct (resize_ok (@nil Q) ((maxx s + 1) * (maxy s + 1)) 0%Q) as [mesh0 Hm]; [nia|].
  destruct (resize_ok (origMesh s) ((maxx s + 1) * (maxy s + 1)) 0%Q) as [orig0 Ho]; [nia|].
  destruct (resize_ok (@nil Q) (maxx s + 1) lowest Hx) as [cm0 Hc].
  destruct (resize_ok (@nil Z) (maxx s + 1) (-1) Hx) as [mr0 Hr].
  exists kernel, mesh0, orig0, cm0, mr0.
  repeat (split; [assumption|]).
  cbv zeta. unfold MakeSmoothMeshWith, bind.
  rewrite Hk, Hempty. cbv beta iota.
  rewrite Hm, Ho, Hc, Hr.
  destruct (slidingWindowRows (maxx s) (maxy s) (winSizeOf s) (resolution s)
              (maxy s) (cm0, mr0, mesh0)) as [[cm mr] mesh1].
  cbn [fst snd].
  destruct (blurPasses n (maxx s) (maxy s) (blurSizeOf s) (resolution s)
              kernel (mesh1, orig0)) as [mesh2 orig2].
  reflexivity.
Qed.

Lemma MakeSmoothMeshWith_config n s s' :
  MakeSmoothMeshWith n s = Some s' ->
  maxx s' = maxx s /\ maxy s' = maxy s /\
  resolution s' = resolution s /\ smoothRadius s' = smoothRadius s.
Proof.
  unfold MakeSmoothMeshWith, bind.
  destruct (fillGaussianKernelFunc _ _ _); [|discriminate].
  destruct (resize (mesh s) _ _); [|discriminate].
  destruct (resize (origMesh s) _ _); [|discriminate].
  destruct (resize [] _ lowest); [|discriminate].
  destruct (resize [] _ (-1)); [|discriminate].
  destruct (slidingWindowRows _ _ _ _ _ _) as [[? ?] ?].
  destruct (blurPasses _ _ _ _ _ _ _) as [? ?].
  intros [= <-]. cbn. auto.
Qed.

(** X23.  On a constant height field [H] (so [minHeight = maxHeight = H]),
    above the lowest float, a build on an object without storage and
    with a positive resolution succeeds, and every float the passes
    address, the rows [0 .. maxy] of the columns [0 .. maxx - 1] at
    [x + y * maxx], holds exactly [H], whatever the number of blur
    rounds. *)
Theorem flat_field_stays_flat
    (H : Q) (blurPassesCount : nat) (s : SmoothHeightMesh) :
  (forall a b, GetHeightReal a b = H) ->
  GetCurrMinHeight = H -> GetCurrMaxHeight = H ->
  (lowest < H)%Q ->
  mesh s = [] -> 0 <= maxx s -> 0 <= maxy s ->
  (0 < resolution s)%Q -> (0 <= smoothRadius s)%Q ->
  exists s',
    MakeSmoothMeshWith blurPassesCount s = Some s' /\
    forall x y, 0 <= x < maxx s -> 0 <= y <= maxy s ->
      vget 0%Q (mesh s') (x + y * maxx s) = H.
Proof.
  intros Hflat Hmin Hmax HlowH Hempty Hx Hy Hres Hrad.
  destruct (MakeSmoothMeshWith_result blurPassesCount s Hempty)
    as (kernel & mesh0 & orig0 & cm0 & mr0 & Hk & Hm & Ho & Hc & Hr & Hres');
    [lia|lia|].
  cbv zeta in Hres'. eexists. split; [exact Hres'|]. cbn [mesh].
  destruct (winSizeOf_floor s Hres Hrad) as [_ Hw].
  assert (HI : SweepInv (maxx s) (maxy s) (winSizeOf s) (resolution s)
                 (maxy s + 1)
                 (slidingWindowRows (maxx s) (maxy s) (winSizeOf s)
                    (resolution s) (maxy s) (cm0, mr0, mesh0))).
  { apply slidingWindowRows_inv; auto; try lia.
    - intros x y _ _. unfold gridHeight. now rewrite Hflat.
    - split; simpl; eapply vsize_resize; eauto.
    - eapply vsize_resize; eauto.
    - intros x Hx0. eapply vget_resize_nil; eauto. lia. }
  destruct (slidingWindowRows (maxx s) (maxy s) (winSizeOf s) (resolution s)
              (maxy s) (cm0, mr0, mesh0)) as [[cm mr] mesh1].
  destruct HI as (Hok & Hsz & _ & Hcells). cbn [fst snd].
  assert (Hcell : forall x y, 0 <= x < maxx s -> 0 <= y <= maxy s ->
            vget 0%Q mesh1 (x + y * maxx s) = H).
  { intros x y Hx0 Hy0. destruct (Hcells x y) as (_ & i & j & E); [lia|lia|].
    rewrite E. unfold gridHeight. apply Hflat. }
  destruct (blurPasses_inv (fun _ _ v => v = H) (maxx s) (maxy s) (blurSizeOf s)
              (resolution s) kernel ((maxx s + 1) * (maxy s + 1)))
    with (n := blurPassesCount) (mesh := mesh1) (origMesh := orig0)
    as (_ & _ & R3 & R4); auto.
  - nia.
  - intros x y avg _ _. now apply blurValue_flat.
  - eapply vsize_resize; eauto.
  - intros x y Hx0 Hy0. apply Hcell; lia.
  - intros x y Hx0 Hy0. destruct (Z.eq_dec y (maxy s)) as [->|Hne].
    + rewrite R4 by nia. apply Hcell; lia.
    + apply R3; lia.
Qed.

(** The built mesh never dips below the terrain and stays within the
    global height bounds, after the sliding-window pass alone and after
    any number of blur rounds. *)
Lemma build_keeps_terrain_below (blurPassesCount : nat) (s : SmoothHeightMesh) :
  (forall a b, (GetCurrMinHeight <= GetHeightReal a b <= GetCurrMaxHeight)%Q) ->
  (lowest < GetCurrMinHeight)%Q ->
  mesh s = [] -> 0 <= maxx s -> 0 <= maxy s ->
  (0 < resolution s)%Q -> (0 <= smoothRadius s)%Q ->
  exists s',
    MakeSmoothMeshWith blurPassesCount s = Some s' /\
    forall x y, 0 <= x < maxx s -> 0 <= y < maxy s ->
      (gridHeight (resolution s) x y <= vget 0 (mesh s') (x + y * maxx s))%Q /\
      (GetCurrMinHeight <= vget 0 (mesh s') (x + y * maxx s) <= GetCurrMaxHeight)%Q.
Proof.
  intros Hb Hlo Hempty Hx Hy Hres Hrad.
  destruct (MakeSmoothMeshWith_result blurPassesCount s Hempty)
    as (kernel & mesh0 & orig0 & cm0 & mr0 & Hk & Hm & Ho & Hc & Hr & Hres');
    [lia|lia|].
  cbv zeta in Hres'. eexists. split; [exact Hres'|]. cbn [mesh].
  destruct (winSizeOf_floor s Hres Hrad) as [_ Hw].
  assert (HI : SweepInv (maxx s) (maxy s) (winSizeOf s) (resolution s)
                 (maxy s + 1)
                 (slidingWindowRows (maxx s) (maxy s) (winSizeOf s)
                    (resolution s) (maxy s) (cm0, mr0, mesh0))).
  { apply slidingWindowRows_inv; auto; try lia.
    - intros x y _ _. unfold gridHeight.
      destruct (Hb (of_int x * resolution s)%Q (of_int y * resolution s)%Q). lra.
    - split; simpl; eapply vsize_resize; eauto.
    - eapply vsize_resize; eauto.
    - intros x Hx0. eapply vget_resize_nil; eauto. lia. }
  destruct (slidingWindowRows (maxx s) (maxy s) (winSizeOf s) (resolution s)
              (maxy s) (cm0, mr0, mesh0)) as [[cm mr] mesh1].
  destruct HI as (Hok & Hsz & _ & Hcells). cbn [fst snd].
  destruct (blurPasses_inv
              (fun x y v =>
                 (gridHeight (resolution s) x y <= v)%Q /\
                 (GetCurrMinHeight <= v <= GetCurrMaxHeight)%Q)
              (maxx s) (maxy s) (blurSizeOf s)
              (resolution s) kernel ((maxx s + 1) * (maxy s + 1)))
    with (n := blurPassesCount) (mesh := mesh1) (origMesh := orig0)
    as (_ & _ & R3 & _); auto.
  - nia.
  - intros x y avg _ _. apply blurValue_bounds; apply Hb.
  - eapply vsize_resize; eauto.
  - intros x y Hx0 Hy0.
    destruct (Hcells x y) as (Emax & i & j & E); [lia|lia|]. split.
    + rewrite Emax. unfold cellWindowMax, trueWindowMax.
      apply Qle_trans
        with (maxOver (Z.max 0 (x - winSizeOf s))
                (Z.min (maxx s - 1) (x + winSizeOf s))
                (fun x1 => gridHeight (resolution s) x1 y)).
      * apply (maxOver_ub (fun x1 => gridHeight (resolution s) x1 y)). lia.
      * apply (maxOver_ub
                 (fun y1 =>
                    maxOver (Z.max 0 (x - winSizeOf s))
                      (Z.min (maxx s - 1) (x + winSizeOf s))
                      (fun x1 => gridHeight (resolution s) x1 y1))). lia.
    + rewrite E. unfold gridHeight. apply Hb.
Qed.

(** ** Init *)

Lemma std_max_one_ge smoothRad : (1 <= std_max 1 smoothRad)%Q.
Proof. apply std_max_ge_l. Qed.


Lemma grid_extent_pos m res :
  (0 <= m)%Q -> (0 < res)%Q -> 1 <= to_int (m / res + 1).
Proof.
  intros Hm Hres.
  assert (Hq : (0 <= m / res)%Q) by (apply Qle_shift_div_l; [exact Hres|lra]).
  rewrite to_int_nonneg by lra.
  assert (Hf : Qfloor 1 <= Qfloor (m / res + 1)) by (apply Qfloor_resp_le; lra).
  exact Hf.
Qed.



(** ** The bookkeeping of the sliding-window pass *)

Lemma slidingWindowRows_snoc maxx maxy winSize resolution y st0 :
  0 <= y ->
  slidingWindowRows maxx maxy winSize resolution y st0
  = rowStep maxx maxy winSize resolution y
      (slidingWindowRows maxx maxy winSize resolution (y - 1) st0).
Proof.
  intros Hy. unfold slidingWindowRows. destruct st0 as [[cm0 mr0] mesh0].
  destruct (FindMaximumColumnHeights maxx maxy winSize resolution (cm0, mr0))
    as [cm mr].
  now rewrite for_le_snoc by lia.
Qed.

Lemma FixRemainingMaxima_empty_window maxx maxy winSize resolution y cm :
  Z.min maxy (y + winSize + 1) < Z.max 0 (y - winSize + 1) ->
  okCols maxx cm ->
  (forall x, 0 <= x <= maxx -> snd (col cm x) <= y - winSize) ->
  forall x, 0 <= x <= maxx ->
    col (FixRemainingMaxima y maxx maxy winSize resolution cm) x
    = (lowest, snd (col cm x)).
Proof.
  intros Hempty Hok Hrows.
  pose proof (cols_loop col (okCols maxx)
    (fun (x : Z) (p p' : Q * Z) =>
       snd p <= y - winSize -> p' = (lowest, snd p))) as HL.
  unfold FixRemainingMaxima. cbv zeta.
  match goal with
  | |- context [for_le 0 maxx ?b cm] =>
      destruct (HL b maxx) with (s := cm) as (_ & H2 & _)
  end.
  - clear HL. intros x [c m] Hx Hokt.
    destruct (Z.leb_spec (vget 0 m x) (y - winSize)) as [Hold|Hin].
    + rewrite for_le_empty by exact Hempty.
      split; [now apply okCols_vset_l|]. split.
      * intros j Hj. unfold col. simpl. now rewrite vget_vset_other by auto.
      * intros _. unfold col. simpl. destruct Hokt as [Hc _]. simpl in Hc.
        now rewrite vget_vset_same by lia.
    + split; [|split].
      * destruct (y + winSize + 1 <=? maxy); [|exact Hokt].
        destruct (Qlt_le_dec _ _); [now apply okCols_vset|exact Hokt].
      * intros j Hj. destruct (y + winSize + 1 <=? maxy); [|reflexivity].
        destruct (Qlt_le_dec _ _); [now apply col_vset_other|reflexivity].
      * unfold col. simpl. intros Hle. lia.
  - exact Hok.
  - intros x Hx. apply H2; auto.
Qed.

Section SweepBookkeeping.
Variables (maxx maxy winSize : Z) (resolution : Q).
Hypothesis Hmaxx : 0 <= maxx.
Hypothesis Hmaxy : 0 <= maxy.
Hypothesis Hwin : 0 <= winSize.
Hypothesis Hlow : forall x y, 0 <= x <= maxx -> 0 <= y <= maxy ->
  (lowest < gridHeight resolution x y)%Q.
Variables (cm0 : list Q) (mr0 : list Z) (mesh0 : list Q).
Hypothesis Hcm0 : vsize cm0 = maxx + 1.
Hypothesis Hmr0 : vsize mr0 = maxx + 1.
Hypothesis Hmesh0 : vsize mesh0 = (maxx + 1) * (maxy + 1).
Hypothesis Hinit : forall x, 0 <= x <= maxx -> vget 0%Q cm0 x = lowest.

Lemma sweep_state ylast :
  -1 <= ylast <= maxy ->
  SweepInv maxx maxy winSize resolution (ylast + 1)
    (slidingWindowRows maxx maxy winSize resolution ylast (cm0, mr0, mesh0)).
Proof.
  intros Hy. apply slidingWindowRows_inv; auto. now split.
Qed.

(** After a row with a non-empty next window every column holds the
    maximum of that window together with a row of the window where the
    terrain attains it. *)
Lemma sweep_columns ylast x :
  0 <= ylast <= maxy -> 1 <= winSize \/ ylast < maxy -> 0 <= x <= maxx ->
  let st := slidingWindowRows maxx maxy winSize resolution ylast
              (cm0, mr0, mesh0) in
  ColInv resolution x (Z.max 0 (ylast - winSize + 1))
    (Z.min maxy (ylast + winSize + 1))
    (vget 0%Q (fst (fst st)) x) (vget 0 (snd (fst st)) x).
Proof.
  intros Hy Hne Hx st. pose proof (sweep_state ylast) as HI. fold st in HI.
  destruct st as [[cm mr] mesh]. destruct HI as (_ & _ & Hcols & _); [lia|].
  simpl. specialize (Hcols x Hx).
  replace (ylast + 1 - 1) with ylast in Hcols by lia.
  apply Hcols. lia.
Qed.

End SweepBookkeeping.

(** X10.  The invariant check of the source passes after every row: for
    a terrain within the global height bounds, above the lowest float,
    [CheckInvariants] holds on the column buffers the sliding-window
    pass leaves after each row [0 .. maxy]. *)
Theorem CheckInvariants_hold_after_every_row
    (maxx maxy winSize : Z) (resolution : Q) (ylast : Z)
    (cm0 : list Q) (mr0 : list Z) (mesh0 : list Q) :
  0 <= maxx -> 0 <= maxy -> 0 <= winSize ->
  (forall x y, 0 <= x <= maxx -> 0 <= y <= maxy ->
     (lowest < gridHeight resolution x y)%Q) ->
  (forall x y, 0 <= x <= maxx -> 0 <= y <= maxy ->
     (GetCurrMinHeight <= gridHeight resolution x y <= GetCurrMaxHeight)%Q) ->
  vsize cm0 = maxx + 1 -> vsize mr0 = maxx + 1 ->
  vsize mesh0 = (maxx + 1) * (maxy + 1) ->
  (forall x, 0 <= x <= maxx -> vget 0%Q cm0 x = lowest) ->
  0 <= ylast <= maxy ->
  let st := slidingWindowRows maxx maxy winSize resolution ylast
              (cm0, mr0, mesh0) in
  CheckInvariants ylast maxx maxy winSize resolution
    (fst (fst st)) (snd (fst st)) = true.
Proof.
  intros Hmaxx Hmaxy Hwin Hlow Hb Hcm Hmr Hmesh Hinit Hy st.
  pose proof (sweep_state maxx maxy winSize resolution Hmaxx Hmaxy Hwin Hlow
                cm0 mr0 mesh0 Hcm Hmr Hmesh Hinit ylast) as HI.
  fold st in HI. destruct st as [[cm mr] mesh].
  destruct HI as (_ & _ & Hcols & _); [lia|]. simpl fst. simpl snd.
  assert (Hc : forall x, 0 <= x <= maxx ->
            Z.max 0 (ylast - winSize + 1) <= Z.min maxy (ylast + winSize + 1) ->
            ColInv resolution x (Z.max 0 (ylast - winSize + 1))
              (Z.min maxy (ylast + winSize + 1)) (vget 0%Q cm x) (vget 0 mr x)).
  { intros x Hx Hne. specialize (Hcols x Hx).
    replace (ylast + 1 - 1) with ylast in Hcols by lia. now apply Hcols. }
  unfold CheckInvariants. apply andb_true_intro. split.
  - destruct (Z.ltb_spec ylast maxy) as [Hlt|Hge]; [|reflexivity].
    apply (for_le_inv (fun (_ : Z) (ok : bool) => ok = true)); [lia|reflexivity|].
    intros x ok Hx ->. destruct (Hc x Hx) as (Hr & Hq & _ & _); [lia|].
    assert (Hbx := Hb x (vget 0 mr x) Hx). rewrite <- Hq in Hbx.
    destruct Hbx as [Hb1 Hb2]; [lia|].
    apply Qle_bool_iff in Hb1. apply Qle_bool_iff in Hb2.
    rewrite Hb1, Hb2.
    destruct (Z.ltb_spec (ylast - winSize) (vget 0 mr x)); [|lia].
    destruct (Z.leb_spec (vget 0 mr x) maxy); [reflexivity|lia].
  - destruct (Z_lt_le_dec (Z.min maxy (ylast + winSize + 1))
                (Z.max 0 (ylast - winSize + 1))) as [He|Hne].
    + now rewrite for_le_empty.
    + apply (for_le_inv (fun (_ : Z) (ok : bool) => ok = true)); [lia|reflexivity|].
      intros y1 ok Hy1 ->.
      apply (for_le_inv (fun (_ : Z) (ok : bool) => ok = true)); [lia|reflexivity|].
      intros x1 ok Hx1 ->. destruct (Hc x1 Hx1 Hne) as (_ & _ & Hub & _).
      simpl. apply Qle_bool_iff. now apply Hub.
Qed.

(** X11.  While the next window is not empty ([winSize >= 1], or a row
    before the last), the row recorded for a column after
    [FixRemainingMaxima] satisfies the two conditions asserted there
    (it lies in [[y - winSize + 1, y + winSize + 1]]), it is a row of
    the grid, and the terrain height at it is the column maximum. *)
Theorem recorded_row_attains_the_maximum
    (maxx maxy winSize : Z) (resolution : Q) (ylast : Z)
    (cm0 : list Q) (mr0 : list Z) (mesh0 : list Q) (x : Z) :
  0 <= maxx -> 0 <= maxy -> 0 <= winSize ->
  (forall x y, 0 <= x <= maxx -> 0 <= y <= maxy ->
     (lowest < gridHeight resolution x y)%Q) ->
  vsize cm0 = maxx + 1 -> vsize mr0 = maxx + 1 ->
  vsize mesh0 = (maxx + 1) * (maxy + 1) ->
  (forall x, 0 <= x <= maxx -> vget 0%Q cm0 x = lowest) ->
  0 <= ylast <= maxy -> 1 <= winSize \/ ylast < maxy -> 0 <= x <= maxx ->
  let st := slidingWindowRows maxx maxy winSize resolution ylast
              (cm0, mr0, mesh0) in
  let r := vget 0 (snd (fst st)) x in
  rowWithinNextWindow ylast winSize (snd (fst st)) x = true /\
  0 <= r <= maxy /\
  (gridHeight resolution x r == vget 0%Q (fst (fst st)) x)%Q.
Proof.
  intros Hmaxx Hmaxy Hwin Hlow Hcm Hmr Hmesh Hinit Hy Hne Hx st r.
  destruct (sweep_columns maxx maxy winSize resolution Hmaxx Hmaxy Hwin Hlow
              cm0 mr0 mesh0 Hcm Hmr Hmesh Hinit ylast x Hy Hne Hx)
    as (Hr & Hq & _ & _).
  fold st in Hr, Hq. fold r in Hr, Hq.
  split; [|split; [lia|now symmetry]].
  unfold rowWithinNextWindow. fold r.
  destruct (Z.leb_spec r (ylast + winSize + 1)); [|lia].
  destruct (Z.leb_spec (ylast - winSize + 1) r); [reflexivity|lia].
Qed.

(** X12.  With [winSize = 0] the last row leaves the column buffers
    outside the conditions of [FixRemainingMaxima]: the rescan runs over
    no row, so every column maximum is reset to the lowest float, the
    recorded row stays at [maxy], and the asserted
    [maximaRows[x] >= y - winSize + 1] is false for every column. *)
Theorem last_row_without_radius_resets_the_columns
    (maxx maxy : Z) (resolution : Q)
    (cm0 : list Q) (mr0 : list Z) (mesh0 : list Q) (x : Z) :
  0 <= maxx -> 0 <= maxy ->
  (forall x y, 0 <= x <= maxx -> 0 <= y <= maxy ->
     (lowest < gridHeight resolution x y)%Q) ->
  vsize cm0 = maxx + 1 -> vsize mr0 = maxx + 1 ->
  vsize mesh0 = (maxx + 1) * (maxy + 1) ->
  (forall x, 0 <= x <= maxx -> vget 0%Q cm0 x = lowest) ->
  0 <= x <= maxx ->
  let st := slidingWindowRows maxx maxy 0 resolution maxy (cm0, mr0, mesh0) in
  vget 0%Q (fst (fst st)) x = lowest /\
  vget 0 (snd (fst st)) x = maxy /\
  rowWithinNextWindow maxy 0 (snd (fst st)) x = false.
Proof.
  intros Hmaxx Hmaxy Hlow Hcm Hmr Hmesh Hinit Hx st.
  assert (Hw : 0 <= 0) by lia.
  pose proof (sweep_state maxx maxy 0 resolution Hmaxx Hmaxy Hw Hlow
                cm0 mr0 mesh0 Hcm Hmr Hmesh Hinit (maxy - 1)) as HI.
  unfold st. rewrite slidingWindowRows_snoc by lia.
  destruct (slidingWindowRows maxx maxy 0 resolution (maxy - 1) (cm0, mr0, mesh0))
    as [[cm mr] mesh].
  destruct HI as (Hok & _ & Hcols & _); [lia|].
  assert (Hc : forall x, 0 <= x <= maxx ->
            ColInv resolution x maxy maxy (vget 0%Q cm x) (vget 0 mr x)).
  { intros x' Hx'. destruct (Hcols x' Hx') as [HI _].
    replace (Z.max 0 (maxy - 1 + 1 - 1 - 0 + 1)) with maxy in HI by lia.
    replace (Z.min maxy (maxy - 1 + 1 - 1 + 0 + 1)) with maxy in HI by lia.
    apply HI. lia. }
  destruct (AdvanceMaximaRows_spec maxx resolution maxy maxy maxy cm mr)
    as (A1 & A2); [lia|apply Hok|exact Hc|].
  unfold rowStep.
  assert (E : col (FixRemainingMaxima maxy maxx maxy 0 resolution
                     (cm, AdvanceMaximaRows maxy maxx resolution cm mr)) x
              = (lowest, vget 0 (AdvanceMaximaRows maxy maxx resolution cm mr) x)).
  { apply (FixRemainingMaxima_empty_window maxx maxy 0 resolution) with
      (cm := (cm, AdvanceMaximaRows maxy maxx resolution cm mr)); auto.
    - lia.
    - split; [apply Hok|exact A1].
    - intros x' Hx'. simpl. destruct (A2 x' Hx') as (Hr & _). lia. }
  destruct (FixRemainingMaxima maxy maxx maxy 0 resolution
              (cm, AdvanceMaximaRows maxy maxx resolution cm mr)) as [cm' mr'].
  simpl fst. simpl snd.
  unfold col in E. simpl in E. injection E as E1 E2.
  destruct (A2 x Hx) as (Hr & _).
  assert (Er : vget 0 mr' x = maxy) by lia.
  split; [exact E1|]. split; [exact Er|].
  unfold rowWithinNextWindow. rewrite Er.
  destruct (Z.leb_spec (maxy - 0 + 1) maxy); [lia|]. apply andb_false_r.
Qed.

(** ** What the passes leave alone *)

Lemma FindRadialMaximum_frame y maxx winSize resolution cm mesh :
  vsize (FindRadialMaximum y maxx winSize resolution cm mesh) = vsize mesh /\
  forall i, ~ y * maxx <= i < y * maxx + maxx ->
    vget 0%Q (FindRadialMaximum y maxx winSize resolution cm mesh) i
    = vget 0%Q mesh i.
Proof.
  unfold FindRadialMaximum. destruct (Z_lt_le_dec maxx 0) as [Hneg|Hpos].
  - unfold for_lt. replace (Z.to_nat (maxx - 0)) with O by lia. simpl. auto.
  - pose (P := fun (k : Z) (m : list Q) =>
      vsize m = vsize mesh /\
      forall i, ~ y * maxx <= i < y * maxx + k -> vget 0%Q m i = vget 0%Q mesh i).
    match goal with
    | |- context [for_lt 0 maxx ?b mesh] =>
        assert (HP : P maxx (for_lt 0 maxx b mesh))
    end.
    { apply for_lt_inv; [lia|split; auto|].
      intros x m Hx [Hsz Hfr]. split.
      - now rewrite vsize_vset.
      - intros i Hi. rewrite vget_vset_other by lia. apply Hfr. lia. }
    exact HP.
Qed.

Lemma rowStep_mesh maxx maxy winSize resolution y cm mr mesh :
  snd (rowStep maxx maxy winSize resolution y (cm, mr, mesh))
  = FindRadialMaximum y maxx winSize resolution cm mesh.
Proof.
  unfold rowStep. destruct (FixRemainingMaxima _ _ _ _ _ _). reflexivity.
Qed.

(** The sliding-window pass up to row [ylast] writes the flat indices
    [[0, (ylast + 1) * maxx)] only. *)
Lemma slidingWindowRows_frame maxx maxy winSize resolution ylast cm0 mr0 mesh0 :
  0 <= maxx -> -1 <= ylast ->
  let st := slidingWindowRows maxx maxy winSize resolution ylast
              (cm0, mr0, mesh0) in
  vsize (snd st) = vsize mesh0 /\
  forall i, ~ 0 <= i < (ylast + 1) * maxx ->
    vget 0%Q (snd st) i = vget 0%Q mesh0 i.
Proof.
  intros Hx Hy. unfold slidingWindowRows.
  destruct (FindMaximumColumnHeights maxx maxy winSize resolution (cm0, mr0))
    as [cm mr].
  apply (for_le_inv (fun (k : Z) (st : list Q * list Z * list Q) =>
           vsize (snd st) = vsize mesh0 /\
           forall i, ~ 0 <= i < k * maxx ->
             vget 0%Q (snd st) i = vget 0%Q mesh0 i)); [lia|split; auto|].
  intros k [[c m] me] Hk [Hsz Hfr]. rewrite rowStep_mesh.
  destruct (FindRadialMaximum_frame k maxx winSize resolution c me) as [F1 F2].
  simpl snd in *. split; [congruence|].
  intros i Hi. rewrite F2 by nia. apply Hfr. nia.
Qed.

Lemma std_copy_same_size (src dst : list Q) :
  vsize src = vsize dst -> std_copy src dst = src.
Proof.
  unfold vsize, std_copy. intros H.
  rewrite skipn_all2 by lia. apply app_nil_r.
Qed.

(** The layout of a built object: what [MakeSmoothMesh] allocates, what
    the blur rounds may have changed, and the copy it keeps. *)
Lemma MakeSmoothMeshWith_layout n s :
  mesh s = [] -> 0 <= maxx s -> 0 <= maxy s ->
  exists s' cm0 mr0 mesh0,
    resize (@nil Q) (maxx s + 1) lowest = Some cm0 /\
    resize (@nil Z) (maxx s + 1) (-1) = Some mr0 /\
    resize (@nil Q) ((maxx s + 1) * (maxy s + 1)) 0%Q = Some mesh0 /\
    MakeSmoothMeshWith n s = Some s' /\
    vsize (mesh s') = (maxx s + 1) * (maxy s + 1) /\
    origMesh s' = mesh s' /\
    let st := slidingWindowRows (maxx s) (maxy s) (winSizeOf s) (resolution s)
                (maxy s) (cm0, mr0, mesh0) in
    colsMaxima s' = fst (fst st) /\ maximaRows s' = snd (fst st) /\
    forall j, ~ 0 <= j < maxx s * maxy s ->
      vget 0%Q (mesh s') j = vget 0%Q (snd st) j.
Proof.
  intros Hempty Hx Hy.
  destruct (MakeSmoothMeshWith_result n s Hempty)
    as (kernel & mesh0 & orig0 & cm0 & mr0 & Hk & Hm & Ho & Hc & Hr & E);
    [lia|lia|].
  cbv zeta in E. eexists. exists cm0, mr0, mesh0.
  repeat (split; [eassumption|]). cbn [mesh origMesh colsMaxima maximaRows].
  destruct (slidingWindowRows_frame (maxx s) (maxy s) (winSizeOf s)
              (resolution s) (maxy s) cm0 mr0 mesh0) as [S1 _]; [lia|lia|].
  set (st := slidingWindowRows (maxx s) (maxy s) (winSizeOf s) (resolution s)
               (maxy s) (cm0, mr0, mesh0)) in *.
  destruct (blurPasses_inv (fun _ _ _ => True) (maxx s) (maxy s) (blurSizeOf s)
              (resolution s) kernel ((maxx s + 1) * (maxy s + 1)))
    with (n := n) (mesh := snd st) (origMesh := orig0)
    as (R1 & R2 & _ & R4); auto.
  - nia.
  - rewrite S1. eapply vsize_resize; eauto.
  - eapply vsize_resize; eauto.
  - split; [exact R1|]. split; [apply std_copy_same_size; lia|].
    cbv zeta. repeat split. exact R4.
Qed.

(** X13.  The last [maxy + 1] floats of the array are allocated and
    never written: a build on an object without storage returns a mesh
    of [(maxx + 1) * (maxy + 1)] floats whose slots from
    [maxx * (maxy + 1)] on still hold the [0.0f] of the [resize],
    whatever the terrain, the radius and the number of blur rounds. *)
Theorem build_never_writes_the_last_slots
    (blurPassesCount : nat) (s : SmoothHeightMesh) :
  mesh s = [] -> 0 <= maxx s -> 0 <= maxy s ->
  exists s',
    MakeSmoothMeshWith blurPassesCount s = Some s' /\
    vsize (mesh s') = (maxx s + 1) * (maxy s + 1) /\
    forall j, maxx s * (maxy s + 1) <= j < (maxx s + 1) * (maxy s + 1) ->
      vget 0%Q (mesh s') j = 0%Q.
Proof.
  intros Hempty Hx Hy.
  destruct (MakeSmoothMeshWith_layout blurPassesCount s Hempty Hx Hy)
    as (s' & cm0 & mr0 & mesh0 & Hc & Hr & Hm & E & Hsz & _ & L).
  cbv zeta in L. destruct L as (_ & _ & Hfr).
  exists s'. split; [exact E|]. split; [exact Hsz|].
  intros j Hj. rewrite Hfr by nia.
  destruct (slidingWindowRows_frame (maxx s) (maxy s) (winSizeOf s)
              (resolution s) (maxy s) cm0 mr0 mesh0) as [_ S2]; [lia|lia|].
  rewrite S2 by nia. eapply vget_resize_nil; eauto. nia.
Qed.


(** X15.  The assertions of [FindRadialMaximum] hold at every row [y]:
    on entry every column maximum of the row window dominates the
    terrain of its column at row [y] (line 163), and the value stored
    for a cell is at least the terrain height at the cell and at most
    the greatest height of the map (lines 170-171). *)
Theorem FindRadialMaximum_assertions_hold
    (maxx maxy winSize : Z) (resolution : Q) (y : Z)
    (cm0 : list Q) (mr0 : list Z) (mesh0 : list Q) :
  0 <= maxx -> 0 <= maxy -> 0 <= winSize ->
  (forall x y, 0 <= x <= maxx -> 0 <= y <= maxy ->
     (lowest < gridHeight resolution x y)%Q) ->
  (forall x y, 0 <= x <= maxx -> 0 <= y <= maxy ->
     (gridHeight resolution x y <= GetCurrMaxHeight)%Q) ->
  vsize cm0 = maxx + 1 -> vsize mr0 = maxx + 1 ->
  vsize mesh0 = (maxx + 1) * (maxy + 1) ->
  (forall x, 0 <= x <= maxx -> vget 0%Q cm0 x = lowest) ->
  0 <= y <= maxy ->
  let before := slidingWindowRows maxx maxy winSize resolution (y - 1)
                  (cm0, mr0, mesh0) in
  let after := slidingWindowRows maxx maxy winSize resolution y
                 (cm0, mr0, mesh0) in
  (forall i, 0 <= i <= maxx ->
     (gridHeight resolution i y <= vget 0%Q (fst (fst before)) i)%Q) /\
  (forall x, 0 <= x < maxx ->
     (gridHeight resolution x y <= vget 0%Q (snd after) (x + y * maxx)
      <= GetCurrMaxHeight)%Q).
Proof.
  intros Hmaxx Hmaxy Hwin Hlow Hmax Hcm Hmr Hmesh Hinit Hy before after.
  split.
  - pose proof (sweep_state maxx maxy winSize resolution Hmaxx Hmaxy Hwin Hlow
                  cm0 mr0 mesh0 Hcm Hmr Hmesh Hinit (y - 1)) as HI.
    fold before in HI. destruct before as [[cm mr] mesh].
    destruct HI as (_ & _ & Hcols & _); [lia|]. simpl.
    intros i Hi. destruct (Hcols i Hi) as [HC _].
    destruct HC as (_ & _ & Hub & _); [lia|]. apply Hub. lia.
  - pose proof (sweep_state maxx maxy winSize resolution Hmaxx Hmaxy Hwin Hlow
                  cm0 mr0 mesh0 Hcm Hmr Hmesh Hinit y) as HI.
    fold after in HI. destruct after as [[cm mr] mesh].
    destruct HI as (_ & _ & _ & Hcells); [lia|]. simpl.
    intros x Hx. destruct (Hcells x y) as (Emax & i & j & E); [lia|lia|].
    split.
    + rewrite Emax. unfold cellWindowMax, trueWindowMax.
      apply Qle_trans
        with (maxOver (Z.max 0 (x - winSize)) (Z.min (maxx - 1) (x + winSize))
                (fun x1 => gridHeight resolution x1 y)).
      * apply (maxOver_ub (fun x1 => gridHeight resolution x1 y)). lia.
      * apply (maxOver_ub
                 (fun y1 =>
                    maxOver (Z.max 0 (x - winSize)) (Z.min (maxx - 1) (x + winSize))
                      (fun x1 => gridHeight resolution x1 y1))). lia.
    + rewrite Emax. unfold cellWindowMax, trueWindowMax.
      assert (Hl : (lowest <= GetCurrMaxHeight)%Q).
      { pose proof (Hlow 0 0). pose proof (Hmax 0 0).
        apply Qle_trans with (gridHeight resolution 0 0); [apply Qlt_le_weak|];
          auto with zarith. }
      apply maxOver_lub; [exact Hl|]. intros y1 Hy1.
      apply maxOver_lub; [exact Hl|]. intros x1 Hx1. apply Hmax; lia.
Qed.

(** ** The blur as a weighted average *)

Lemma sum_loop_shift (f : Z -> Q) n :
  forall lo a,
    (for_up n lo (fun i acc => acc + f i) a
     == a + for_up n lo (fun i acc => acc + f i) 0)%Q.
Proof.
  induction n as [|n IH]; intros lo a; cbn [for_up].
  - ring.
  - rewrite (IH (lo + 1) (a + f lo)%Q), (IH (lo + 1) (0 + f lo)%Q). ring.
Qed.

Lemma for_le_cons {S} (body : Z -> S -> S) lo hi s :
  lo <= hi -> for_le lo hi body s = for_le (lo + 1) hi body (body lo s).
Proof.
  intros H. unfold for_le.
  replace (Z.to_nat (hi - lo + 1)) with (Datatypes.S (Z.to_nat (hi - (lo + 1) + 1)))
    by lia.
  reflexivity.
Qed.

(** The taps the blur applies around a cell, [blurSize] to each side,
    add up to the total of the symmetric kernel. *)
Lemma symmetric_taps (kernel : list Q) c blurSize :
  0 <= blurSize ->
  (for_le (c - blurSize) (c + blurSize)
     (fun i acc => acc + vget 0 kernel (Z.abs (i - c))) 0
   == kernelTotal kernel blurSize)%Q.
Proof.
  intros Hb. pattern blurSize. apply natlike_ind; [| |exact Hb].
  - unfold kernelTotal. rewrite (for_le_empty _ 1 0) by lia.
    rewrite for_le_snoc by lia. rewrite for_le_empty by lia.
    replace (Z.abs (c + 0 - c)) with 0 by lia. ring.
  - intros b Hb0 IH. unfold kernelTotal in *.
    rewrite (for_le_snoc _ 1 (Z.succ b)) by lia.
    replace (Z.succ b - 1) with b by lia.
    rewrite (for_le_snoc _ (c - Z.succ b) (c + Z.succ b)) by lia.
    rewrite (for_le_cons _ (c - Z.succ b) (c + Z.succ b - 1)) by lia.
    replace (c - Z.succ b + 1) with (c - b) by lia.
    replace (c + Z.succ b - 1) with (c + b) by lia.
    unfold for_le at 1. rewrite sum_loop_shift.
    fold (for_le (c - b) (c + b)
            (fun i acc => (acc + vget 0 kernel (Z.abs (i - c)))%Q) 0%Q).
    rewrite IH.
    replace (Z.abs (c - Z.succ b - c)) with (Z.succ b) by lia.
    replace (Z.abs (c + Z.succ b - c)) with (Z.succ b) by lia.
    ring.
Qed.

Lemma weighted_sum_bounds (w v : Z -> Q) (lo hi : Q) n :
  forall i0 a aw,
    (forall i, i0 <= i < i0 + Z.of_nat n ->
       (0 <= w i)%Q /\ (lo <= v i <= hi)%Q) ->
    (lo * aw <= a <= hi * aw)%Q ->
    (lo * for_up n i0 (fun i acc => acc + w i) aw
     <= for_up n i0 (fun i acc => acc + w i * v i) a
     <= hi * for_up n i0 (fun i acc => acc + w i) aw)%Q.
Proof.
  induction n as [|n IH]; intros i0 a aw Hall Ha; cbn [for_up].
  - exact Ha.
  - apply IH.
    + intros i Hi. apply Hall. lia.
    + destruct (Hall i0) as [Hw [Hv1 Hv2]]; [lia|].
      assert (P1 : (0 <= w i0 * (v i0 - lo))%Q) by (apply Qmult_le_0_compat; lra).
      assert (P2 : (0 <= w i0 * (hi - v i0))%Q) by (apply Qmult_le_0_compat; lra).
      split; lra.
Qed.

(** A weighted average with non-negative taps that add up to 1 stays
    within the bounds of the values it reads. *)
Lemma blur_average_between (kernel : list Q) (v : Z -> Q) (lo hi : Q) c blurSize :
  0 <= blurSize ->
  (forall i, 0 <= i <= blurSize -> (0 <= vget 0 kernel i)%Q) ->
  (kernelTotal kernel blurSize == 1)%Q ->
  (forall i, (lo <= v i <= hi)%Q) ->
  (lo <= for_le (c - blurSize) (c + blurSize)
           (fun i acc => acc + vget 0 kernel (Z.abs (i - c)) * v i) 0
      <= hi)%Q.
Proof.
  intros Hb Hk Hone Hv.
  pose proof (weighted_sum_bounds (fun i => vget 0%Q kernel (Z.abs (i - c))) v
                lo hi (Z.to_nat (c + blurSize - (c - blurSize) + 1))
                (c - blurSize) 0%Q 0%Q) as HW.
  fold (for_le (c - blurSize) (c + blurSize)
          (fun i acc => (acc + vget 0 kernel (Z.abs (i - c)))%Q) 0%Q) in HW.
  rewrite (symmetric_taps kernel c blurSize Hb), Hone in HW.
  destruct HW as [H1 H2].
  - intros i Hi. split; [apply Hk; lia|apply Hv].
  - rewrite !Qmult_0_r. split; lra.
  - unfold for_le. split; lra.
Qed.

(** X16.  The blurred average is a convex combination: with a kernel of
    non-negative taps whose symmetric total is 1 (as the build fills
    it), the average [BlurHorizontal] and [BlurVertical] compute for a
    cell lies between the least and the greatest cell of the mesh they
    read; the columns and rows beyond the border count as the border
    cell. *)
Theorem blur_average_stays_within_the_cells
    (maxx maxy blurSize : Z) (kernel mesh : list Q) (lo hi : Q) (x y : Z) :
  0 <= blurSize ->
  (forall i, 0 <= i <= blurSize -> (0 <= vget 0 kernel i)%Q) ->
  (kernelTotal kernel blurSize == 1)%Q ->
  (forall x y, 0 <= x < maxx -> 0 <= y < maxy ->
     (lo <= vget 0 mesh (x + y * maxx) <= hi)%Q) ->
  0 <= x < maxx -> 0 <= y < maxy ->
  (lo <= blurAvgH maxx blurSize kernel mesh x y <= hi)%Q /\
  (lo <= blurAvgV maxx maxy blurSize kernel mesh x y <= hi)%Q.
Proof.
  intros Hb Hk Hone Hcells Hx Hy. split.
  - apply (blur_average_between kernel
             (fun x1 => vget 0%Q mesh (Z.max 0 (Z.min (maxx - 1) x1) + y * maxx)));
      auto.
    intros i. apply Hcells; lia.
  - apply (blur_average_between kernel
             (fun y1 => vget 0%Q mesh (x + Z.max 0 (Z.min (maxy - 1) y1) * maxx)));
      auto.
    intros i. apply Hcells; lia.
Qed.

(** ** Ties between rows of equal height *)

Section TieBreaking.
Variables (maxx maxy winSize : Z) (resolution : Q).
Local Abbreviation gh := (gridHeight resolution).

(** The rescan of [FixRemainingMaxima] for column [x]: no row of the
    range at the height of the result lies after the recorded one. *)
Lemma rescan_last x lo hi s :
  0 <= x <= maxx -> okCols maxx s ->
  let s' :=
    for_le lo hi (fun y1 '(colsMaxima, maximaRows) =>
      let h := GetHeightReal (of_int x * resolution)%Q (of_int y1 * resolution)%Q in
      if Qlt_le_dec (vget 0%Q colsMaxima x) h
      then (vset colsMaxima x h, vset maximaRows x y1)
      else if Qeq_bool (vget 0%Q colsMaxima x) h
      then (colsMaxima, vset maximaRows x y1)
      else (colsMaxima, maximaRows)) s in
  okCols maxx s' /\
  (forall j, j <> x -> col s' j = col s j) /\
  (forall j, lo <= j <= hi -> (gh x j == fst (col s' x))%Q -> j <= snd (col s' x)).
Proof.
  intros Hx Hok s'.
  destruct (Z_lt_le_dec hi lo) as [Hempty|Hne].
  { unfold s'. rewrite for_le_empty by exact Hempty.
    repeat split; auto; try apply Hok. intros; lia. }
  pose (P := fun (k : Z) (t : list Q * list Z) =>
    okCols maxx t /\
    (forall j, j <> x -> col t j = col s j) /\
    (forall j, lo <= j < k -> (gh x j == fst (col t x))%Q -> j <= snd (col t x))).
  assert (HP : P (hi + 1) s').
  { unfold s'. apply for_le_inv; [lia| |].
    - split; auto. split; auto. intros; lia.
    - intros y1 [cm mr] Hy1 (Hokt & Hfr & Hlast). cbv zeta.
      change (GetHeightReal (of_int x * resolution) (of_int y1 * resolution))
        with (gh x y1).
      unfold P.
      destruct (Qlt_le_dec (vget 0%Q cm x) (gh x y1)) as [Hlt|Hge].
      + split; [now apply okCols_vset|]. split.
        * intros j Hj. rewrite col_vset_other by auto. now apply Hfr.
        * rewrite (col_vset_same _ _ _ _ _ maxx) by auto. simpl.
          intros j Hj _. lia.
      + destruct (Qeq_bool (vget 0%Q cm x) (gh x y1)) eqn:He.
        * split; [now apply okCols_vset_r|]. split.
          -- intros j Hj. rewrite <- Hfr by auto. unfold col. simpl.
             now rewrite vget_vset_other by auto.
          -- unfold col. simpl. destruct Hokt as [_ Hmr]. simpl in Hmr.
             rewrite vget_vset_same by lia. intros j Hj _. lia.
        * split; [auto|]. split; [auto|].
          intros j Hj Hq. destruct (Z.eq_dec j y1) as [->|Hne'].
          -- unfold col in Hq. simpl in Hq. symmetry in Hq.
             apply Qeq_bool_iff in Hq. congruence.
          -- apply Hlast; auto. lia. }
  destruct HP as (H1 & H2 & H3). repeat split; auto; try apply H1.
  intros j Hj. apply H3. lia.
Qed.

Lemma FixRemainingMaxima_last y cm :
  okCols maxx cm ->
  forall x, 0 <= x <= maxx ->
    snd (col cm x) <= y - winSize ->
    forall j,
      Z.max 0 (y - winSize + 1) <= j <= Z.min maxy (y + winSize + 1) ->
      (gh x j
       == fst (col (FixRemainingMaxima y maxx maxy winSize resolution cm) x))%Q ->
      j <= snd (col (FixRemainingMaxima y maxx maxy winSize resolution cm) x).
Proof.
  intros Hok.
  pose proof (cols_loop col (okCols maxx)
    (fun (x : Z) (p p' : Q * Z) =>
       snd p <= y - winSize ->
       forall j,
         Z.max 0 (y - winSize + 1) <= j <= Z.min maxy (y + winSize + 1) ->
         (gh x j == fst p')%Q -> j <= snd p')) as HL.
  unfold FixRemainingMaxima. cbv zeta.
  match goal with
  | |- context [for_le 0 maxx ?b cm] =>
      destruct (HL b maxx) with (s := cm) as (_ & H2 & _)
  end.
  - clear HL. intros x [c m] Hx Hokt.
    destruct (Z.leb_spec (vget 0 m x) (y - winSize)) as [Hold|Hin].
    + destruct (rescan_last x (Z.max 0 (y - winSize + 1))
                  (Z.min maxy (y + winSize + 1)) (vset c x lowest, m))
        as (R1 & R2 & R3); auto.
      * now apply okCols_vset_l.
      * split; [exact R1|]. split.
        -- intros j Hj. rewrite R2 by auto. unfold col. simpl.
           now rewrite vget_vset_other by auto.
        -- intros _. exact R3.
    + split; [|split].
      * destruct (y + winSize + 1 <=? maxy); [|exact Hokt].
        destruct (Qlt_le_dec _ _); [now apply okCols_vset|exact Hokt].
      * intros j Hj. destruct (y + winSize + 1 <=? maxy); [|reflexivity].
        destruct (Qlt_le_dec _ _); [now apply col_vset_other|reflexivity].
      * unfold col at 1. simpl. intros Hle. lia.
  - exact Hok.
  - intros x Hx. apply H2; auto.
Qed.

(** A row of the bootstrap: every column keeps the first row at the
    height of its maximum. *)
Lemma boot_row_first y t :
  (forall x y, 0 <= x <= maxx -> 0 <= y <= maxy -> (lowest < gh x y)%Q) ->
  0 <= y <= maxy ->
  okCols maxx t ->
  (forall x, 0 <= x <= maxx ->
     ColPartial resolution x 0 y (fst (col t x)) (snd (col t x)) /\
     forall j, 0 <= j < y -> (gh x j == fst (col t x))%Q -> snd (col t x) <= j) ->
  let t' :=
    for_le 0 maxx (fun x '(colsMaxima, maximaRows) =>
      let curx := (of_int x * resolution)%Q in
      let cury := (of_int y * resolution)%Q in
      let curh := GetHeightReal curx cury in
      if Qlt_le_dec (vget 0%Q colsMaxima x) curh
      then (vset colsMaxima x curh, vset maximaRows x y)
      else (colsMaxima, maximaRows)) t in
  forall x, 0 <= x <= maxx ->
    forall j, 0 <= j < y + 1 -> (gh x j == fst (col t' x))%Q -> snd (col t' x) <= j.
Proof.
  intros Hlow Hy Hok Hcols t'.
  pose proof (cols_loop col (okCols maxx)
    (fun x p p' =>
       (ColPartial resolution x 0 y (fst p) (snd p) /\
        forall j, 0 <= j < y -> (gh x j == fst p)%Q -> snd p <= j) ->
       forall j, 0 <= j < y + 1 -> (gh x j == fst p')%Q -> snd p' <= j)
    (fun x '(colsMaxima, maximaRows) =>
      let curx := (of_int x * resolution)%Q in
      let cury := (of_int y * resolution)%Q in
      let curh := GetHeightReal curx cury in
      if Qlt_le_dec (vget 0%Q colsMaxima x) curh
      then (vset colsMaxima x curh, vset maximaRows x y)
      else (colsMaxima, maximaRows)) maxx) as HL.
  fold t' in HL. destruct (HL) with (s := t) as (_ & H2 & _).
  - intros i [cm mr] Hi Hokt. cbv zeta.
    change (GetHeightReal (of_int i * resolution) (of_int y * resolution))
      with (gh i y).
    destruct (Qlt_le_dec (vget 0%Q cm i) (gh i y)) as [Hlt|Hge].
    + split; [now apply okCols_vset|]. split.
      * intros j Hj. now apply col_vset_other.
      * rewrite (col_vset_same _ _ _ _ _ maxx) by auto. simpl.
        intros [HP _] j Hj Hq.
        destruct (Z.eq_dec j y) as [->|Hne]; [lia|].
        destruct HP as [[Hle _]|[_ (_ & _ & Hub & _)]]; [lia|].
        assert (gh i j <= vget 0%Q cm i)%Q by (apply Hub; lia). lra.
    + split; [auto|]. split; [auto|]. unfold col. simpl.
      intros [HP Hfirst] j Hj Hq.
      destruct (Z.eq_dec j y) as [->|Hne].
      * destruct HP as [[Hle Hc]|[_ (Hr & _)]]; [|lia].
        pose proof (Hlow i y Hi Hy). rewrite Hc in Hq. lra.
      * apply Hfirst; auto. lia.
  - exact Hok.
  - intros x Hx. apply H2; auto.
Qed.

End TieBreaking.

(** X19.  [FindMaximumColumnHeights] breaks ties upwards: started on
    column maxima at the lowest float, it records for every column a
    row of the first window at the height of the column maximum, and no
    earlier row of that window has this height (the comparison of line
    108 is strict). *)
Theorem bootstrap_records_the_first_maximal_row
    (maxx maxy winSize : Z) (resolution : Q) (cm : list Q * list Z) (x j : Z) :
  0 <= maxx -> 0 <= maxy -> 0 <= winSize ->
  (forall x y, 0 <= x <= maxx -> 0 <= y <= maxy ->
     (lowest < gridHeight resolution x y)%Q) ->
  okCols maxx cm ->
  (forall x, 0 <= x <= maxx -> fst (col cm x) = lowest) ->
  0 <= x <= maxx -> 0 <= j <= Z.min maxy winSize ->
  let cm' := FindMaximumColumnHeights maxx maxy winSize resolution cm in
  0 <= snd (col cm' x) <= Z.min maxy winSize /\
  (gridHeight resolution x (snd (col cm' x)) == fst (col cm' x))%Q /\
  (gridHeight resolution x j <= fst (col cm' x))%Q /\
  ((gridHeight resolution x j == fst (col cm' x))%Q -> snd (col cm' x) <= j).
Proof.
  intros Hmaxx Hmaxy Hwin Hlow Hok Hinit Hx Hj cm'.
  pose (P := fun (k : Z) (t : list Q * list Z) =>
    okCols maxx t /\
    forall x, 0 <= x <= maxx ->
      ColPartial resolution x 0 k (fst (col t x)) (snd (col t x)) /\
      forall j, 0 <= j < k ->
        (gridHeight resolution x j == fst (col t x))%Q -> snd (col t x) <= j).
  assert (HP : P (Z.min maxy winSize + 1) cm').
  { unfold cm', FindMaximumColumnHeights. apply for_le_inv; [lia| |].
    - split; auto. intros x0 Hx0. split; [left; split; [lia|auto]|]. intros; lia.
    - intros y t Hy [Hokt Hcols].
      destruct (boot_row_spec maxx maxy resolution Hlow y t) as [B1 B2];
        [lia|exact Hokt|intros x0 Hx0; apply Hcols; exact Hx0|].
      split; [exact B1|]. intros x0 Hx0. split; [now apply B2|].
      apply (boot_row_first maxx maxy resolution y t); auto. lia. }
  destruct HP as [_ H2]. destruct (H2 x Hx) as [[[Hk _]|[_ HI]] Hfirst]; [lia|].
  replace (Z.min maxy winSize + 1 - 1) with (Z.min maxy winSize) in HI by lia.
  destruct HI as (Hr & Hc & Hub & _).
  split; [exact Hr|]. split; [now symmetry|]. split; [now apply Hub|].
  intros Hq. apply Hfirst; [lia|exact Hq].
Qed.

(** X20.  The rescan of [FixRemainingMaxima] breaks ties downwards
    ("if equal, move as far down as possible"): for a column whose
    recorded row has left the window, no row of the next window at the
    height of the new column maximum lies after the row it records. *)
Theorem rescan_records_the_last_maximal_row
    (y maxx maxy winSize : Z) (resolution : Q) (cm : list Q * list Z) (x j : Z) :
  okCols maxx cm -> 0 <= x <= maxx ->
  snd (col cm x) <= y - winSize ->
  Z.max 0 (y - winSize + 1) <= j <= Z.min maxy (y + winSize + 1) ->
  let cm' := FixRemainingMaxima y maxx maxy winSize resolution cm in
  (gridHeight resolution x j == fst (col cm' x))%Q -> j <= snd (col cm' x).
Proof.
  intros Hok Hx Hold Hj cm'. unfold cm'.
  now apply FixRemainingMaxima_last.
Qed.

End Build.

(** ** Edits of single cells *)

Lemma nth_error_upd_other {A} (v : list A) n m a :
  n <> m -> nth_error (upd v n a) m = nth_error v m.
Proof.
  revert n m; induction v as [|h t IH]; intros [|n] [|m] H; simpl; auto; try lia.
Qed.

Lemma vread_vset_other {A} (v : list A) i j a :
  i <> j -> vread (vset v i a) j = vread v j.
Proof.
  unfold vread, vset. intros H.
  destruct (Z.ltb_spec j 0); auto.
  destruct (Z.ltb_spec i 0); auto.
  apply nth_error_upd_other. lia.
Qed.

Lemma upd_same {A} (v : list A) n d :
  upd v n (nth n v d) = v.
Proof.
  revert n; induction v as [|h t IH]; intros [|n]; simpl; auto.
  now rewrite IH.
Qed.

Lemma vset_vget {A} (d : A) (v : list A) i : vset v i (vget d v i) = v.
Proof.
  unfold vset, vget. destruct (i <? 0); auto. apply upd_same.
Qed.

Lemma set_mesh_same s : set_mesh s (mesh s) = s.
Proof. now destruct s. Qed.

Lemma std_max_idem h old : std_max h (std_max h old) = std_max h old.
Proof.
  unfold std_max. destruct (Qlt_le_dec h old) as [H1|H1].
  - destruct (Qlt_le_dec h old); [reflexivity|lra].
  - destruct (Qlt_le_dec h h); [lra|reflexivity].
Qed.

(** C8.  For a valid flat index [i], [AddHeight i h] succeeds, returns
    the new value of cell [i], which is its old value plus [h], and
    leaves every other cell of the mesh as it was; the size of the mesh,
    the grid dimensions, the resolution, the radius, [origMesh] and the
    column buffers are unchanged. *)
Theorem AddHeight_changes_one_cell (s : SmoothHeightMesh) (i : Z) (h : Q) :
  0 <= i < vsize (mesh s) ->
  exists s',
    AddHeight s i h = Some ((vget 0 (mesh s) i + h)%Q, s') /\
    vget 0%Q (mesh s') i = (vget 0 (mesh s) i + h)%Q /\
    (forall j, j <> i -> vread (mesh s') j = vread (mesh s) j) /\
    vsize (mesh s') = vsize (mesh s) /\
    maxx s' = maxx s /\ maxy s' = maxy s /\
    fmaxx s' = fmaxx s /\ fmaxy s' = fmaxy s /\
    resolution s' = resolution s /\ smoothRadius s' = smoothRadius s /\
    origMesh s' = origMesh s /\
    colsMaxima s' = colsMaxima s /\ maximaRows s' = maximaRows s.
Proof.
  intros Hi. unfold AddHeight. rewrite (vread_vget 0%Q) by exact Hi.
  simpl bind. cbv zeta. rewrite vget_vset_same by exact Hi.
  eexists. split; [reflexivity|]. cbn.
  rewrite vget_vset_same by exact Hi. split; [reflexivity|].
  split; [intros j Hj; now apply vread_vset_other|].
  split; [apply vsize_vset|]. repeat split.
Qed.

(** C9.  For a valid flat index [i], [SetMaxHeight i h] succeeds, sets
    cell [i] to [std::max (h, old)], numerically the maximum of [h] and
    the old value, and returns it; the cell never decreases; a second
    call with the same [h] returns the same value and leaves the object
    as the first call left it; and when [h <= old] every cell keeps its
    numeric value (the object is untouched when [h < old]). *)
Theorem SetMaxHeight_is_a_running_maximum (s : SmoothHeightMesh) (i : Z) (h : Q) :
  0 <= i < vsize (mesh s) ->
  let old := vget 0%Q (mesh s) i in
  exists s',
    SetMaxHeight s i h = Some (std_max h old, s') /\
    vget 0%Q (mesh s') i = std_max h old /\
    (std_max h old == Qmax h old)%Q /\
    (old <= vget 0%Q (mesh s') i)%Q /\
    (forall j, j <> i -> vread (mesh s') j = vread (mesh s) j) /\
    SetMaxHeight s' i h = Some (std_max h old, s') /\
    ((h <= old)%Q ->
       vsize (mesh s') = vsize (mesh s) /\
       forall j, (vget 0%Q (mesh s') j == vget 0%Q (mesh s) j)%Q) /\
    ((h < old)%Q -> s' = s).
Proof.
  intros Hi old. unfold SetMaxHeight.
  rewrite (vread_vget 0%Q) by exact Hi. simpl bind. cbv zeta.
  fold old. rewrite vget_vset_same by exact Hi.
  eexists. split; [reflexivity|]. cbn.
  rewrite vget_vset_same by exact Hi.
  split; [reflexivity|]. split; [apply std_max_spec|].
  split; [apply std_max_ge_r|].
  split; [intros j Hj; now apply vread_vset_other|].
  split.
  { rewrite (vread_vget 0%Q) by (rewrite vsize_vset; exact Hi).
    simpl bind. rewrite (vget_vset_same 0%Q (mesh s)) by exact Hi.
    rewrite std_max_idem, vset_vset.
    rewrite vget_vset_same by exact Hi. reflexivity. }
  split.
  - intros Hle. split; [apply vsize_vset|]. intros j.
    destruct (Z.eq_dec j i) as [->|Hne].
    + rewrite vget_vset_same by exact Hi. fold old.
      unfold std_max. destruct (Qlt_le_dec h old); lra.
    + rewrite vget_vset_other by auto. reflexivity.
  - intros Hlt. unfold std_max. destruct (Qlt_le_dec h old); [|lra].
    unfold old. rewrite vset_vget. apply set_mesh_same.
Qed.

(** ** Queries *)

Lemma Clamp_range v lo hi :
  (lo <= hi)%Q -> (lo <= Clamp v lo hi <= hi)%Q.
Proof.
  intros H. unfold Clamp, std_min, std_max.
  destruct (Qlt_le_dec lo v); destruct (Qlt_le_dec _ hi); lra.
Qed.

Lemma Clamp_below v lo hi :
  (lo <= hi)%Q -> (v <= lo)%Q -> (Clamp v lo hi == lo)%Q.
Proof.
  intros H Hv. unfold Clamp, std_min, std_max.
  destruct (Qlt_le_dec lo v); destruct (Qlt_le_dec _ hi); lra.
Qed.

Lemma Clamp_above v lo hi :
  (lo <= hi)%Q -> (hi <= v)%Q -> (Clamp v lo hi == hi)%Q.
Proof.
  intros H Hv. unfold Clamp, std_min, std_max.
  destruct (Qlt_le_dec lo v); destruct (Qlt_le_dec _ hi); lra.
Qed.

Lemma Clamp_inside v lo hi :
  (lo <= v <= hi)%Q -> (Clamp v lo hi == v)%Q.
Proof.
  intros H. unfold Clamp, std_min, std_max.
  destruct (Qlt_le_dec lo v); destruct (Qlt_le_dec _ hi); lra.
Qed.

Lemma Clamp_compat v v' lo hi :
  (lo <= hi)%Q -> (v == v')%Q -> (Clamp v lo hi == Clamp v' lo hi)%Q.
Proof.
  intros H E.
  destruct (Qlt_le_dec v lo) as [H1|H1].
  - rewrite !Clamp_below by lra. reflexivity.
  - destruct (Qlt_le_dec hi v) as [H2|H2].
    + rewrite !Clamp_above by lra. reflexivity.
    + rewrite !Clamp_inside by lra. exact E.
Qed.

Lemma of_int_pred n : (of_int n - 1 == of_int (n - 1))%Q.
Proof.
  unfold of_int, Z.sub. rewrite inject_Z_plus, inject_Z_opp. reflexivity.
Qed.

Lemma of_int_pred_nonneg n : 1 <= n -> (0 <= of_int n - 1)%Q.
Proof.
  intros H. rewrite of_int_pred. unfold of_int.
  change 0%Q with (inject_Z 0). rewrite <- Zle_Qle. lia.
Qed.

Lemma gridPos_range x maxx res :
  1 <= maxx -> (0 <= gridPos x maxx res <= of_int maxx - 1)%Q.
Proof.
  intros H. apply Clamp_range. now apply of_int_pred_nonneg.
Qed.

Lemma to_int_range q n :
  (0 <= q <= of_int n - 1)%Q -> 0 <= to_int q <= n - 1.
Proof.
  intros [H0 H1]. rewrite to_int_nonneg by exact H0. split.
  - assert (Hf : Qfloor 0 <= Qfloor q) by now apply Qfloor_resp_le.
    exact Hf.
  - rewrite <- (Qfloor_Z (n - 1)). apply Qfloor_resp_le.
    rewrite of_int_pred in H1. exact H1.
Qed.

Lemma to_int_compat q q' :
  (0 <= q)%Q -> (q == q')%Q -> to_int q = to_int q'.
Proof.
  intros H E. rewrite !to_int_nonneg by lra. now rewrite E.
Qed.

Lemma mesh_not_empty s :
  vsize (mesh s) = (maxx s + 1) * (maxy s + 1) -> 1 <= maxx s -> 1 <= maxy s ->
  isEmpty (mesh s) = false.
Proof.
  unfold vsize. destruct (mesh s); simpl; [nia|reflexivity].
Qed.

(** On a built mesh every read of [Interpolate] is in bounds and the
    result is the value of the unchecked reads. *)
Lemma Interpolate_built x y maxx maxy res heightmap :
  vsize heightmap = (maxx + 1) * (maxy + 1) -> 1 <= maxx -> 1 <= maxy ->
  Forall (fun i => 0 <= i < vsize heightmap) (InterpolateReads x y maxx maxy res) /\
  Interpolate x y maxx maxy res heightmap
  = Some (interpolateAt (gridPos x maxx res) (gridPos y maxy res)
            maxx maxy heightmap).
Proof.
  intros Hsz Hx Hy.
  pose proof (to_int_range _ _ (gridPos_range x maxx res Hx)) as Hsx.
  pose proof (to_int_range _ _ (gridPos_range y maxy res Hy)) as Hsy.
  assert (HF : Forall (fun i => 0 <= i < vsize heightmap)
                 (InterpolateReads x y maxx maxy res)).
  { unfold InterpolateReads. cbv zeta. rewrite Hsz.
    repeat constructor; nia. }
  split; [exact HF|].
  unfold InterpolateReads in HF. cbv zeta in HF.
  inversion HF as [|? ? F1 HF1]; subst. inversion HF1 as [|? ? F2 HF2]; subst.
  inversion HF2 as [|? ? F3 HF3]; subst. inversion HF3 as [|? ? F4 _]; subst.
  unfold Interpolate, interpolateAt. cbv zeta. fold (gridPos x maxx res).
  fold (gridPos y maxy res).
  rewrite !(vread_vget 0%Q) by assumption. reflexivity.
Qed.

(** C10.  On a built mesh ([(maxx + 1) * (maxy + 1)] elements,
    [maxx >= 1], [maxy >= 1]) and for every query coordinate, the cell
    indices of the query satisfy [0 <= sx, sxp1 <= maxx - 1] and
    [0 <= sy, syp1 <= maxy - 1], every flat index [Interpolate] reads is
    within the mesh array, and both [GetHeight] and
    [GetHeightAboveWater] return a value. *)
Theorem queries_read_within_bounds (s : SmoothHeightMesh) (x z : Q) :
  vsize (mesh s) = (maxx s + 1) * (maxy s + 1) ->
  1 <= maxx s -> 1 <= maxy s ->
  let sx := to_int (gridPos x (maxx s) (resolution s)) in
  let sy := to_int (gridPos z (maxy s) (resolution s)) in
  let sxp1 := Z.min (sx + 1) (maxx s - 1) in
  let syp1 := Z.min (sy + 1) (maxy s - 1) in
  (0 <= sx <= maxx s - 1 /\ 0 <= sxp1 <= maxx s - 1 /\
   0 <= sy <= maxy s - 1 /\ 0 <= syp1 <= maxy s - 1) /\
  InterpolateReads x z (maxx s) (maxy s) (resolution s)
  = [sx + sy * maxx s; sxp1 + sy * maxx s;
     sx + syp1 * maxx s; sxp1 + syp1 * maxx s] /\
  Forall (fun i => 0 <= i < vsize (mesh s))
    (InterpolateReads x z (maxx s) (maxy s) (resolution s)) /\
  (exists v, GetHeight s x z = Some v) /\
  (exists w, GetHeightAboveWater s x z = Some w).
Proof.
  intros Hsz Hx Hy sx sy sxp1 syp1.
  pose proof (to_int_range _ _ (gridPos_range x (maxx s) (resolution s) Hx)) as Hsx.
  pose proof (to_int_range _ _ (gridPos_range z (maxy s) (resolution s) Hy)) as Hsy.
  destruct (Interpolate_built x z (maxx s) (maxy s) (resolution s) (mesh s)
              Hsz Hx Hy) as [HF HI].
  split; [unfold sxp1, syp1, sx, sy; lia|].
  split; [reflexivity|]. split; [exact HF|].
  unfold GetHeight, GetHeightAboveWater.
  rewrite (mesh_not_empty s Hsz Hx Hy), HI. simpl bind. eauto.
Qed.


Lemma nearestInRange_inside x maxx res :
  (0 <= x <= (of_int maxx - 1) * res)%Q -> (nearestInRange x maxx res == x)%Q.
Proof.
  intros H. now apply Clamp_inside.
Qed.


Lemma interpolateAt_compat gx gy gx' gy' maxx maxy heightmap :
  (0 <= gx)%Q -> (0 <= gy)%Q -> (gx == gx')%Q -> (gy == gy')%Q ->
  (interpolateAt gx gy maxx maxy heightmap
   == interpolateAt gx' gy' maxx maxy heightmap)%Q.
Proof.
  intros Hx Hy Ex Ey. unfold interpolateAt. cbv zeta.
  rewrite <- (to_int_compat gx gx' Hx Ex), <- (to_int_compat gy gy' Hy Ey).
  unfold mix. rewrite <- Ex, <- Ey. reflexivity.
Qed.



(** A query at the grid point of cell [(x, y)] returns the mesh value at
    flat index [x + y * maxx]. *)
Lemma GetHeight_at_grid_point (s : SmoothHeightMesh) (x y : Z) :
  vsize (mesh s) = (maxx s + 1) * (maxy s + 1) ->
  1 <= maxx s -> 1 <= maxy s -> (0 < resolution s)%Q ->
  0 <= x < maxx s -> 0 <= y < maxy s ->
  exists v,
    GetHeight s (of_int x * resolution s) (of_int y * resolution s) = Some v /\
    (v == vget 0 (mesh s) (x + y * maxx s))%Q.
Proof.
  intros Hsz Hx Hy Hres Hx0 Hy0.
  unfold GetHeight. rewrite (mesh_not_empty s Hsz Hx Hy).
  destruct (Interpolate_built (of_int x * resolution s) (of_int y * resolution s)
              (maxx s) (maxy s) (resolution s) (mesh s) Hsz Hx Hy) as [_ ->].
  eexists. split; [reflexivity|].
  assert (Hpos : forall n m, 0 <= n < m ->
            (gridPos (of_int n * resolution s) m (resolution s) == of_int n)%Q).
  { intros n m Hn. unfold gridPos.
    assert (E : (of_int n * resolution s / resolution s == of_int n)%Q)
      by (apply Qdiv_mult_l; lra).
    rewrite (Clamp_compat _ (of_int n)) by (try exact E; apply of_int_pred_nonneg; lia).
    apply Clamp_inside. rewrite of_int_pred. unfold of_int.
    change 0%Q with (inject_Z 0). rewrite <- !Zle_Qle. lia. }
  assert (Hge : forall n, 0 <= n -> (0 <= of_int n)%Q).
  { intros n Hn. unfold of_int. change 0%Q with (inject_Z 0).
    rewrite <- Zle_Qle. exact Hn. }
  rewrite (interpolateAt_compat _ _ (of_int x) (of_int y)).
  - unfold interpolateAt. cbv zeta.
    assert (Ht : forall n, to_int (of_int n) = n).
    { intros n. unfold to_int, of_int. simpl. apply Z.quot_1_r. }
    rewrite !Ht. unfold mix. ring.
  - rewrite Hpos by lia. apply Hge. lia.
  - rewrite Hpos by lia. apply Hge. lia.
  - apply Hpos. lia.
  - apply Hpos. lia.
Qed.

(** C4.  In a mesh with [maxx = maxy = 2] the cell [(0, 1)] is not at
    flat index [0 + 1 * (maxx + 1) = 3]: the query at its grid point
    returns the value at index [0 + 1 * maxx = 2], and the build passes
    write row 1 from index 2 on ([FindRadialMaximum]) and blur it there
    ([BlurHorizontal], which leaves the indices [maxx * maxy ..] alone). *)
Theorem cells_are_addressed_with_stride_maxx :
  vsize (mesh sampleMesh) = (maxx sampleMesh + 1) * (maxy sampleMesh + 1) /\
  GetHeight sampleMesh 0 1 = Some 12%Q /\
  vget 0%Q (mesh sampleMesh) (0 + 1 * maxx sampleMesh) = 12%Q /\
  vget 0%Q (mesh sampleMesh) (0 + 1 * (maxx sampleMesh + 1)) = 13%Q /\
  FindRadialMaximum 1 2 0 1 [5; 6; 7]%Q (repeat 0%Q 9)
  = [0; 0; 5; 6; 0; 0; 0; 0; 0]%Q /\
  map Qred
    (BlurHorizontal flatField 0 100 2 2 1 1 [1 # 2; 1 # 4]%Q
       (mesh sampleMesh) (repeat 0%Q 9))
  = [41 # 4; 43 # 4; 49 # 4; 51 # 4; 0; 0; 0; 0; 0]%Q.
Proof.
  repeat split; vm_compute; reflexivity.
Qed.

(** ** The last column and the last row of the grid *)

(** C1.  The radial maximum stops one column short of the grid.  With
    [maxx = maxy = 2], [winSize = 1], resolution 1 and a terrain that is
    0 but for a spike of 50 at the grid point [(2, 1)], the pass keeps
    the maximum of column [maxx = 2] (50 after row 0, over the rows
    [[0, 2]]), yet the value it stores for the cell [(1, 1)], whose
    window [[0, 2] x [0, 2]] holds the spike, is 0 and not 50:
    [FindRadialMaximum] reads the column maxima up to [maxx - 1]. *)
Theorem window_stops_before_column_maxx :
  let row0 := slidingWindowRows edgeSpikeField 2 2 1 1 0 freshBuffers in
  let row1 := slidingWindowRows edgeSpikeField 2 2 1 1 1 freshBuffers in
  vget 0%Q (fst (fst row0)) 2 = 50%Q /\
  (trueColumnMax edgeSpikeField 1 2 0 2 == 50)%Q /\
  vget 0%Q (snd row1) (1 + 1 * 2) = 0%Q /\
  (specWindowMax edgeSpikeField 2 2 1 1 1 1 == 50)%Q /\
  (cellWindowMax edgeSpikeField 2 2 1 1 1 1 == 0)%Q.
Proof.
  repeat split; vm_compute; reflexivity.
Qed.

(** C2.  The blur passes skip the last row.  On the flat terrain 7 with
    [maxx = maxy = 2] and [winSize = 1], the sliding-window pass stores
    7 in the rows 0, 1 and 2; the first [BlurHorizontal] writes the rows
    0 and 1 of the other buffer, and after the swap the cell [(0, 2)] of
    the mesh holds the 0 of [origMesh.resize], below the terrain height
    7 and outside [[7, 7]]; the [BlurVertical] that follows writes the
    first buffer, whose row 2 is as the sliding-window pass left it. *)
Theorem blur_skips_row_maxy :
  let swept := snd (slidingWindowRows flatSeven 2 2 1 1 2 freshBuffers) in
  exists kernel,
    fillGaussianKernelFunc expfSample 1 [] gSigma = Some kernel /\
    let h := BlurHorizontal flatSeven 7 7 2 2 1 1 kernel swept (repeat 0%Q 9) in
    let v := BlurVertical flatSeven 7 7 2 2 1 1 kernel h swept in
    swept = [7; 7; 7; 7; 7; 7; 0; 0; 0]%Q /\
    h = [7; 7; 7; 7; 0; 0; 0; 0; 0]%Q /\
    gridHeight flatSeven 1 0 2 = 7%Q /\
    vget 0%Q h (0 + 2 * 2) = 0%Q /\
    v = [7; 7; 7; 7; 7; 7; 0; 0; 0]%Q.
Proof.
  eexists. split; [vm_compute; reflexivity|].
  repeat split; vm_compute; reflexivity.
Qed.

(** C5.  A flat terrain does not give a flat array.  [Init (1, 1, 1, 1)]
    on the flat terrain 7 builds a mesh with [maxx = maxy = 2] and nine
    floats, of which the last [maxy + 1 = 3] are 0 and not 7: the passes
    address the cell [(x, y)] at [x + y * maxx] for [x < maxx], so the
    slots from [maxx * (maxy + 1)] on are never written. *)
Theorem flat_build_leaves_the_last_slots_at_zero :
  exists s',
    Init flatSeven 7 7 expfSample 1 1 1 1 emptyMesh = Some s' /\
    maxx s' = 2 /\ maxy s' = 2 /\
    vsize (mesh s') = (maxx s' + 1) * (maxy s' + 1) /\
    mesh s' = [7; 7; 7; 7; 7; 7; 0; 0; 0]%Q.
Proof.
  eexists. split; [vm_compute; reflexivity|].
  repeat split; vm_compute; reflexivity.
Qed.

(** ** Instances *)

Lemma Qsquare_nonneg a : (0 <= a * a)%Q.
Proof.
  destruct (Qlt_le_dec a 0) as [H|H].
  - setoid_replace (a * a)%Q with ((- a) * (- a))%Q by ring.
    apply Qmult_le_0_compat; lra.
  - now apply Qmult_le_0_compat.
Qed.

Lemma expfSample_pos q : (0 < expfSample q)%Q.
Proof.
  unfold expfSample.
  pose proof (Qsquare_nonneg (q + 3)) as S1.
  pose proof (Qsquare_nonneg (q - 3)) as S2.
  assert (H1 : (0 < 1 + (1 # 2) * q + (1 # 12) * q * q)%Q) by lra.
  assert (H2 : (0 < 1 - (1 # 2) * q + (1 # 12) * q * q)%Q) by lra.
  apply Qlt_shift_div_l; [exact H2|]. lra.
Qed.

Lemma spikeField_above_lowest x y :
  (lowest < gridHeight spikeField 1 x y)%Q.
Proof.
  unfold gridHeight, spikeField.
  destruct (Qeq_bool _ _ && Qeq_bool _ _); reflexivity.
Qed.

Lemma sliding_window_maxima_witness :
  let st := slidingWindowRows spikeField 2 2 1 1 1
              ([lowest; lowest; lowest], [-1; -1; -1], repeat 0%Q 9) in
  (forall x, 0 <= x <= 2 ->
     (vget 0%Q (fst (fst st)) x
      == trueColumnMax spikeField 1 x (Z.max 0 (1 - 1 + 1)) (Z.min 2 (1 + 1 + 1)))%Q) /\
  (forall x y, 0 <= x < 2 -> 0 <= y <= 1 ->
     (vget 0%Q (snd st) (x + y * 2) == cellWindowMax spikeField 2 2 1 1 x y)%Q).
Proof.
  apply (sliding_window_maxima spikeField 2 2 1 1 1
           [lowest; lowest; lowest] [-1; -1; -1] (repeat 0%Q 9));
    try lia; try reflexivity.
  - intros x y _ _. apply spikeField_above_lowest.
  - intros x Hx.
    assert (Hc : x = 0 \/ x = 1 \/ x = 2) by lia.
    destruct Hc as [->|[->| ->]]; reflexivity.
Defined.

Lemma blur_stores_clamped_maximum_witness :
  let h := vget 0%Q
             (BlurHorizontal spikeField 0 100 2 2 1 1 [1 # 2; 1 # 4]%Q
                (mesh sampleMesh) (repeat 0%Q 9)) (1 + 1 * 2) in
  let v := vget 0%Q
             (BlurVertical spikeField 0 100 2 2 1 1 [1 # 2; 1 # 4]%Q
                (mesh sampleMesh) (repeat 0%Q 9)) (1 + 1 * 2) in
  (h = std_clamp
         (std_max (gridHeight spikeField 1 1 1)
            (blurAvgH 2 1 [1 # 2; 1 # 4]%Q (mesh sampleMesh) 1 1)) 0 100 /\
   (gridHeight spikeField 1 1 1 <= h)%Q /\ (0 <= h <= 100)%Q) /\
  (v = std_clamp
         (std_max (gridHeight spikeField 1 1 1)
            (blurAvgV 2 2 1 [1 # 2; 1 # 4]%Q (mesh sampleMesh) 1 1)) 0 100 /\
   (gridHeight spikeField 1 1 1 <= v)%Q /\ (0 <= v <= 100)%Q).
Proof.
  apply (blur_stores_clamped_maximum spikeField 0 100 2 2 1 1
           [1 # 2; 1 # 4]%Q (mesh sampleMesh) (repeat 0%Q 9) 1 1);
    try lia.
  - vm_compute. discriminate.
  - vm_compute. discriminate.
  - vm_compute. discriminate.
Defined.

Lemma gaussian_kernel_normalised_witness :
  exists kernel total,
    fillGaussianKernelFunc expfSample 2 [] gSigma = Some kernel /\
    vsize kernel = 2 + 1 /\
    (0 < total)%Q /\
    (forall i, 0 <= i <= 2 ->
       (vget 0 kernel i * total
        == (3989422804 # 10000000000)
           * expfSample (- (1 # 2) * of_int i * of_int i / (gSigma * gSigma))
           / gSigma)%Q /\
       (0 < vget 0 kernel i)%Q) /\
    (kernelTotal kernel 2 == 1)%Q.
Proof.
  apply (gaussian_kernel_normalised expfSample 2 gSigma).
  - exact expfSample_pos.
  - reflexivity.
  - lia.
Defined.

Lemma flat_field_stays_flat_witness :
  exists s',
    MakeSmoothMeshWith (fun _ _ => 7%Q) 7 7 expfSample 2 sampleConfig = Some s' /\
    forall x y, 0 <= x < maxx sampleConfig -> 0 <= y <= maxy sampleConfig ->
      vget 0%Q (mesh s') (x + y * maxx sampleConfig) = 7%Q.
Proof.
  apply (flat_field_stays_flat (fun _ _ => 7%Q) 7 7 expfSample 7 2 sampleConfig);
    try reflexivity; try (simpl; lia).
  vm_compute. discriminate.
Defined.




Lemma AddHeight_changes_one_cell_witness :
  exists s',
    AddHeight sampleMesh 4 (1 # 2) = Some ((vget 0 (mesh sampleMesh) 4 + (1 # 2))%Q, s') /\
    (forall j, j <> 4 -> vread (mesh s') j = vread (mesh sampleMesh) j) /\
    origMesh s' = origMesh sampleMesh.
Proof.
  destruct (AddHeight_changes_one_cell sampleMesh 4 (1 # 2))
    as (s' & E & _ & Hfr & _ & _ & _ & _ & _ & _ & _ & Ho & _).
  - vm_compute. split; [discriminate|reflexivity].
  - exists s'. split; [exact E|]. split; [exact Hfr|exact Ho].
Defined.

Lemma SetMaxHeight_is_a_running_maximum_witness :
  exists s',
    SetMaxHeight sampleMesh 4 20 = Some (std_max 20 (vget 0%Q (mesh sampleMesh) 4), s') /\
    (vget 0%Q (mesh sampleMesh) 4 <= vget 0%Q (mesh s') 4)%Q /\
    SetMaxHeight s' 4 20 = Some (std_max 20 (vget 0%Q (mesh sampleMesh) 4), s').
Proof.
  destruct (SetMaxHeight_is_a_running_maximum sampleMesh 4 20)
    as (s' & E & _ & _ & Hge & _ & Hidem & _).
  - vm_compute. split; [discriminate|reflexivity].
  - exists s'. split; [exact E|]. split; [exact Hge|exact Hidem].
Defined.

Lemma queries_read_within_bounds_witness :
  Forall (fun i => 0 <= i < vsize (mesh sampleMesh))
    (InterpolateReads 5 (-3 # 1) 2 2 1) /\
  (exists v, GetHeight sampleMesh 5 (-3 # 1) = Some v) /\
  (exists w, GetHeightAboveWater sampleMesh 5 (-3 # 1) = Some w).
Proof.
  destruct (queries_read_within_bounds sampleMesh 5 (-3 # 1))
    as (_ & _ & HF & Hg & Hw); try reflexivity.
  - simpl. lia.
  - simpl. lia.
  - split; [exact HF|]. split; [exact Hg|exact Hw].
Defined.

(** * Further properties of the mesh object *)

(** ** Edits *)

Lemma upd_comm {A} (v : list A) n m a b :
  n <> m -> upd (upd v n a) m b = upd (upd v m b) n a.
Proof.
  revert n m; induction v as [|h t IH]; intros [|n] [|m] H; simpl; auto; try lia.
  f_equal. apply IH. lia.
Qed.

Lemma vset_comm {A} (v : list A) i j a b :
  i <> j -> vset (vset v i a) j b = vset (vset v j b) i a.
Proof.
  intros H. unfold vset.
  destruct (Z.ltb_spec i 0); destruct (Z.ltb_spec j 0); auto.
  apply upd_comm. lia.
Qed.

(** The three edits, on a valid index, as one store each. *)
Lemma SetHeight_eq s i h :
  0 <= i < vsize (mesh s) ->
  SetHeight s i h = Some (h, set_mesh s (vset (mesh s) i h)).
Proof.
  intros Hi. unfold SetHeight. rewrite (vread_vget 0%Q) by exact Hi.
  simpl bind. cbv zeta. now rewrite vget_vset_same by exact Hi.
Qed.

Lemma AddHeight_eq s i h :
  0 <= i < vsize (mesh s) ->
  AddHeight s i h
  = Some ((vget 0 (mesh s) i + h)%Q,
          set_mesh s (vset (mesh s) i (vget 0 (mesh s) i + h)%Q)).
Proof.
  intros Hi. unfold AddHeight. rewrite (vread_vget 0%Q) by exact Hi.
  simpl bind. cbv zeta. now rewrite vget_vset_same by exact Hi.
Qed.

Lemma SetMaxHeight_eq s i h :
  0 <= i < vsize (mesh s) ->
  SetMaxHeight s i h
  = Some (std_max h (vget 0%Q (mesh s) i),
          set_mesh s (vset (mesh s) i (std_max h (vget 0%Q (mesh s) i)))).
Proof.
  intros Hi. unfold SetMaxHeight. rewrite (vread_vget 0%Q) by exact Hi.
  simpl bind. cbv zeta. now rewrite vget_vset_same by exact Hi.
Qed.

Lemma vsize_set_mesh_vset s i a :
  vsize (mesh (set_mesh s (vset (mesh s) i a))) = vsize (mesh s).
Proof. cbn. apply vsize_vset. Qed.

(** X1.  For a valid flat index [i], [SetHeight i h] succeeds, returns
    [h], leaves cell [i] at [h] and every other cell and every other
    field of the object as it was; a later [SetHeight i h'] wins: the
    object is the one [SetHeight i h'] alone gives. *)
Theorem SetHeight_overwrites_one_cell (s : SmoothHeightMesh) (i : Z) (h h' : Q) :
  0 <= i < vsize (mesh s) ->
  exists s1 s2,
    SetHeight s i h = Some (h, s1) /\
    vget 0%Q (mesh s1) i = h /\
    (forall j, j <> i -> vread (mesh s1) j = vread (mesh s) j) /\
    vsize (mesh s1) = vsize (mesh s) /\
    maxx s1 = maxx s /\ maxy s1 = maxy s /\
    resolution s1 = resolution s /\ smoothRadius s1 = smoothRadius s /\
    origMesh s1 = origMesh s /\
    SetHeight s1 i h' = Some (h', s2) /\
    SetHeight s i h' = Some (h', s2).
Proof.
  intros Hi.
  exists (set_mesh s (vset (mesh s) i h)), (set_mesh s (vset (mesh s) i h')).
  split; [now apply SetHeight_eq|]. cbn.
  split; [now apply vget_vset_same|].
  split; [intros j Hj; now apply vread_vset_other|].
  split; [apply vsize_vset|]. do 5 (split; [reflexivity|]).
  split; [|now apply SetHeight_eq].
  rewrite SetHeight_eq by (rewrite vsize_set_mesh_vset; exact Hi).
  cbn. now rewrite vset_vset.
Qed.




(** X4.  Edits of two different cells commute: [AddHeight i a] followed
    by [SetMaxHeight j b] leaves the object that [SetMaxHeight j b]
    followed by [AddHeight i a] leaves, and each call returns the same
    value in both orders. *)
Theorem edits_of_distinct_cells_commute (s : SmoothHeightMesh) (i j : Z) (a b : Q) :
  0 <= i < vsize (mesh s) -> 0 <= j < vsize (mesh s) -> i <> j ->
  exists va sa vb sab sb,
    AddHeight s i a = Some (va, sa) /\
    SetMaxHeight sa j b = Some (vb, sab) /\
    SetMaxHeight s j b = Some (vb, sb) /\
    AddHeight sb i a = Some (va, sab).
Proof.
  intros Hi Hj Hij.
  pose proof (AddHeight_eq s i a Hi) as Ha.
  pose proof (SetMaxHeight_eq s j b Hj) as Hb.
  set (sa := set_mesh s (vset (mesh s) i (vget 0 (mesh s) i + a)%Q)) in *.
  set (sb := set_mesh s (vset (mesh s) j (std_max b (vget 0%Q (mesh s) j)))) in *.
  assert (Hja : 0 <= j < vsize (mesh sa))
    by (unfold sa; rewrite vsize_set_mesh_vset; exact Hj).
  assert (Hib : 0 <= i < vsize (mesh sb))
    by (unfold sb; rewrite vsize_set_mesh_vset; exact Hi).
  pose proof (SetMaxHeight_eq sa j b Hja) as Hab.
  pose proof (AddHeight_eq sb i a Hib) as Hba.
  assert (Eb : vget 0%Q (mesh sa) j = vget 0%Q (mesh s) j)
    by (unfold sa; cbn; now apply vget_vset_other).
  assert (Ea : vget 0%Q (mesh sb) i = vget 0%Q (mesh s) i)
    by (unfold sb; cbn; apply vget_vset_other; auto).
  rewrite Eb in Hab. rewrite Ea in Hba.
  do 5 eexists.
  split; [exact Ha|]. split; [exact Hab|]. split; [exact Hb|].
  rewrite Hba. unfold sa, sb. cbn.
  now rewrite (vset_comm (mesh s) i j) by exact Hij.
Qed.

(** ** Queries *)

(** X5.  On a built mesh [GetHeightAboveWater] returns the value of
    [GetHeight] floored at 0: never negative, never below [GetHeight],
    equal to it when it is not negative and 0 otherwise. *)
Theorem GetHeightAboveWater_floors_at_zero (s : SmoothHeightMesh) (x z : Q) :
  vsize (mesh s) = (maxx s + 1) * (maxy s + 1) ->
  1 <= maxx s -> 1 <= maxy s ->
  exists v w,
    GetHeight s x z = Some v /\
    GetHeightAboveWater s x z = Some w /\
    (0 <= w)%Q /\ (v <= w)%Q /\ (w == Qmax 0 v)%Q /\
    ((0 <= v)%Q -> (w == v)%Q) /\
    ((v <= 0)%Q -> (w == 0)%Q).
Proof.
  intros Hsz Hx Hy.
  destruct (Interpolate_built x z (maxx s) (maxy s) (resolution s) (mesh s)
              Hsz Hx Hy) as [_ HI].
  unfold GetHeight, GetHeightAboveWater.
  rewrite (mesh_not_empty s Hsz Hx Hy), HI. simpl bind.
  do 2 eexists. split; [reflexivity|]. split; [reflexivity|].
  split; [apply std_max_ge_l|]. split; [apply std_max_ge_r|].
  split; [apply std_max_spec|].
  split; intros H; unfold std_max; destruct (Qlt_le_dec 0 _); lra.
Qed.

Lemma mix_between a b t lo hi :
  (lo <= a <= hi)%Q -> (lo <= b <= hi)%Q -> (0 <= t <= 1)%Q ->
  (lo <= mix a b t <= hi)%Q.
Proof.
  intros [Ha1 Ha2] [Hb1 Hb2] [Ht1 Ht2]. unfold mix.
  assert (P1 : (0 <= (a - lo) * (1 - t))%Q) by (apply Qmult_le_0_compat; lra).
  assert (P2 : (0 <= (b - lo) * t)%Q) by (apply Qmult_le_0_compat; lra).
  assert (P3 : (0 <= (hi - a) * (1 - t))%Q) by (apply Qmult_le_0_compat; lra).
  assert (P4 : (0 <= (hi - b) * t)%Q) by (apply Qmult_le_0_compat; lra).
  split; lra.
Qed.

Lemma frac_range q :
  (0 <= q)%Q -> (0 <= q - of_int (to_int q) <= 1)%Q.
Proof.
  intros H. rewrite to_int_nonneg by exact H. unfold of_int.
  pose proof (Qfloor_le q). pose proof (Qlt_floor q) as Hlt.
  rewrite inject_Z_plus in Hlt. change (inject_Z 1) with 1%Q in Hlt.
  split; lra.
Qed.

(** The four reads of [Interpolate] stay below [maxx * maxy]. *)
Lemma InterpolateReads_below x y maxx maxy res :
  1 <= maxx -> 1 <= maxy ->
  Forall (fun i => 0 <= i < maxx * maxy) (InterpolateReads x y maxx maxy res).
Proof.
  intros Hx Hy.
  pose proof (to_int_range _ _ (gridPos_range x maxx res Hx)) as Hsx.
  pose proof (to_int_range _ _ (gridPos_range y maxy res Hy)) as Hsy.
  unfold InterpolateReads. cbv zeta. repeat constructor; nia.
Qed.

Lemma GetHeight_between (s : SmoothHeightMesh) (lo hi x z : Q) :
  vsize (mesh s) = (maxx s + 1) * (maxy s + 1) ->
  1 <= maxx s -> 1 <= maxy s ->
  (forall i, 0 <= i < maxx s * maxy s -> (lo <= vget 0 (mesh s) i <= hi)%Q) ->
  exists v, GetHeight s x z = Some v /\ (lo <= v <= hi)%Q.
Proof.
  intros Hsz Hx Hy Hcells.
  destruct (Interpolate_built x z (maxx s) (maxy s) (resolution s) (mesh s)
              Hsz Hx Hy) as [_ HI].
  unfold GetHeight. rewrite (mesh_not_empty s Hsz Hx Hy), HI.
  eexists. split; [reflexivity|].
  pose proof (InterpolateReads_below x z (maxx s) (maxy s) (resolution s) Hx Hy) as HF.
  unfold InterpolateReads in HF. cbv zeta in HF.
  inversion HF as [|? ? F1 HF1]; subst. inversion HF1 as [|? ? F2 HF2]; subst.
  inversion HF2 as [|? ? F3 HF3]; subst. inversion HF3 as [|? ? F4 _]; subst.
  pose proof (gridPos_range x (maxx s) (resolution s) Hx) as [Hgx _].
  pose proof (gridPos_range z (maxy s) (resolution s) Hy) as [Hgz _].
  unfold interpolateAt. cbv zeta.
  apply mix_between; [| |now apply frac_range];
    (apply mix_between; [now apply Hcells|now apply Hcells|now apply frac_range]).
Qed.

(** X6.  On a built mesh the interpolated height never leaves the range
    of the cells a query can read: when the cells at the flat indices
    below [maxx * maxy] lie in [[lo, hi]], so does [GetHeight] at every
    coordinate. *)
Theorem GetHeight_stays_within_the_cells (s : SmoothHeightMesh) (lo hi x z : Q) :
  vsize (mesh s) = (maxx s + 1) * (maxy s + 1) ->
  1 <= maxx s -> 1 <= maxy s ->
  (forall i, 0 <= i < maxx s * maxy s -> (lo <= vget 0 (mesh s) i <= hi)%Q) ->
  exists v, GetHeight s x z = Some v /\ (lo <= v <= hi)%Q.
Proof.
  intros Hsz Hx Hy Hcells. now apply GetHeight_between.
Qed.

(** X7.  A value stored with [SetHeight] at the flat index
    [x + y * maxx] of a cell is what [GetHeight] returns at the grid
    point [(x * resolution, y * resolution)] of that cell. *)
Theorem SetHeight_then_GetHeight (s : SmoothHeightMesh) (x y : Z) (h : Q) :
  vsize (mesh s) = (maxx s + 1) * (maxy s + 1) ->
  1 <= maxx s -> 1 <= maxy s -> (0 < resolution s)%Q ->
  0 <= x < maxx s -> 0 <= y < maxy s ->
  exists s1 v,
    SetHeight s (x + y * maxx s) h = Some (h, s1) /\
    GetHeight s1 (of_int x * resolution s) (of_int y * resolution s) = Some v /\
    (v == h)%Q.
Proof.
  intros Hsz Hx Hy Hres Hx0 Hy0.
  assert (Hi : 0 <= x + y * maxx s < vsize (mesh s)) by (rewrite Hsz; nia).
  set (s1 := set_mesh s (vset (mesh s) (x + y * maxx s) h)).
  destruct (GetHeight_at_grid_point s1 x y) as (v & Hv & Ev); auto.
  { unfold s1. rewrite vsize_set_mesh_vset. exact Hsz. }
  exists s1, v. split; [now apply SetHeight_eq|]. split; [exact Hv|].
  rewrite Ev. unfold s1. cbn. rewrite vget_vset_same by exact Hi. reflexivity.
Qed.

(** X8.  No query reads the mesh from the flat index [maxx * maxy] on:
    after [SetHeight] at such an index, with any value, [GetHeight] and
    [GetHeightAboveWater] return at every coordinate what they returned
    before. *)
Theorem queries_ignore_the_cells_from_maxx_maxy_on
    (s : SmoothHeightMesh) (j : Z) (h x z : Q) :
  vsize (mesh s) = (maxx s + 1) * (maxy s + 1) ->
  1 <= maxx s -> 1 <= maxy s ->
  maxx s * maxy s <= j < vsize (mesh s) ->
  exists s1,
    SetHeight s j h = Some (h, s1) /\
    GetHeight s1 x z = GetHeight s x z /\
    GetHeightAboveWater s1 x z = GetHeightAboveWater s x z.
Proof.
  intros Hsz Hx Hy Hj.
  set (s1 := set_mesh s (vset (mesh s) j h)).
  exists s1. split; [apply SetHeight_eq; nia|].
  assert (Hsz1 : vsize (mesh s1) = (maxx s1 + 1) * (maxy s1 + 1))
    by (unfold s1; rewrite vsize_set_mesh_vset; exact Hsz).
  destruct (Interpolate_built x z (maxx s) (maxy s) (resolution s) (mesh s)
              Hsz Hx Hy) as [_ HI].
  destruct (Interpolate_built x z (maxx s1) (maxy s1) (resolution s1) (mesh s1)
              Hsz1 Hx Hy) as [_ HI1].
  assert (E : interpolateAt (gridPos x (maxx s) (resolution s))
                (gridPos z (maxy s) (resolution s)) (maxx s) (maxy s) (mesh s1)
              = interpolateAt (gridPos x (maxx s) (resolution s))
                  (gridPos z (maxy s) (resolution s)) (maxx s) (maxy s) (mesh s)).
  { pose proof (InterpolateReads_below x z (maxx s) (maxy s) (resolution s) Hx Hy)
      as HF.
    unfold InterpolateReads in HF. cbv zeta in HF.
    inversion HF as [|? ? F1 HF1]; subst. inversion HF1 as [|? ? F2 HF2]; subst.
    inversion HF2 as [|? ? F3 HF3]; subst. inversion HF3 as [|? ? F4 _]; subst.
    unfold interpolateAt, s1. cbv zeta. cbn [mesh set_mesh].
    rewrite !(vget_vset_other 0%Q (mesh s) j) by lia. reflexivity. }
  unfold GetHeight, GetHeightAboveWater.
  rewrite (mesh_not_empty s Hsz Hx Hy), (mesh_not_empty s1 Hsz1 Hx Hy), HI, HI1.
  change (maxx s1) with (maxx s). change (maxy s1) with (maxy s).
  change (resolution s1) with (resolution s).
  rewrite E. split; reflexivity.
Qed.

(** ** The life cycle of the object *)

(** X9.  [Kill] releases the storage and keeps the configuration; a
    second [Kill] changes nothing; a killed object has no mesh for the
    queries to read; and it has forgotten what it held: [Init] after
    [Kill] does exactly what [Init] does on an object that was never
    built, whatever the arguments. *)
Theorem Kill_resets_the_object
    (GetHeightReal : Q -> Q -> Q) (minHeight maxHeight : Q) (expf : Q -> Q)
    (mx my res smoothRad : Q) (s : SmoothHeightMesh) :
  mesh (Kill s) = [] /\ origMesh (Kill s) = [] /\
  maxx (Kill s) = maxx s /\ maxy (Kill s) = maxy s /\
  resolution (Kill s) = resolution s /\ smoothRadius (Kill s) = smoothRadius s /\
  Kill (Kill s) = Kill s /\
  (forall x z, GetHeight (Kill s) x z = None /\
               GetHeightAboveWater (Kill s) x z = None) /\
  Init GetHeightReal minHeight maxHeight expf mx my res smoothRad (Kill s)
  = Init GetHeightReal minHeight maxHeight expf mx my res smoothRad emptyMesh.
Proof.
  do 7 (split; [reflexivity|]).
  split; [intros x z; split; reflexivity|].
  reflexivity.
Qed.

(** * The object [Init] builds *)

Lemma Qfloor_succ q : Qfloor (q + 1) = Qfloor q + 1.
Proof.
  pose proof (Qfloor_le q) as A1. pose proof (Qlt_floor q) as A2.
  pose proof (Qfloor_le (q + 1)) as B1. pose proof (Qlt_floor (q + 1)) as B2.
  rewrite inject_Z_plus in A2, B2. change (inject_Z 1) with 1%Q in A2, B2.
  assert (H1 : (inject_Z (Qfloor (q + 1)) < inject_Z (Qfloor q + 2))%Q).
  { rewrite inject_Z_plus. change (inject_Z 2) with 2%Q. lra. }
  assert (H2 : (inject_Z (Qfloor q) < inject_Z (Qfloor (q + 1)))%Q) by lra.
  rewrite <- Zlt_Qlt in H1, H2. lia.
Qed.

Lemma flat_index_split maxx maxy i :
  1 <= maxx -> 0 <= i < maxx * maxy ->
  exists x y, 0 <= x < maxx /\ 0 <= y < maxy /\ i = x + y * maxx.
Proof.
  intros Hx Hi. assert (Hm : 0 < maxx) by lia.
  exists (i mod maxx), (i / maxx).
  pose proof (Z.mod_pos_bound i maxx Hm) as Hmod.
  pose proof (Z.div_mod i maxx) as Hdm.
  split; [lia|]. split.
  - split; [apply Z.div_pos; lia|]. apply Z.div_lt_upper_bound; nia.
  - rewrite (Hdm ltac:(lia)) at 1. ring.
Qed.

Section BuiltObject.
Variable GetHeightReal : Q -> Q -> Q.
Variables minHeight maxHeight : Q.
Variable expf : Q -> Q.
Variables mx my res smoothRad : Q.
Variable s : SmoothHeightMesh.
Hypothesis Hempty : mesh s = [].
Hypothesis Hmx : (0 <= mx)%Q.
Hypothesis Hmy : (0 <= my)%Q.
Hypothesis Hres : (0 < res)%Q.

Local Abbreviation init :=
  (Init GetHeightReal minHeight maxHeight expf mx my res smoothRad s).

(** [Init] leaves an object on which every query is defined. *)
Lemma Init_layout :
  exists s',
    init = Some s' /\
    maxx s' = Qfloor (mx / res) + 1 /\ maxy s' = Qfloor (my / res) + 1 /\
    fmaxx s' = mx /\ fmaxy s' = my /\ resolution s' = res /\
    1 <= maxx s' /\ 1 <= maxy s' /\
    vsize (mesh s') = (maxx s' + 1) * (maxy s' + 1) /\
    origMesh s' = mesh s'.
Proof.
  pose proof (grid_extent_pos mx res Hmx Hres) as Hx.
  pose proof (grid_extent_pos my res Hmy Hres) as Hy.
  assert (Hqx : (0 <= mx / res)%Q) by (apply Qle_shift_div_l; [exact Hres|lra]).
  assert (Hqy : (0 <= my / res)%Q) by (apply Qle_shift_div_l; [exact Hres|lra]).
  unfold Init, MakeSmoothMesh.
  set (c := mkSmoothHeightMesh (to_int (mx / res + 1)) (to_int (my / res + 1))
              mx my res (std_max 1 smoothRad) (mesh s) (origMesh s)
              (colsMaxima s) (maximaRows s)) in *.
  destruct (MakeSmoothMeshWith_layout GetHeightReal minHeight maxHeight expf 2 c)
    as (s' & cm0 & mr0 & mesh0 & _ & _ & _ & E & Hsz & Ho & _);
    [exact Hempty|simpl; lia|simpl; lia|].
  destruct (MakeSmoothMeshWith_result GetHeightReal minHeight maxHeight expf 2 c)
    as (kernel & m0 & o0 & c0 & r0 & _ & _ & _ & _ & _ & E');
    [exact Hempty|simpl; lia|simpl; lia|].
  cbv zeta in E'. exists s'. split; [exact E|].
  assert (Es : maxx s' = maxx c /\ maxy s' = maxy c /\ fmaxx s' = fmaxx c /\
               fmaxy s' = fmaxy c /\ resolution s' = resolution c).
  { rewrite E in E'. injection E' as ->. cbn. auto. }
  destruct Es as (E1 & E2 & E3 & E4 & E5). clear E'. subst c.
  cbn [maxx maxy fmaxx fmaxy resolution] in *.
  assert (Tx : to_int (mx / res + 1) = Qfloor (mx / res) + 1)
    by (rewrite to_int_nonneg by lra; apply Qfloor_succ).
  assert (Ty : to_int (my / res + 1) = Qfloor (my / res) + 1)
    by (rewrite to_int_nonneg by lra; apply Qfloor_succ).
  rewrite E1, E2. rewrite Tx, Ty in *.
  repeat split; auto.
Qed.

End BuiltObject.

(** X17.  [MakeSmoothMesh] keeps a copy of what it built: a build on an
    object without storage returns an object with the dimensions, the
    extents, the resolution and the radius it was given, whose
    [origMesh] is an exact copy of its [mesh] (the [std::copy] of line
    427 over [(maxx + 1) * (maxy + 1)] floats each), and on which, for
    [maxx >= 1] and [maxy >= 1], both queries return a value at every
    coordinate. *)
Theorem build_saves_the_mesh_in_origMesh
    (GetHeightReal : Q -> Q -> Q) (minHeight maxHeight : Q) (expf : Q -> Q)
    (blurPassesCount : nat) (s : SmoothHeightMesh) :
  mesh s = [] -> 0 <= maxx s -> 0 <= maxy s ->
  exists s',
    MakeSmoothMeshWith GetHeightReal minHeight maxHeight expf blurPassesCount s
    = Some s' /\
    maxx s' = maxx s /\ maxy s' = maxy s /\
    fmaxx s' = fmaxx s /\ fmaxy s' = fmaxy s /\
    resolution s' = resolution s /\ smoothRadius s' = smoothRadius s /\
    vsize (mesh s') = (maxx s + 1) * (maxy s + 1) /\
    vsize (origMesh s') = (maxx s + 1) * (maxy s + 1) /\
    origMesh s' = mesh s' /\
    (1 <= maxx s -> 1 <= maxy s ->
     forall x z, exists v w,
       GetHeight s' x z = Some v /\ GetHeightAboveWater s' x z = Some w).
Proof.
  intros Hempty Hx Hy.
  destruct (MakeSmoothMeshWith_layout GetHeightReal minHeight maxHeight expf
              blurPassesCount s Hempty Hx Hy)
    as (s' & cm0 & mr0 & mesh0 & _ & _ & _ & E & Hsz & Ho & _).
  destruct (MakeSmoothMeshWith_result GetHeightReal minHeight maxHeight expf
              blurPassesCount s Hempty)
    as (kernel & m0 & o0 & c0 & r0 & _ & _ & _ & _ & _ & E'); [lia|lia|].
  cbv zeta in E'. exists s'. split; [exact E|].
  assert (Es : maxx s' = maxx s /\ maxy s' = maxy s /\ fmaxx s' = fmaxx s /\
               fmaxy s' = fmaxy s /\ resolution s' = resolution s /\
               smoothRadius s' = smoothRadius s).
  { rewrite E in E'. injection E' as ->. cbn. repeat split; reflexivity. }
  clear E'. destruct Es as (E1 & E2 & E3 & E4 & E5 & E6).
  repeat (split; [assumption|]).
  split; [rewrite Ho; exact Hsz|]. split; [exact Ho|].
  intros Hx1 Hy1 x z. unfold GetHeight, GetHeightAboveWater.
  rewrite <- E1, <- E2 in Hsz. rewrite <- E1 in Hx1. rewrite <- E2 in Hy1.
  rewrite (mesh_not_empty s' Hsz Hx1 Hy1).
  destruct (Interpolate_built x z (maxx s') (maxy s') (resolution s') (mesh s')
              Hsz Hx1 Hy1) as [_ ->].
  simpl. eauto.
Qed.

(** X18.  For a terrain within the global height bounds (above the
    lowest float), the object [Init] builds answers every query with a
    height within these bounds, and at the grid point of every cell
    with a height that is at least the terrain height there: the smooth
    mesh never lies below the ground at a grid point. *)
Theorem Init_heights_respect_the_terrain
    (GetHeightReal : Q -> Q -> Q) (minHeight maxHeight : Q) (expf : Q -> Q)
    (mx my res smoothRad : Q) (s : SmoothHeightMesh) :
  (forall a b, (minHeight <= GetHeightReal a b <= maxHeight)%Q) ->
  (lowest < minHeight)%Q ->
  mesh s = [] -> (0 <= mx)%Q -> (0 <= my)%Q -> (0 < res)%Q ->
  exists s',
    Init GetHeightReal minHeight maxHeight expf mx my res smoothRad s = Some s' /\
    (forall x z, exists v,
       GetHeight s' x z = Some v /\ (minHeight <= v <= maxHeight)%Q) /\
    (forall x y, 0 <= x < maxx s' -> 0 <= y < maxy s' ->
       exists v,
         GetHeight s' (of_int x * res) (of_int y * res) = Some v /\
         (GetHeightReal (of_int x * res) (of_int y * res) <= v)%Q).
Proof.
  intros Hb Hlo Hempty Hmx Hmy Hres.
  destruct (Init_layout GetHeightReal minHeight maxHeight expf mx my res
              smoothRad s Hempty Hmx Hmy Hres)
    as (s' & E & _ & _ & _ & _ & E5 & Hx & Hy & Hsz & _).
  exists s'. split; [exact E|].
  unfold Init, MakeSmoothMesh in E.
  set (c := mkSmoothHeightMesh (to_int (mx / res + 1)) (to_int (my / res + 1))
              mx my res (std_max 1 smoothRad) (mesh s) (origMesh s)
              (colsMaxima s) (maximaRows s)) in *.
  destruct (MakeSmoothMeshWith_config GetHeightReal minHeight maxHeight expf
              2 c s' E) as (C1 & C2 & C3 & _).
  destruct (build_keeps_terrain_below GetHeightReal minHeight maxHeight expf 2 c)
    as (s2 & E2 & Hcells); auto.
  { rewrite <- C1. lia. }
  { rewrite <- C2. lia. }
  { unfold c. cbn [smoothRadius]. pose proof (std_max_one_ge smoothRad). lra. }
  rewrite E in E2. injection E2 as <-.
  rewrite <- C1, <- C2, <- C3 in Hcells. rewrite E5 in Hcells.
  split.
  - intros x z. apply GetHeight_between; auto.
    intros i Hi. destruct (flat_index_split _ _ i Hx Hi) as (x0 & y0 & Hx0 & Hy0 & ->).
    now apply Hcells.
  - intros x y Hx0 Hy0.
    destruct (GetHeight_at_grid_point s' x y) as (v & Ev & Hv); auto.
    { rewrite E5. exact Hres. }
    rewrite E5 in Ev. exists v. split; [exact Ev|].
    rewrite Hv. destruct (Hcells x y Hx0 Hy0) as [Hge _]. exact Hge.
Qed.

(** ** Instances of the further properties *)

Lemma spikeField_bounds a b : (0 <= spikeField a b <= 50)%Q.
Proof.
  unfold spikeField. destruct (Qeq_bool _ _ && Qeq_bool _ _); split; discriminate.
Qed.

Lemma SetHeight_overwrites_one_cell_witness :
  exists s1 s2,
    SetHeight sampleMesh 4 7 = Some (7%Q, s1) /\
    vget 0%Q (mesh s1) 4 = 7%Q /\
    SetHeight s1 4 8 = Some (8%Q, s2) /\
    SetHeight sampleMesh 4 8 = Some (8%Q, s2).
Proof.
  destruct (SetHeight_overwrites_one_cell sampleMesh 4 7 8)
    as (s1 & s2 & E & Hv & _ & _ & _ & _ & _ & _ & _ & E1 & E2).
  - vm_compute. split; [discriminate|reflexivity].
  - exists s1, s2. repeat split; assumption.
Defined.



Lemma edits_of_distinct_cells_commute_witness :
  exists va sa vb sab sb,
    AddHeight sampleMesh 1 3 = Some (va, sa) /\
    SetMaxHeight sa 4 20 = Some (vb, sab) /\
    SetMaxHeight sampleMesh 4 20 = Some (vb, sb) /\
    AddHeight sb 1 3 = Some (va, sab).
Proof.
  apply (edits_of_distinct_cells_commute sampleMesh 1 4 3 20).
  - vm_compute. split; [discriminate|reflexivity].
  - vm_compute. split; [discriminate|reflexivity].
  - discriminate.
Defined.

Lemma GetHeightAboveWater_floors_at_zero_witness :
  exists v w,
    GetHeight sampleMesh (1 # 2) 5 = Some v /\
    GetHeightAboveWater sampleMesh (1 # 2) 5 = Some w /\
    (0 <= w)%Q /\ (v <= w)%Q.
Proof.
  destruct (GetHeightAboveWater_floors_at_zero sampleMesh (1 # 2) 5)
    as (v & w & E1 & E2 & H0 & Hv & _).
  - reflexivity.
  - simpl. lia.
  - simpl. lia.
  - exists v, w. repeat split; assumption.
Defined.

Lemma GetHeight_stays_within_the_cells_witness :
  exists v, GetHeight sampleMesh (1 # 2) 5 = Some v /\ (10 <= v <= 13)%Q.
Proof.
  apply (GetHeight_stays_within_the_cells sampleMesh 10 13 (1 # 2) 5).
  - reflexivity.
  - simpl. lia.
  - simpl. lia.
  - intros i Hi. simpl in Hi.
    assert (Hc : i = 0 \/ i = 1 \/ i = 2 \/ i = 3) by lia.
    destruct Hc as [->|[->|[->| ->]]]; vm_compute; split; discriminate.
Defined.

Lemma SetHeight_then_GetHeight_witness :
  exists s1 v,
    SetHeight sampleMesh (1 + 1 * maxx sampleMesh) 7 = Some (7%Q, s1) /\
    GetHeight s1 (of_int 1 * resolution sampleMesh)
      (of_int 1 * resolution sampleMesh) = Some v /\
    (v == 7)%Q.
Proof.
  apply (SetHeight_then_GetHeight sampleMesh 1 1 7).
  - reflexivity.
  - simpl. lia.
  - simpl. lia.
  - reflexivity.
  - simpl. lia.
  - simpl. lia.
Defined.

Lemma queries_ignore_the_cells_from_maxx_maxy_on_witness :
  exists s1,
    SetHeight sampleMesh 6 99 = Some (99%Q, s1) /\
    GetHeight s1 5 5 = GetHeight sampleMesh 5 5 /\
    GetHeightAboveWater s1 5 5 = GetHeightAboveWater sampleMesh 5 5.
Proof.
  apply (queries_ignore_the_cells_from_maxx_maxy_on sampleMesh 6 99 5 5).
  - reflexivity.
  - simpl. lia.
  - simpl. lia.
  - vm_compute. split; [discriminate|reflexivity].
Defined.

Lemma CheckInvariants_hold_after_every_row_witness :
  let st := slidingWindowRows spikeField 2 2 1 1 1
              ([lowest; lowest; lowest], [-1; -1; -1], repeat 0%Q 9) in
  CheckInvariants spikeField 0 50 1 2 2 1 1 (fst (fst st)) (snd (fst st)) = true.
Proof.
  apply (CheckInvariants_hold_after_every_row spikeField 0 50 2 2 1 1 1
           [lowest; lowest; lowest] [-1; -1; -1] (repeat 0%Q 9));
    try lia; try reflexivity.
  - intros x y _ _. apply spikeField_above_lowest.
  - intros x y _ _. apply spikeField_bounds.
  - intros x Hx.
    assert (Hc : x = 0 \/ x = 1 \/ x = 2) by lia.
    destruct Hc as [->|[->| ->]]; reflexivity.
Defined.

Lemma recorded_row_attains_the_maximum_witness :
  let st := slidingWindowRows spikeField 2 2 1 1 0
              ([lowest; lowest; lowest], [-1; -1; -1], repeat 0%Q 9) in
  let r := vget 0 (snd (fst st)) 1 in
  rowWithinNextWindow 0 1 (snd (fst st)) 1 = true /\
  0 <= r <= 2 /\
  (gridHeight spikeField 1 1 r == vget 0%Q (fst (fst st)) 1)%Q.
Proof.
  apply (recorded_row_attains_the_maximum spikeField 2 2 1 1 0
           [lowest; lowest; lowest] [-1; -1; -1] (repeat 0%Q 9) 1);
    try lia; try reflexivity.
  - intros x y _ _. apply spikeField_above_lowest.
  - intros x Hx.
    assert (Hc : x = 0 \/ x = 1 \/ x = 2) by lia.
    destruct Hc as [->|[->| ->]]; reflexivity.
Defined.

Lemma last_row_without_radius_resets_the_columns_witness :
  let st := slidingWindowRows spikeField 2 2 0 1 2
              ([lowest; lowest; lowest], [-1; -1; -1], repeat 0%Q 9) in
  vget 0%Q (fst (fst st)) 1 = lowest /\
  vget 0 (snd (fst st)) 1 = 2 /\
  rowWithinNextWindow 2 0 (snd (fst st)) 1 = false.
Proof.
  apply (last_row_without_radius_resets_the_columns spikeField 2 2 1
           [lowest; lowest; lowest] [-1; -1; -1] (repeat 0%Q 9) 1);
    try lia; try reflexivity.
  - intros x y _ _. apply spikeField_above_lowest.
  - intros x Hx.
    assert (Hc : x = 0 \/ x = 1 \/ x = 2) by lia.
    destruct Hc as [->|[->| ->]]; reflexivity.
Defined.

Lemma build_never_writes_the_last_slots_witness :
  exists s',
    MakeSmoothMeshWith spikeField 0 50 expfSample 2 sampleConfig = Some s' /\
    vsize (mesh s') = (maxx sampleConfig + 1) * (maxy sampleConfig + 1) /\
    forall j,
      maxx sampleConfig * (maxy sampleConfig + 1) <= j
      < (maxx sampleConfig + 1) * (maxy sampleConfig + 1) ->
      vget 0%Q (mesh s') j = 0%Q.
Proof.
  apply (build_never_writes_the_last_slots spikeField 0 50 expfSample 2
           sampleConfig).
  - reflexivity.
  - simpl. lia.
  - simpl. lia.
Defined.


Lemma FindRadialMaximum_assertions_hold_witness :
  let before := slidingWindowRows spikeField 2 2 1 1 (1 - 1)
                  ([lowest; lowest; lowest], [-1; -1; -1], repeat 0%Q 9) in
  let after := slidingWindowRows spikeField 2 2 1 1 1
                 ([lowest; lowest; lowest], [-1; -1; -1], repeat 0%Q 9) in
  (forall i, 0 <= i <= 2 ->
     (gridHeight spikeField 1 i 1 <= vget 0%Q (fst (fst before)) i)%Q) /\
  (forall x, 0 <= x < 2 ->
     (gridHeight spikeField 1 x 1 <= vget 0%Q (snd after) (x + 1 * 2) <= 50)%Q).
Proof.
  apply (FindRadialMaximum_assertions_hold spikeField 50 2 2 1 1 1
           [lowest; lowest; lowest] [-1; -1; -1] (repeat 0%Q 9));
    try lia; try reflexivity.
  - intros x y _ _. apply spikeField_above_lowest.
  - intros x y _ _. apply spikeField_bounds.
  - intros x Hx.
    assert (Hc : x = 0 \/ x = 1 \/ x = 2) by lia.
    destruct Hc as [->|[->| ->]]; reflexivity.
Defined.

Lemma blur_average_stays_within_the_cells_witness :
  (10 <= blurAvgH 2 1 [1 # 2; 1 # 4]%Q (mesh sampleMesh) 0 1 <= 13)%Q /\
  (10 <= blurAvgV 2 2 1 [1 # 2; 1 # 4]%Q (mesh sampleMesh) 0 1 <= 13)%Q.
Proof.
  apply (blur_average_stays_within_the_cells 2 2 1 [1 # 2; 1 # 4]%Q
           (mesh sampleMesh) 10 13 0 1); try lia.
  - intros i Hi. assert (Hc : i = 0 \/ i = 1) by lia.
    destruct Hc as [->| ->]; vm_compute; discriminate.
  - reflexivity.
  - intros x y Hx Hy.
    assert (Hc : (x = 0 \/ x = 1) /\ (y = 0 \/ y = 1)) by lia.
    destruct Hc as [[->| ->] [->| ->]]; vm_compute; split; discriminate.
Defined.

Lemma bootstrap_records_the_first_maximal_row_witness :
  let cm' := FindMaximumColumnHeights flatField 2 2 1 1
               ([lowest; lowest; lowest], [-1; -1; -1]) in
  0 <= snd (col cm' 1) <= Z.min 2 1 /\
  (gridHeight flatField 1 1 (snd (col cm' 1)) == fst (col cm' 1))%Q /\
  (gridHeight flatField 1 1 1 <= fst (col cm' 1))%Q /\
  ((gridHeight flatField 1 1 1 == fst (col cm' 1))%Q -> snd (col cm' 1) <= 1).
Proof.
  apply (bootstrap_records_the_first_maximal_row flatField 2 2 1 1
           ([lowest; lowest; lowest], [-1; -1; -1]) 1 1);
    try lia; try reflexivity.
  - split; reflexivity.
  - intros x Hx.
    assert (Hc : x = 0 \/ x = 1 \/ x = 2) by lia.
    destruct Hc as [->|[->| ->]]; reflexivity.
Defined.

Lemma rescan_records_the_last_maximal_row_witness :
  let cm' := FixRemainingMaxima flatField 1 2 2 1 1
               ([0; 0; 0]%Q, [0; 0; 0]) in
  (gridHeight flatField 1 1 2 == fst (col cm' 1))%Q /\ 2 <= snd (col cm' 1).
Proof.
  split; [reflexivity|].
  apply (rescan_records_the_last_maximal_row flatField 1 2 2 1 1
           ([0; 0; 0]%Q, [0; 0; 0]) 1 2).
  - split; reflexivity.
  - lia.
  - vm_compute. discriminate.
  - lia.
  - reflexivity.
Defined.

Lemma build_saves_the_mesh_in_origMesh_witness :
  exists s',
    MakeSmoothMeshWith spikeField 0 50 expfSample 2 sampleConfig = Some s' /\
    origMesh s' = mesh s' /\
    forall x z, exists v w,
      GetHeight s' x z = Some v /\ GetHeightAboveWater s' x z = Some w.
Proof.
  destruct (build_saves_the_mesh_in_origMesh spikeField 0 50 expfSample 2
              sampleConfig)
    as (s' & E & _ & _ & _ & _ & _ & _ & _ & _ & Ho & Hq).
  - reflexivity.
  - simpl. lia.
  - simpl. lia.
  - exists s'. split; [exact E|]. split; [exact Ho|].
    apply Hq; simpl; lia.
Defined.

Lemma Init_heights_respect_the_terrain_witness :
  exists s',
    Init spikeField 0 50 expfSample 2 2 1 1 emptyMesh = Some s' /\
    (forall x z, exists v,
       GetHeight s' x z = Some v /\ (0 <= v <= 50)%Q).
Proof.
  destruct (Init_heights_respect_the_terrain spikeField 0 50 expfSample 2 2 1 1
              emptyMesh) as (s' & E & Hq & _).
  - exact spikeField_bounds.
  - reflexivity.
  - reflexivity.
  - vm_compute. discriminate.
  - vm_compute. discriminate.
  - reflexivity.
  - exists s'. split; assumption.
Defined.
